(** * Lix Cache: the TypeScript client's batching and single-flight engine

    A shallow embedding of [lix-cache-sdk/src/client.ts] (class [LixCache]),
    of the HTTP transport it calls ([HttpClient.request]) and of the two
    routes of the Elixir server it talks to ([POST /cache/batch] and
    [GET /cache/scan]), followed by the properties of the engine.

    JavaScript runs the client on one thread.  Every [async] method is cut
    at its [await]s into frames; promise objects live in a heap indexed by
    allocation order; the microtask queue is a list served first-in
    first-out.  The world outside the client (application code, the
    network, the producers handed to [remember], the clock) acts through
    events. *)

From Stdlib Require Import ZArith Lia Ascii.
From stdpp Require Import gmap strings list fin_maps relations pretty.

Local Open Scope string_scope.
Local Open Scope list_scope.
Local Open Scope Z_scope.

Set Warnings "-register-all".

(** ** JavaScript values *)

(** What a cache entry, a producer result or a promise may hold.  [VFun] is
    the closure [getBy] returned by [rememberAll].  Numbers are the
    integers, which JavaScript writes in decimal notation as long as they
    stay below [10 ^ 21] in size; an object is the list of its own
    properties, in the order JavaScript goes through them.  No test of the
    client looks at that order and the server's maps do not keep it, so
    objects are meant up to it. *)
Inductive Value :=
| VUndefined
| VNull
| VBool (b : bool)
| VNum (n : Z)
| VStr (s : string)
| VArr (elements : list Value)
| VObj (fields : list (string * Value))
| VFun (f : string → Value).

(** [v !== null] *)
Definition not_null (v : Value) : bool :=
  match v with VNull => false | _ => true end.

(** [value === undefined ? null : value] *)
Definition undefined_to_null (v : Value) : Value :=
  match v with VUndefined => VNull | _ => v end.

(** JavaScript truthiness, for [if (markerExists)] and [a || b]. *)
Definition truthy (v : Value) : bool :=
  match v with
  | VUndefined | VNull => false
  | VBool b => b
  | VNum n => negb (n =? 0)
  | VStr s => negb (String.eqb s "")
  | _ => true
  end.

(** [v.name] for a [v] that is neither [null] nor [undefined].  Only an
    object has the property; of two fields of one name the later one
    counts, as it does in [JSON.parse]. *)
Definition property (name : string) (v : Value) : Value :=
  match v with
  | VObj fields =>
      foldl (λ found field, if String.eqb field.1 name then field.2 else found)
        VUndefined fields
  | _ => VUndefined
  end.

(** What [throw] carries.  [instanceof TypeError] and [instanceof Error] are
    the only class tests the client makes.  [err_fields] holds the
    properties a subclass of [LixCacheError] adds to the error
    ([statusCode], [response], [timeoutMs], [key], [operation]) and
    [err_cause] is its [cause]. *)
Inductive ErrorClass := TypeErrorClass | PlainError | NotAnError.

Inductive JsError := {
  err_class : ErrorClass;
  err_name : string;
  err_message : string;
  err_fields : list (string * Value);
  err_cause : option JsError
}.

Definition TypeError (message : string) : JsError :=
  {| err_class := TypeErrorClass; err_name := "TypeError";
     err_message := message; err_fields := []; err_cause := None |}.

(** [error instanceof Error] *)
Definition instanceof_Error (error : JsError) : bool :=
  match err_class error with NotAnError => false | _ => true end.

(** [haystack.includes(needle)] *)
Fixpoint includes (needle haystack : string) : bool :=
  String.prefix needle haystack ||
  match haystack with
  | EmptyString => false
  | String _ rest => includes needle rest
  end.

(** ** JSON *)

(** Whether [JSON.stringify] writes a value: [undefined] and functions
    have no JSON text. *)
Definition JSON_writes (v : Value) : bool :=
  match v with VUndefined | VFun _ => false | _ => true end.

(** [JSON.parse(JSON.stringify(v))] for a [v] held in an array or under a
    property that is written: inside an array [undefined] and functions
    become [null], inside an object their properties are left out.  This
    is for plain data; an object with a [toJSON] method is not read but
    asked, and what its method would answer is not modelled. *)
Fixpoint JSON_value (v : Value) : Value :=
  match v with
  | VUndefined | VFun _ => VNull
  | VArr elements => VArr (JSON_value <$> elements)
  | VObj fields =>
      VObj (omap (λ field, if JSON_writes field.2
                           then Some (field.1, JSON_value field.2) else None)
              fields)
  | v => v
  end.

(** [typeof v === 'function'] *)
Definition is_function (v : Value) : bool :=
  match v with VFun _ => true | _ => false end.

(** No object in [v] has a [toJSON] method. *)
Fixpoint plain_data (v : Value) : bool :=
  match v with
  | VArr elements => forallb plain_data elements
  | VObj fields =>
      forallb (λ field,
                 negb (String.eqb field.1 "toJSON" && is_function field.2)
                 && plain_data field.2) fields
  | _ => true
  end.

(** What [JSON.stringify] writes, and writes as it stands. *)
Definition JSON_data (v : Value) : Prop :=
  JSON_writes v = true ∧ plain_data v = true.

Definition quote_mark : string := String "034"%char "".
Definition backslash : string := String "092"%char "".

(** The sixteen digits of [\u00XX]. *)
Definition hex_digit (n : nat) : ascii :=
  match n with
  | 0 => "0" | 1 => "1" | 2 => "2" | 3 => "3" | 4 => "4" | 5 => "5"
  | 6 => "6" | 7 => "7" | 8 => "8" | 9 => "9" | 10 => "a" | 11 => "b"
  | 12 => "c" | 13 => "d" | 14 => "e" | _ => "f"
  end%char%nat.

(** What [JSON.stringify] writes for one character of a string: the
    quotation mark, the backslash and the control characters are escaped,
    everything else is copied. *)
Definition JSON_escape (c : ascii) : string :=
  let n := nat_of_ascii c in
  if Ascii.eqb c "034"%char then backslash +:+ quote_mark
  else if Ascii.eqb c "092"%char then backslash +:+ backslash
  else if Ascii.eqb c "008"%char then backslash +:+ "b"
  else if Ascii.eqb c "009"%char then backslash +:+ "t"
  else if Ascii.eqb c "010"%char then backslash +:+ "n"
  else if Ascii.eqb c "012"%char then backslash +:+ "f"
  else if Ascii.eqb c "013"%char then backslash +:+ "r"
  else if (n <? 32)%nat then
    backslash +:+ "u00"
      +:+ String (hex_digit (n / 16)) (String (hex_digit (n mod 16)) "")
  else String c "".

Fixpoint JSON_quote_go (s : string) : string :=
  match s with
  | EmptyString => ""
  | String c s => JSON_escape c +:+ JSON_quote_go s
  end.

Definition JSON_quote (s : string) : string :=
  quote_mark +:+ JSON_quote_go s +:+ quote_mark.

(** [JSON.stringify(v)]; [None] stands for [undefined]. *)
Fixpoint JSON_stringify (v : Value) : option string :=
  match v with
  | VUndefined | VFun _ => None
  | VNull => Some "null"
  | VBool b => Some (if b then "true" else "false")
  | VNum n => Some (pretty n)
  | VStr s => Some (JSON_quote s)
  | VArr elements =>
      Some ("[" +:+ String.concat ","
                      ((λ element, default "null" (JSON_stringify element))
                         <$> elements) +:+ "]")
  | VObj fields =>
      Some ("{" +:+ String.concat ","
                      (omap (λ field, (λ text, JSON_quote field.1 +:+ ":" +:+ text)
                                        <$> JSON_stringify field.2) fields)
                +:+ "}")
  end.

(** [`${JSON.stringify(v)}`] *)
Definition JSON_text (v : Value) : string :=
  default "undefined" (JSON_stringify v).

(** ** Wire types ([types.ts]) *)

Inductive BatchOperation :=
| OpGet (key : string)
| OpSet (key : string) (value : Value) (ttl : option Z)
| OpDelete (key : string).

Definition op_key (o : BatchOperation) : string :=
  match o with OpGet k | OpSet k _ _ | OpDelete k => k end.

(** A batch result as it comes out of [response.json()]: nothing checks it
    against the [BatchResult] union, so [r_op] is whatever string the peer
    sent and an absent [value] reads as [undefined]. *)
Record BatchResult := {
  r_op : string;
  r_key : string;
  r_value : Value;
  r_success : bool
}.

Record ScanItem := { item_key : string; item_value : Value }.

(** A parsed JSON response body; a field the peer did not send is [None]. *)
Record Body := {
  body_results : option (list BatchResult);
  body_items : option (list ScanItem)
}.

Inductive HttpRequest :=
| PostBatch (operations : list BatchOperation)
| GetScan (prefix : string).

(** The payload of an answer that is not [ok], as [handleErrorResponse]
    reads it: [await response.json()] when the content type says JSON,
    [{ error: await response.text() }] otherwise. *)
Inductive ErrorPayload :=
| TextPayload (text : string)
| JsonPayload (data : Value).

Coercion TextPayload : string >-> ErrorPayload.

Definition error_data (payload : ErrorPayload) : Value :=
  match payload with
  | TextPayload text => VObj [("error", VStr text)]
  | JsonPayload data => data
  end.

(** ** The transport: [HttpClient.request] *)

Module Http.

Record HttpClientConfig := {
  baseUrl : string;
  timeout : Z;
  maxRetries : nat;
  retryDelay : Z
}.

(** The defaults the [LixCache] constructor passes down. *)
Definition default_config : HttpClientConfig :=
  {| baseUrl := "http://localhost:4000"; timeout := 5000;
     maxRetries := 3; retryDelay := 100 |}.

(** What one pass through the [try] block of [request] meets: a response
    that was read in full (its status, its JSON body if it is [ok], its
    error payload if it is not), or a rejection, be it of [fetch] itself
    or of the [response.json()] or [response.text()] that reads the
    response. *)
Inductive FetchResult :=
| FetchResponse (status : Z) (body : Body) (payload : ErrorPayload)
| FetchRejects (e : JsError).

(** [response.ok] *)
Definition response_ok (status : Z) : bool :=
  (200 <=? status) && (status <=? 299).

Definition newline : string := String "010"%char "".

(** A template literal, line by line. *)
Definition lines (l : list string) : string := String.concat newline l.

Definition AbortError : JsError :=
  {| err_class := PlainError; err_name := "AbortError";
     err_message := "This operation was aborted";
     err_fields := []; err_cause := None |}.

Definition LixTimeoutError (timeoutMs : Z) : JsError :=
  {| err_class := PlainError; err_name := "LixTimeoutError";
     err_message :=
       lines ["Request timed out after " +:+ pretty timeoutMs +:+ "ms.";
              "";
              "The cache server took too long to respond.";
              "";
              "To fix:";
              "  • Increase timeout: new LixCache({ timeout: "
                +:+ pretty (timeoutMs * 2) +:+ " })";
              "  • Check server performance";
              "  • Verify network conditions"];
     err_fields := [("timeoutMs", VNum timeoutMs)]; err_cause := None |}.

Definition LixConnectionError (url : string) (cause : JsError) : JsError :=
  {| err_class := PlainError; err_name := "LixConnectionError";
     err_message :=
       lines ["Failed to connect to Lix Cache server at " +:+ url +:+ ".";
              "";
              "Possible causes:";
              "  • The cache server is not running";
              "  • The URL is incorrect";
              "  • Network connectivity issues";
              "";
              "To fix:";
              "  • Start the server: cd lix_cache_api && iex -S mix";
              "  • Check the URL in your config (default: http://localhost:4000)";
              "  • Verify network connectivity"];
     err_fields := []; err_cause := Some cause |}.

Definition LixAuthError : JsError :=
  {| err_class := PlainError; err_name := "LixAuthError";
     err_message :=
       lines ["Authentication failed: Invalid or missing API key.";
              "";
              "The cache server requires authentication but the provided API key is invalid or missing.";
              "";
              "To fix:";
              "  • Ensure LIX_AUTH_ENABLED=true and LIX_API_KEYS is set on the server";
              "  • Pass the correct API key to the client:";
              "";
              "    const cache = new LixCache({";
              "      url: 'http://localhost:4000',";
              "      apiKey: 'your-api-key'";
              "    });";
              "";
              "  • Verify the API key matches one of the server's configured keys";
              "  • Check that the server is configured correctly";
              "";
              "Generate a secure API key with:";
              "  openssl rand -hex 32"];
     err_fields := []; err_cause := None |}.

Definition LixNotFoundError (key : string) : JsError :=
  {| err_class := PlainError; err_name := "LixNotFoundError";
     err_message :=
       lines ["Key " +:+ quote_mark +:+ key +:+ quote_mark
                +:+ " not found in cache.";
              "";
              "The key either:";
              "  • Never existed";
              "  • Has expired (TTL reached)";
              "  • Was deleted";
              "";
              "Tip: Use optional chaining or check for null:";
              "  const value = await lix.get('" +:+ key +:+ "');";
              "  if (value) {";
              "    // value exists";
              "  }"];
     err_fields := [("key", VStr key)]; err_cause := None |}.

Definition LixTypeError (key operation : string) : JsError :=
  let verb := if String.eqb operation "incr" then "increment" else "decrement" in
  {| err_class := PlainError; err_name := "LixTypeError";
     err_message :=
       lines ["Cannot " +:+ verb +:+ " key " +:+ quote_mark +:+ key +:+ quote_mark
                +:+ " because it contains a non-numeric value.";
              "";
              "The incr() and decr() methods only work with numeric values (numbers).";
              "";
              "Current value type: " +:+ verb +:+ " requires a number";
              "";
              "To fix:";
              "  • Use a different key for counters (e.g., " +:+ quote_mark +:+ key
                +:+ ":count" +:+ quote_mark +:+ ")";
              "  • Or set a numeric value first: await lix.set('" +:+ key +:+ "', 0)";
              "";
              "Example:";
              "  // Separate keys for different data types";
              "  await lix.set('user:1', { name: 'Alice' });     // Object";
              "  await lix.incr('user:1:login_count');           // Counter"];
     err_fields := [("key", VStr key); ("operation", VStr operation)];
     err_cause := None |}.

(** What follows the payload in the message of a [LixServerError]. *)
Definition server_error_advice : string :=
  lines ["";
         "";
         "The cache server returned an error response.";
         "";
         "If this persists:";
         "  • Check server logs for details";
         "  • Verify the server is running correctly";
         "  • Report this issue if it seems like a bug"].

Definition LixServerError (statusCode : Z) (response : Value) : JsError :=
  {| err_class := PlainError; err_name := "LixServerError";
     err_message :=
       "Server error (" +:+ pretty statusCode +:+ "): " +:+ JSON_text response
         +:+ server_error_advice;
     err_fields := [("statusCode", VNum statusCode); ("response", response)];
     err_cause := None |}.

(** [handleErrorResponse], once the payload is read: it always throws, and
    this is what it throws.  Both routes the engine uses are reached
    without a [key] query parameter, so the 404 branch reports the key
    [unknown]; [errorData.error] is itself a [TypeError] when the payload
    is [null]. *)
Definition handleErrorResponse (path : string) (status : Z)
    (payload : ErrorPayload) : JsError :=
  let errorData := error_data payload in
  if status =? 401 then LixAuthError
  else if status =? 404 then LixNotFoundError "unknown"
  else if status =? 400 then
    match errorData with
    | VNull => TypeError "Cannot read properties of null (reading 'error')"
    | VUndefined =>
        TypeError "Cannot read properties of undefined (reading 'error')"
    | _ =>
        let errorMessage :=
          if truthy (property "error" errorData) then property "error" errorData
          else VStr "" in
        match errorMessage with
        | VStr errorMessage =>
            if includes "non_numeric" errorMessage then
              LixTypeError "unknown"
                (if includes "incr" path then "incr" else "decr")
            else LixServerError status errorData
        | _ => LixServerError status errorData
        end
    end
  else LixServerError status errorData.

(** [isNetworkError] *)
Definition isNetworkError (error : JsError) : bool :=
  match err_class error with
  | TypeErrorClass => true
  | PlainError =>
      includes "fetch" (err_message error)
      || includes "network" (err_message error)
  | NotAnError => false
  end.

(** What [request] did besides computing its result. *)
Inductive Effect := DidFetch (retryCount : nat) | DidSleep (ms : Z).

Definition is_fetch (e : Effect) : bool :=
  match e with DidFetch _ => true | DidSleep _ => false end.

(** [request(url, options, retryCount)].  [fetches] holds what the
    successive passes through the [try] block meet; when it is used up the
    next call of [fetch] never returns, the timer aborts it, and the abort
    is reported as a timeout.  The result is the value the returned promise
    settles with ([inl] body or [inr] error) and the effects in order. *)
Fixpoint request (config : HttpClientConfig) (path : string)
    (fetches : list FetchResult) (retryCount : nat)
    : (Body + JsError) * list Effect :=
  let catch (error : JsError) (rest : list FetchResult) :=
    if instanceof_Error error && String.eqb (err_name error) "AbortError" then
      (inr (LixTimeoutError (timeout config)), [])
    else if isNetworkError error && bool_decide (retryCount < maxRetries config)%nat then
      let delay := retryDelay config * 2 ^ Z.of_nat retryCount in
      let '(result, effects) := request config path rest (S retryCount) in
      (result, DidSleep delay :: effects)
    else if isNetworkError error then
      (inr (LixConnectionError (baseUrl config) error), [])
    else (inr error, []) in
  match fetches with
  | [] => (inr (LixTimeoutError (timeout config)), [DidFetch retryCount])
  | FetchResponse status body payload :: rest =>
      if response_ok status then (inl body, [DidFetch retryCount])
      else
        let '(result, effects) :=
          catch (handleErrorResponse path status payload) rest in
        (result, DidFetch retryCount :: effects)
  | FetchRejects error :: rest =>
      let '(result, effects) := catch error rest in
      (result, DidFetch retryCount :: effects)
  end.

(** How many times [fetch] was called. *)
Definition attempts (effects : list Effect) : nat :=
  length (filter (λ e, is_fetch e = true) effects).

Definition path_of (r : HttpRequest) : string :=
  match r with PostBatch _ => "/cache/batch" | GetScan _ => "/cache/scan" end.

(** [post(path, body)] and [get(path, params)] once they have built the
    URL: one call of [request]. *)
Definition send (config : HttpClientConfig) (r : HttpRequest)
    (fetches : list FetchResult) : (Body + JsError) * list Effect :=
  request config (path_of r) fetches 0.

(** [buildUrl] comes first in [post] and [get]: [new URL(path, baseUrl)]
    throws a [TypeError] when the base URL does not parse, the promise is
    rejected with it, and [request] is not called. *)
Definition buildUrl_throws (message : string) : (Body + JsError) * list Effect :=
  (inr (TypeError message), []).

(** The body [post] sends is [JSON.stringify(body)].  A [set] operation
    whose value has no JSON text goes out without its [value] property,
    which [VUndefined] stands for on the wire. *)
Definition wire_operation (operation : BatchOperation) : BatchOperation :=
  match operation with
  | OpSet key value ttl =>
      OpSet key (if JSON_writes value then JSON_value value else VUndefined) ttl
  | operation => operation
  end.

(** The request as the server's parser hands it to the router. *)
Definition wire (r : HttpRequest) : HttpRequest :=
  match r with
  | PostBatch operations => PostBatch (wire_operation <$> operations)
  | GetScan prefix => GetScan prefix
  end.

End Http.

(** ** The server: [LixCacheApi.Router] over Cachex *)

Module Server.

Record Entry := { entry_value : Value; entry_expires : option Z }.

(** The cache process: its table and the server's clock (milliseconds).
    Cachex itself is a library; what the router relies on is modelled
    here: an entry put with a ttl is gone once the clock reaches its
    expiry, [get] of a missing key is [nil], [keys] lists what is not
    expired. *)
Record Cachex := { table : gmap string Entry; clock : Z }.

Definition fresh (now : Z) (e : Entry) : bool :=
  match entry_expires e with None => true | Some t => now <? t end.

Definition Cachex_get (c : Cachex) (key : string) : Value :=
  match table c !! key with
  | Some e => if fresh (clock c) e then entry_value e else VNull
  | None => VNull
  end.

Definition Cachex_put (c : Cachex) (key : string) (value : Value)
    (ttl_ms : option Z) : Cachex :=
  {| table := <[key := {| entry_value := value;
                          entry_expires := (λ t, clock c + t) <$> ttl_ms |}]>
                (table c);
     clock := clock c |}.

Definition Cachex_del (c : Cachex) (key : string) : Cachex :=
  {| table := delete key (table c); clock := clock c |}.

Definition Cachex_keys (c : Cachex) : list string :=
  (map_to_list (filter (λ kv, fresh (clock c) kv.2 = true) (table c))).*1.

(** [opts = if ttl && ttl > 0, do: [ttl: :timer.seconds(ttl)], else: []] *)
Definition put_opts (ttl : option Z) : option Z :=
  match ttl with
  | Some t => if 0 <? t then Some (t * 1000) else None
  | None => None
  end.

(** The ["value"] field the [set] clause asks for.  An operation that
    left the client without one ([Http.wire_operation]) has none, and the
    clause does not match it. *)
Definition json_property (v : Value) : option Value :=
  match v with VUndefined | VFun _ => None | _ => Some v end.

(** One clause of the [Enum.map] in [post "/cache/batch"], applied to an
    operation of the parsed body; [None] when no clause matches (the
    handler raises). *)
Definition batch_clause (operation : BatchOperation) (c : Cachex)
    : option (Cachex * BatchResult) :=
  match operation with
  | OpGet key =>
      Some (c, {| r_op := "get"; r_key := key; r_value := Cachex_get c key;
                  r_success := false |})
  | OpSet key value ttl =>
      match json_property value with
      | Some value =>
          Some (Cachex_put c key value (put_opts ttl),
                {| r_op := "set"; r_key := key; r_value := VUndefined;
                   r_success := true |})
      | None => None
      end
  | OpDelete key =>
      Some (Cachex_del c key,
            {| r_op := "delete"; r_key := key; r_value := VUndefined;
               r_success := true |})
  end.

(** [post "/cache/batch"]: the operations are applied in the order
    received; when one raises, those before it have already taken
    effect and there is no result list. *)
Fixpoint batch (operations : list BatchOperation) (c : Cachex)
    : Cachex * option (list BatchResult) :=
  match operations with
  | [] => (c, Some [])
  | operation :: rest =>
      match batch_clause operation c with
      | Some (c, result) =>
          let '(c, results) := batch rest c in (c, cons result <$> results)
      | None => (c, None)
      end
  end.

(** [get "/cache/scan"] without [keys_only]. *)
Definition scan (prefix : string) (c : Cachex) : list ScanItem :=
  (λ key, {| item_key := key; item_value := Cachex_get c key |})
    <$> filter (λ key, String.prefix prefix key = true) (Cachex_keys c).

(** The server's answer to one request, as [fetch] sees it.  When no
    clause of the batch handler matches, the handler raises and the
    request ends with a 500, whose error data is
    [{ error: "Internal server error" }] as the API's documentation has
    it. *)
Definition handle (r : HttpRequest) (c : Cachex) : Cachex * Http.FetchResult :=
  match r with
  | PostBatch operations =>
      match batch operations c with
      | (c, Some results) =>
          (c, Http.FetchResponse 200
                {| body_results := Some results; body_items := None |} "")
      | (c, None) =>
          (c, Http.FetchResponse 500
                {| body_results := None; body_items := None |}
                "Internal server error")
      end
  | GetScan prefix =>
      (c, Http.FetchResponse 200
            {| body_results := None; body_items := Some (scan prefix c) |} "")
  end.

Definition advance (ms : Z) (c : Cachex) : Cachex :=
  {| table := table c; clock := clock c + Z.max 0 ms |}.

End Server.

(** ** The client: class [LixCache] *)

(** A promise either waits, with the frames to resume once it settles, or
    has settled for good. *)
Inductive Outcome := Fulfilled (v : Value) | Rejected (e : JsError).

(** The function handed to [remember] or [rememberAll].  Calling it either
    throws on the spot or returns a promise that the outside world settles
    later; [producer_id] tells producers apart in the log. *)
Record Producer := { producer_id : nat; throws : option JsError }.

Record SetOptions := { ttl : option Z }.

(** [options?.ttl] *)
Definition optional_ttl (options : option SetOptions) : option Z :=
  options ≫= ttl.

(** [getKey] is the caller's function: applied to an item it either
    throws, and then [getKey_throws] says what, or returns a key. *)
Record RememberAllOptions := {
  getKey : Value → string;
  getKey_throws : Value → option JsError;
  item_ttl : option Z;
  listTTL : option Z
}.

(** The [resolve] of a queue entry: the [resolve] of a [new Promise], the
    arrow function [get] wraps around it, or the closure a collapsed [get]
    installs over the one that was there. *)
Inductive Resolver :=
| ResolvePromise (p : nat)
| ResolveGet (p : nat)
| ResolveBoth (originalResolve resolve : Resolver).

Inductive Rejecter :=
| RejectPromise (p : nat)
| RejectBoth (originalReject reject : Rejecter).

Record QItem := {
  operation : BatchOperation;
  resolve : Resolver;
  reject : Rejecter
}.

(** The rest of an [async] method after an [await] on a promise. *)
Inductive Frame :=
| ExistsAfterGet (promise : nat)
| RememberAfterGet (key : string) (fallback : Producer)
    (options : option SetOptions) (promise : nat)
| RememberAfterFallback (key : string) (options : option SetOptions)
    (promise : nat)
| RememberAfterSet (key : string) (value : Value) (promise : nat)
| RememberAllAfterExists (prefix : string) (fallback : Producer)
    (options : RememberAllOptions) (promise : nat)
| RememberAllAfterFallback (prefix : string) (options : RememberAllOptions)
    (promise : nat)
| RememberAllAfterMarker (prefix : string) (options : RememberAllOptions)
    (items : list Value) (promise : nat).

(** The rest of an [async] method after an [await] on the transport. *)
Inductive HttpFrame :=
| FlushAfterPost (queue : list QItem)
| RememberAllAfterScan (prefix : string) (options : RememberAllOptions)
    (promise : nat)
| RememberAllAfterBatch (prefix : string) (options : RememberAllOptions)
    (items : list Value) (promise : nat).

Inductive Promise := Pending (reactions : list Frame) | Settled (o : Outcome).

Inductive Microtask :=
| RunFlush
| Resume (f : Frame) (o : Outcome)
| ResumeHttp (f : HttpFrame) (r : Body + JsError).

(** What an observer outside the client sees it do, oldest first. *)
Inductive Observed :=
| Invoked (producer : nat) (flight : nat) (returned : option nat)
| Sent (r : HttpRequest)
| Fetched (r : HttpRequest) (effects : list Http.Effect).

Record State := {
  batchQueue : list QItem;
  batchScheduled : bool;
  rememberPromises : gmap string nat;
  rememberAllPromises : gmap string nat;
  promises : list Promise;
  microtasks : list Microtask;
  requests : list (HttpRequest * HttpFrame);
  observed : list Observed;
  server : Server.Cachex;
  http : Http.HttpClientConfig
}.

Definition with_batchQueue (x : list QItem) (σ : State) : State :=
  {| batchQueue := x; batchScheduled := batchScheduled σ;
     rememberPromises := rememberPromises σ;
     rememberAllPromises := rememberAllPromises σ; promises := promises σ;
     microtasks := microtasks σ; requests := requests σ;
     observed := observed σ; server := server σ; http := http σ |}.

Definition with_batchScheduled (x : bool) (σ : State) : State :=
  {| batchQueue := batchQueue σ; batchScheduled := x;
     rememberPromises := rememberPromises σ;
     rememberAllPromises := rememberAllPromises σ; promises := promises σ;
     microtasks := microtasks σ; requests := requests σ;
     observed := observed σ; server := server σ; http := http σ |}.

Definition with_rememberPromises (x : gmap string nat) (σ : State) : State :=
  {| batchQueue := batchQueue σ; batchScheduled := batchScheduled σ;
     rememberPromises := x;
     rememberAllPromises := rememberAllPromises σ; promises := promises σ;
     microtasks := microtasks σ; requests := requests σ;
     observed := observed σ; server := server σ; http := http σ |}.

Definition with_rememberAllPromises (x : gmap string nat) (σ : State) : State :=
  {| batchQueue := batchQueue σ; batchScheduled := batchScheduled σ;
     rememberPromises := rememberPromises σ;
     rememberAllPromises := x; promises := promises σ;
     microtasks := microtasks σ; requests := requests σ;
     observed := observed σ; server := server σ; http := http σ |}.

Definition with_promises (x : list Promise) (σ : State) : State :=
  {| batchQueue := batchQueue σ; batchScheduled := batchScheduled σ;
     rememberPromises := rememberPromises σ;
     rememberAllPromises := rememberAllPromises σ; promises := x;
     microtasks := microtasks σ; requests := requests σ;
     observed := observed σ; server := server σ; http := http σ |}.

Definition with_microtasks (x : list Microtask) (σ : State) : State :=
  {| batchQueue := batchQueue σ; batchScheduled := batchScheduled σ;
     rememberPromises := rememberPromises σ;
     rememberAllPromises := rememberAllPromises σ; promises := promises σ;
     microtasks := x; requests := requests σ;
     observed := observed σ; server := server σ; http := http σ |}.

Definition with_requests (x : list (HttpRequest * HttpFrame)) (σ : State) : State :=
  {| batchQueue := batchQueue σ; batchScheduled := batchScheduled σ;
     rememberPromises := rememberPromises σ;
     rememberAllPromises := rememberAllPromises σ; promises := promises σ;
     microtasks := microtasks σ; requests := x;
     observed := observed σ; server := server σ; http := http σ |}.

Definition with_observed (x : list Observed) (σ : State) : State :=
  {| batchQueue := batchQueue σ; batchScheduled := batchScheduled σ;
     rememberPromises := rememberPromises σ;
     rememberAllPromises := rememberAllPromises σ; promises := promises σ;
     microtasks := microtasks σ; requests := requests σ;
     observed := x; server := server σ; http := http σ |}.

Definition with_server (x : Server.Cachex) (σ : State) : State :=
  {| batchQueue := batchQueue σ; batchScheduled := batchScheduled σ;
     rememberPromises := rememberPromises σ;
     rememberAllPromises := rememberAllPromises σ; promises := promises σ;
     microtasks := microtasks σ; requests := requests σ;
     observed := observed σ; server := x; http := http σ |}.

(** [new LixCache(config)] next to a server in state [c]. *)
Definition initial (config : Http.HttpClientConfig) (c : Server.Cachex) : State :=
  {| batchQueue := []; batchScheduled := false;
     rememberPromises := ∅; rememberAllPromises := ∅; promises := [];
     microtasks := []; requests := []; observed := [];
     server := c; http := config |}.

(** *** Promises *)

Definition new_promise (σ : State) : State * nat :=
  (with_promises (promises σ ++ [Pending []]) σ, length (promises σ)).

(** Settling hands every waiting frame to the microtask queue; settling a
    promise a second time does nothing. *)
Definition settle (p : nat) (o : Outcome) (σ : State) : State :=
  match promises σ !! p with
  | Some (Pending reactions) =>
      with_microtasks (microtasks σ ++ ((λ f, Resume f o) <$> reactions))
        (with_promises (<[p := Settled o]> (promises σ)) σ)
  | _ => σ
  end.

(** [await p] with [f] the code after it. *)
Definition await (p : nat) (f : Frame) (σ : State) : State :=
  match promises σ !! p with
  | Some (Pending reactions) =>
      with_promises (<[p := Pending (reactions ++ [f])]> (promises σ)) σ
  | Some (Settled o) => with_microtasks (microtasks σ ++ [Resume f o]) σ
  | None => σ
  end.

Fixpoint call_resolve (r : Resolver) (value : Value) (σ : State) : State :=
  match r with
  | ResolvePromise p => settle p (Fulfilled value) σ
  | ResolveGet p => settle p (Fulfilled (undefined_to_null value)) σ
  | ResolveBoth originalResolve resolve =>
      call_resolve resolve value (call_resolve originalResolve value σ)
  end.

Fixpoint call_reject (r : Rejecter) (error : JsError) (σ : State) : State :=
  match r with
  | RejectPromise p => settle p (Rejected error) σ
  | RejectBoth originalReject reject =>
      call_reject reject error (call_reject originalReject error σ)
  end.

(** [await this.http.post(...)] or [await this.http.get(...)]: the request
    leaves now and [f] resumes with its result. *)
Definition http_send (r : HttpRequest) (f : HttpFrame) (σ : State) : State :=
  with_observed (observed σ ++ [Sent r])
    (with_requests (requests σ ++ [(r, f)]) σ).

(** *** The queue *)

(** [scheduleBatch] *)
Definition scheduleBatch (σ : State) : State :=
  if batchScheduled σ then σ
  else with_microtasks (microtasks σ ++ [RunFlush]) (with_batchScheduled true σ).

(** [this.batchQueue.push(item); this.scheduleBatch()] *)
Definition enqueue (item : QItem) (σ : State) : State :=
  scheduleBatch (with_batchQueue (batchQueue σ ++ [item]) σ).

(** [set(key, value, options)] *)
Definition lix_set (key : string) (value : Value) (options : option SetOptions)
    (σ : State) : State * nat :=
  let '(σ, p) := new_promise σ in
  (enqueue {| operation := OpSet key value (optional_ttl options);
              resolve := ResolvePromise p; reject := RejectPromise p |} σ, p).

(** [item.operation.op === 'get' && item.operation.key === key] *)
Definition is_get_of (key : string) (item : QItem) : bool :=
  match operation item with
  | OpGet k => String.eqb k key
  | _ => false
  end.

(** [get(key)] *)
Definition lix_get (key : string) (σ : State) : State * nat :=
  match list_find (λ item, is_get_of key item = true) (batchQueue σ) with
  | Some (i, existing) =>
      let '(σ, p) := new_promise σ in
      (with_batchQueue
         (<[i := {| operation := operation existing;
                    resolve := ResolveBoth (resolve existing) (ResolvePromise p);
                    reject := RejectBoth (reject existing) (RejectPromise p) |}]>
            (batchQueue σ)) σ, p)
  | None =>
      let '(σ, p) := new_promise σ in
      (enqueue {| operation := OpGet key;
                  resolve := ResolveGet p; reject := RejectPromise p |} σ, p)
  end.

(** [delete(key)] *)
Definition lix_delete (key : string) (σ : State) : State * nat :=
  let '(σ, p) := new_promise σ in
  (enqueue {| operation := OpDelete key;
              resolve := ResolvePromise p; reject := RejectPromise p |} σ, p).

(** [queue.forEach(item => item.reject(error))] *)
Definition reject_all (queue : list QItem) (error : JsError) (σ : State) : State :=
  foldl (λ σ item, call_reject (reject item) error σ) σ queue.

(** The body of [results.results.forEach((result, index) => ...)] from
    [index] on.  Reading [.resolve] of a [queue[index]] that is not there
    throws, which ends the loop. *)
Fixpoint fan_out (queue : list QItem) (results : list BatchResult)
    (index : nat) (σ : State) : State * option JsError :=
  match results with
  | [] => (σ, None)
  | result :: rest =>
      let settle_with (value : Value) :=
        match queue !! index with
        | Some queuedItem =>
            fan_out queue rest (S index) (call_resolve (resolve queuedItem) value σ)
        | None =>
            (σ, Some (TypeError "Cannot read properties of undefined"))
        end in
      if String.eqb (r_op result) "get" then settle_with (r_value result)
      else if String.eqb (r_op result) "set" then settle_with VUndefined
      else if String.eqb (r_op result) "delete" then settle_with VUndefined
      else fan_out queue rest (S index) σ
  end.

(** [flushBatch] up to its [await]. *)
Definition flushBatch (σ : State) : State :=
  let σ := with_batchScheduled false σ in
  match batchQueue σ with
  | [] => σ
  | _ =>
      let queue := batchQueue σ in
      http_send (PostBatch (operation <$> queue)) (FlushAfterPost queue)
        (with_batchQueue [] σ)
  end.

(** [flushBatch] after its [await]: the [try] block's tail and the
    [catch]. *)
Definition flush_settled (queue : list QItem) (r : Body + JsError)
    (σ : State) : State :=
  match r with
  | inl results =>
      match body_results results with
      | Some results =>
          match fan_out queue results 0 σ with
          | (σ, None) => σ
          | (σ, Some error) => reject_all queue error σ
          end
      | None =>
          reject_all queue (TypeError "Cannot read properties of undefined") σ
      end
  | inr error => reject_all queue error σ
  end.

(** *** [exists], [remember], [rememberAll] *)

(** [exists(key)] *)
Definition lix_exists (key : string) (σ : State) : State * nat :=
  let '(σ, promise) := new_promise σ in
  let '(σ, value) := lix_get key σ in
  (await value (ExistsAfterGet promise) σ, promise).

(** [fallback()]: logged, then either the exception or the promise. *)
Definition call_fallback (fallback : Producer) (flight : nat) (σ : State)
    : State * (nat + JsError) :=
  match throws fallback with
  | Some error =>
      (with_observed
         (observed σ ++ [Invoked (producer_id fallback) flight None]) σ,
       inr error)
  | None =>
      let '(σ, q) := new_promise σ in
      (with_observed
         (observed σ ++ [Invoked (producer_id fallback) flight (Some q)]) σ,
       inl q)
  end.

(** The [finally] of [remember], then the settlement of its promise. *)
Definition remember_finally (key : string) (promise : nat) (o : Outcome)
    (σ : State) : State :=
  settle promise o
    (with_rememberPromises (delete key (rememberPromises σ)) σ).

(** [remember(key, fallback, options)] *)
Definition remember (key : string) (fallback : Producer)
    (options : option SetOptions) (σ : State) : State * nat :=
  match rememberPromises σ !! key with
  | Some inflight => (σ, inflight)
  | None =>
      let '(σ, promise) := new_promise σ in
      let '(σ, cached) := lix_get key σ in
      let σ := await cached (RememberAfterGet key fallback options promise) σ in
      (with_rememberPromises (<[key := promise]> (rememberPromises σ)) σ,
       promise)
  end.

Definition listMarkerKey (prefix : string) : string := prefix +:+ "__list__".

(** [items.map(item => ({op: 'set', key: `${prefix}${getKey(item)}`, value: item, ttl}))] *)
Definition cache_operations (prefix : string) (options : RememberAllOptions)
    (items : list Value) : list BatchOperation :=
  (λ item, OpSet (prefix +:+ getKey options item) item (item_ttl options))
    <$> items.

(** [itemMap], filled by [items.forEach(item => itemMap.set(getKey(item), item))] *)
Definition itemMap (options : RememberAllOptions) (items : list Value)
    : gmap string Value :=
  foldl (λ m item, <[getKey options item := item]> m) ∅ items.

(** [{ items, getBy: key => itemMap.get(key) }] *)
Definition RememberAllResult (options : RememberAllOptions)
    (items : list Value) : Value :=
  VObj [("items", VArr items);
        ("getBy", VFun (λ key, default VUndefined (itemMap options items !! key)))].

(** [items.map(item => ... getKey(item) ...)] and
    [items.forEach(item => ... getKey(item) ...)] end at the first item
    [getKey] throws on, with what it throws. *)
Definition getKey_raises (options : RememberAllOptions) (items : list Value)
    : option JsError :=
  head (omap (getKey_throws options) items).

Definition rememberAll_finally (prefix : string) (promise : nat) (o : Outcome)
    (σ : State) : State :=
  settle promise o
    (with_rememberAllPromises (delete prefix (rememberAllPromises σ)) σ).

(** The end of the [try] block of [rememberAll]: the lookup map is
    built, which calls [getKey] on every item, and the result returned. *)
Definition rememberAll_return (prefix : string) (options : RememberAllOptions)
    (items : list Value) (promise : nat) (σ : State) : State :=
  match getKey_raises options items with
  | Some error => rememberAll_finally prefix promise (Rejected error) σ
  | None =>
      rememberAll_finally prefix promise
        (Fulfilled (RememberAllResult options items)) σ
  end.

(** [items = await fallback()] *)
Definition rememberAll_fetch (prefix : string) (fallback : Producer)
    (options : RememberAllOptions) (promise : nat) (σ : State) : State :=
  match call_fallback fallback promise σ with
  | (σ, inl q) => await q (RememberAllAfterFallback prefix options promise) σ
  | (σ, inr error) => rememberAll_finally prefix promise (Rejected error) σ
  end.

(** [rememberAll(prefix, fallback, options)] *)
Definition rememberAll (prefix : string) (fallback : Producer)
    (options : RememberAllOptions) (σ : State) : State * nat :=
  match rememberAllPromises σ !! prefix with
  | Some inflight => (σ, inflight)
  | None =>
      let '(σ, promise) := new_promise σ in
      let σ :=
        match listTTL options with
        | Some _ =>
            let '(σ, markerExists) := lix_exists (listMarkerKey prefix) σ in
            await markerExists
              (RememberAllAfterExists prefix fallback options promise) σ
        | None => rememberAll_fetch prefix fallback options promise σ
        end in
      (with_rememberAllPromises (<[prefix := promise]> (rememberAllPromises σ)) σ,
       promise)
  end.

(** *** Resuming after an [await] *)

Definition resume (f : Frame) (o : Outcome) (σ : State) : State :=
  match f, o with
  | ExistsAfterGet promise, Fulfilled value =>
      settle promise (Fulfilled (VBool (not_null value))) σ
  | ExistsAfterGet promise, Rejected error =>
      settle promise (Rejected error) σ
  | RememberAfterGet key fallback options promise, Fulfilled cached =>
      if not_null cached then
        remember_finally key promise (Fulfilled cached) σ
      else
        match call_fallback fallback promise σ with
        | (σ, inl q) => await q (RememberAfterFallback key options promise) σ
        | (σ, inr error) => remember_finally key promise (Rejected error) σ
        end
  | RememberAfterGet key _ _ promise, Rejected error =>
      remember_finally key promise (Rejected error) σ
  | RememberAfterFallback key options promise, Fulfilled value =>
      let '(σ, stored) := lix_set key value options σ in
      await stored (RememberAfterSet key value promise) σ
  | RememberAfterFallback key _ promise, Rejected error =>
      remember_finally key promise (Rejected error) σ
  | RememberAfterSet key value promise, Fulfilled _ =>
      remember_finally key promise (Fulfilled value) σ
  | RememberAfterSet key _ promise, Rejected error =>
      remember_finally key promise (Rejected error) σ
  | RememberAllAfterExists prefix fallback options promise, Fulfilled markerExists =>
      if truthy markerExists then
        http_send (GetScan prefix) (RememberAllAfterScan prefix options promise) σ
      else rememberAll_fetch prefix fallback options promise σ
  | RememberAllAfterExists prefix _ _ promise, Rejected error =>
      rememberAll_finally prefix promise (Rejected error) σ
  | RememberAllAfterFallback prefix options promise, Fulfilled (VArr items) =>
      match getKey_raises options items with
      | Some error => rememberAll_finally prefix promise (Rejected error) σ
      | None =>
          http_send (PostBatch (cache_operations prefix options items))
            (RememberAllAfterBatch prefix options items promise) σ
      end
  | RememberAllAfterFallback prefix _ promise, Fulfilled _ =>
      rememberAll_finally prefix promise
        (Rejected (TypeError "items.map is not a function")) σ
  | RememberAllAfterFallback prefix _ promise, Rejected error =>
      rememberAll_finally prefix promise (Rejected error) σ
  | RememberAllAfterMarker prefix options items promise, Fulfilled _ =>
      rememberAll_return prefix options items promise σ
  | RememberAllAfterMarker prefix _ _ promise, Rejected error =>
      rememberAll_finally prefix promise (Rejected error) σ
  end.

Definition resume_http (f : HttpFrame) (r : Body + JsError) (σ : State) : State :=
  match f, r with
  | FlushAfterPost queue, r => flush_settled queue r σ
  | RememberAllAfterScan prefix options promise, inl scanResult =>
      let items :=
        match body_items scanResult with
        | Some items => item_value <$> items
        | None => []
        end in
      rememberAll_return prefix options items promise σ
  | RememberAllAfterScan prefix _ promise, inr error =>
      rememberAll_finally prefix promise (Rejected error) σ
  | RememberAllAfterBatch prefix options items promise, inl _ =>
      match listTTL options with
      | Some listTTL =>
          let '(σ, stored) :=
            lix_set (listMarkerKey prefix) (VBool true)
              (Some {| ttl := Some listTTL |}) σ in
          await stored (RememberAllAfterMarker prefix options items promise) σ
      | None => rememberAll_return prefix options items promise σ
      end
  | RememberAllAfterBatch prefix _ _ promise, inr error =>
      rememberAll_finally prefix promise (Rejected error) σ
  end.

Definition run_task (t : Microtask) (σ : State) : State :=
  match t with
  | RunFlush => flushBatch σ
  | Resume f o => resume f o σ
  | ResumeHttp f r => resume_http f r σ
  end.

(** ** The world around the client *)

Inductive ApiCall :=
| CallSet (key : string) (value : Value) (options : option SetOptions)
| CallGet (key : string)
| CallDelete (key : string)
| CallExists (key : string)
| CallRemember (key : string) (fallback : Producer) (options : option SetOptions)
| CallRememberAll (prefix : string) (fallback : Producer)
    (options : RememberAllOptions).

(** A call and the promise it hands back. *)
Definition call (c : ApiCall) (σ : State) : State * nat :=
  match c with
  | CallSet key value options => lix_set key value options σ
  | CallGet key => lix_get key σ
  | CallDelete key => lix_delete key σ
  | CallExists key => lix_exists key σ
  | CallRemember key fallback options => remember key fallback options σ
  | CallRememberAll prefix fallback options =>
      rememberAll prefix fallback options σ
  end.

(** Request number [i] of those in flight gets [fetches] from the network;
    the frame waiting for it is resumed with what [request] makes of
    them. *)
Definition complete (i : nat) (fetches : list Http.FetchResult) (σ : State)
    : State :=
  match requests σ !! i with
  | Some (r, f) =>
      let '(result, effects) := Http.send (http σ) r fetches in
      with_observed (observed σ ++ [Fetched r effects])
        (with_microtasks (microtasks σ ++ [ResumeHttp f result])
           (with_requests (delete i (requests σ)) σ))
  | None => σ
  end.

(** Request number [i] of those in flight never left: [buildUrl] threw,
    and the frame waiting for it is resumed with what it threw. *)
Definition refuse (i : nat) (message : string) (σ : State) : State :=
  match requests σ !! i with
  | Some (r, f) =>
      let '(result, effects) := Http.buildUrl_throws message in
      with_observed (observed σ ++ [Fetched r effects])
        (with_microtasks (microtasks σ ++ [ResumeHttp f result])
           (with_requests (delete i (requests σ)) σ))
  | None => σ
  end.

(** Whether [q] is a promise some producer returned. *)
Definition produced (q : nat) (σ : State) : bool :=
  existsb (λ o, match o with
                | Invoked _ _ (Some q') => Nat.eqb q' q
                | _ => false
                end) (observed σ).

Inductive Event :=
| Call (c : ApiCall)
| Tick
| Serve (i : nat)
| Network (i : nat) (fetches : list Http.FetchResult)
| Refuse (i : nat) (message : string)
| Produce (q : nat) (o : Outcome)
| Elapse (ms : Z).

(** One event.  [Call]: application code calls a method.  [Tick]: the
    oldest microtask runs.  [Serve i]: request [i] reaches the server in
    its JSON form, and the server answers.  [Network i fetches]: request
    [i] meets a network or a peer that behaves as [fetches] says, the
    server's state staying as it is.  [Refuse i message]: the base URL of
    the client does not parse, and request [i] ends in [buildUrl] before
    anything is fetched.  [Produce q o]: the promise [q] a producer
    returned settles.  [Elapse ms]: time passes.  An event that does not apply leaves the
    state alone.  Events may interleave more freely than a JavaScript host
    allows (a response may arrive between two microtasks), so what holds
    of every run here holds of every run there. *)
Definition step (e : Event) (σ : State) : State :=
  match e with
  | Call c => (call c σ).1
  | Tick =>
      match microtasks σ with
      | [] => σ
      | t :: rest => run_task t (with_microtasks rest σ)
      end
  | Serve i =>
      match requests σ !! i with
      | Some (r, _) =>
          let '(c, answer) := Server.handle (Http.wire r) (server σ) in
          complete i [answer] (with_server c σ)
      | None => σ
      end
  | Network i fetches => complete i fetches σ
  | Refuse i message => refuse i message σ
  | Produce q o => if produced q σ then settle q o σ else σ
  | Elapse ms => with_server (Server.advance ms (server σ)) σ
  end.

Definition run (events : list Event) (σ : State) : State :=
  foldl (λ σ e, step e σ) σ events.

(** The states a client can be in. *)
Inductive reachable : State → Prop :=
| reachable_initial config c : reachable (initial config c)
| reachable_step e σ : reachable σ → reachable (step e σ).

(** * Properties *)

(** ** Settling promises *)

(** The promises a resolver or rejecter settles, with the outcome each
    gets, in the order the closures run. *)
Fixpoint resolutions (r : Resolver) (value : Value) : list (nat * Outcome) :=
  match r with
  | ResolvePromise p => [(p, Fulfilled value)]
  | ResolveGet p => [(p, Fulfilled (undefined_to_null value))]
  | ResolveBoth originalResolve resolve =>
      resolutions originalResolve value ++ resolutions resolve value
  end.

Fixpoint rejections (r : Rejecter) (error : JsError) : list (nat * Outcome) :=
  match r with
  | RejectPromise p => [(p, Rejected error)]
  | RejectBoth originalReject reject =>
      rejections originalReject error ++ rejections reject error
  end.

Definition settle_all (l : list (nat * Outcome)) (σ : State) : State :=
  foldl (λ σ s, settle s.1 s.2 σ) σ l.

(** The outcome the first settlement of [p] in [l] carries. *)
Fixpoint first_outcome (p : nat) (l : list (nat * Outcome)) : option Outcome :=
  match l with
  | [] => None
  | (q, o) :: l => if decide (q = p) then Some o else first_outcome p l
  end.

(** The promises an entry of the queue can settle. *)
Definition handles (item : QItem) : list nat := (rejections (reject item) (TypeError "")).*1.

Section settling.

Implicit Types (σ : State) (p q : nat) (o : Outcome) (l : list (nat * Outcome)).

Lemma settle_all_nil σ : settle_all [] σ = σ.
Proof. reflexivity. Qed.

Lemma settle_all_cons p o l σ :
  settle_all ((p, o) :: l) σ = settle_all l (settle p o σ).
Proof. reflexivity. Qed.

Lemma settle_all_app l1 l2 σ :
  settle_all (l1 ++ l2) σ = settle_all l2 (settle_all l1 σ).
Proof. apply foldl_app. Qed.

Lemma call_resolve_settle_all r value σ :
  call_resolve r value σ = settle_all (resolutions r value) σ.
Proof.
  revert σ. induction r as [p|p|r1 IH1 r2 IH2]; intros σ;
    cbn [call_resolve resolutions]; try done.
  by rewrite settle_all_app, IH1, IH2.
Qed.

Lemma call_reject_settle_all r error σ :
  call_reject r error σ = settle_all (rejections r error) σ.
Proof.
  revert σ. induction r as [p|r1 IH1 r2 IH2]; intros σ;
    cbn [call_reject rejections]; try done.
  by rewrite settle_all_app, IH1, IH2.
Qed.

Lemma reject_all_settle_all queue error σ :
  reject_all queue error σ
  = settle_all (queue ≫= λ item, rejections (reject item) error) σ.
Proof.
  revert σ. induction queue as [|item queue IH]; intros σ; [done|].
  rewrite bind_cons, settle_all_app, <- call_reject_settle_all. apply IH.
Qed.

(** What [settle] leaves alone. *)
Lemma settle_frame p o σ :
  batchQueue (settle p o σ) = batchQueue σ
  ∧ batchScheduled (settle p o σ) = batchScheduled σ
  ∧ rememberPromises (settle p o σ) = rememberPromises σ
  ∧ rememberAllPromises (settle p o σ) = rememberAllPromises σ
  ∧ requests (settle p o σ) = requests σ
  ∧ observed (settle p o σ) = observed σ
  ∧ server (settle p o σ) = server σ
  ∧ http (settle p o σ) = http σ
  ∧ length (promises (settle p o σ)) = length (promises σ).
Proof.
  unfold settle. destruct (promises σ !! p) as [[rs|]|]; simpl;
    rewrite ?length_insert; done.
Qed.

Lemma settle_all_frame l σ :
  batchQueue (settle_all l σ) = batchQueue σ
  ∧ batchScheduled (settle_all l σ) = batchScheduled σ
  ∧ rememberPromises (settle_all l σ) = rememberPromises σ
  ∧ rememberAllPromises (settle_all l σ) = rememberAllPromises σ
  ∧ requests (settle_all l σ) = requests σ
  ∧ observed (settle_all l σ) = observed σ
  ∧ server (settle_all l σ) = server σ
  ∧ http (settle_all l σ) = http σ
  ∧ length (promises (settle_all l σ)) = length (promises σ).
Proof.
  revert σ. induction l as [|[p o] l IH]; intros σ; [done|].
  rewrite settle_all_cons.
  destruct (IH (settle p o σ)) as (-> & -> & -> & -> & -> & -> & -> & -> & ->).
  apply settle_frame.
Qed.

Lemma settle_lookup p o σ q :
  promises (settle p o σ) !! q
  = match promises σ !! q with
    | Some (Pending rs) => Some (if decide (p = q) then Settled o else Pending rs)
    | other => other
    end.
Proof.
  unfold settle. destruct (decide (p = q)) as [->|Hne].
  - destruct (promises σ !! q) as [[rs|o']|] eqn:Hq; simpl; try by rewrite Hq.
    apply list_lookup_insert_eq. by eapply lookup_lt_Some.
  - destruct (promises σ !! p) as [[rs|o']|] eqn:Hp; simpl;
      rewrite ?list_lookup_insert_ne by done;
      by destruct (promises σ !! q) as [[?|?]|].
Qed.

(** A promise is settled by the first settlement that names it and by no
    other. *)
Lemma settle_all_lookup l σ q :
  promises (settle_all l σ) !! q
  = match promises σ !! q with
    | Some (Pending rs) =>
        Some (match first_outcome q l with
              | Some o => Settled o
              | None => Pending rs
              end)
    | other => other
    end.
Proof.
  revert σ. induction l as [|[p o] l IH]; intros σ.
  - simpl. by destruct (promises σ !! q) as [[?|?]|].
  - rewrite settle_all_cons, IH, settle_lookup. simpl.
    destruct (promises σ !! q) as [[rs|o']|]; try done.
    by destruct (decide (p = q)).
Qed.

Lemma settle_microtasks p o σ :
  microtasks (settle p o σ)
  = microtasks σ ++
    match promises σ !! p with
    | Some (Pending rs) => (λ f, Resume f o) <$> rs
    | _ => []
    end.
Proof.
  unfold settle. destruct (promises σ !! p) as [[rs|]|]; simpl;
    by rewrite ?app_nil_r.
Qed.

Lemma settle_all_microtasks_prefix l σ :
  microtasks σ `prefix_of` microtasks (settle_all l σ).
Proof.
  revert σ. induction l as [|[p o] l IH]; intros σ; [done|].
  rewrite settle_all_cons. etrans; [|apply IH].
  rewrite settle_microtasks. by apply prefix_app_r.
Qed.

(** Every frame that waited on a promise is resumed with the outcome the
    promise got. *)
Lemma settle_all_resumes l σ q rs o f :
  promises σ !! q = Some (Pending rs) →
  first_outcome q l = Some o →
  f ∈ rs →
  Resume f o ∈ microtasks (settle_all l σ).
Proof.
  revert σ. induction l as [|[p o'] l IH]; intros σ Hq Hfirst Hf; [done|].
  rewrite settle_all_cons. simpl in Hfirst.
  destruct (decide (p = q)) as [->|Hne].
  - injection Hfirst as ->.
    eapply elem_of_prefix; [|apply settle_all_microtasks_prefix].
    rewrite settle_microtasks, Hq. apply elem_of_app. right.
    apply list_elem_of_fmap. eauto.
  - apply IH; [|done..]. rewrite settle_lookup, Hq.
    by destruct (decide (p = q)).
Qed.

Lemma first_outcome_app q l1 l2 :
  first_outcome q (l1 ++ l2)
  = match first_outcome q l1 with
    | Some o => Some o
    | None => first_outcome q l2
    end.
Proof.
  induction l1 as [|[p o] l1 IH]; [done|]. simpl.
  by destruct (decide (p = q)).
Qed.

Lemma first_outcome_None q l : q ∉ l.*1 → first_outcome q l = None.
Proof.
  induction l as [|[p o] l IH]; [done|]. simpl. intros Hq.
  apply not_elem_of_cons in Hq as [Hne Hq].
  destruct (decide (p = q)); [congruence|auto].
Qed.

Lemma first_outcome_rejections q r error :
  q ∈ (rejections r error).*1 →
  first_outcome q (rejections r error) = Some (Rejected error).
Proof.
  induction r as [p|r1 IH1 r2 IH2]; simpl.
  - intros ->%list_elem_of_singleton. by rewrite decide_True.
  - rewrite fmap_app, first_outcome_app. intros [H1|H2]%elem_of_app.
    + by rewrite IH1.
    + destruct (first_outcome q (rejections r1 error)) as [o|] eqn:E; [|auto].
      destruct (decide (q ∈ (rejections r1 error).*1)) as [Hin|Hout].
      * auto.
      * by rewrite first_outcome_None in E.
Qed.

Lemma rejections_ids r e1 e2 : (rejections r e1).*1 = (rejections r e2).*1.
Proof.
  induction r as [p|r1 IH1 r2 IH2]; simpl; [done|].
  by rewrite !fmap_app, IH1, IH2.
Qed.

Lemma first_outcome_reject_all q queue error :
  q ∈ queue ≫= handles →
  first_outcome q (queue ≫= λ item, rejections (reject item) error)
  = Some (Rejected error).
Proof.
  induction queue as [|item queue IH]; [by intros ?%elem_of_nil|].
  rewrite !bind_cons, first_outcome_app. intros [H1|H2]%elem_of_app.
  - unfold handles in H1. rewrite (rejections_ids _ _ error) in H1.
    by rewrite first_outcome_rejections.
  - destruct (decide (q ∈ (rejections (reject item) error).*1)) as [Hin|Hout].
    + by rewrite first_outcome_rejections.
    + rewrite first_outcome_None by done. auto.
Qed.

Lemma first_outcome_reject_all_None q queue error :
  q ∉ queue ≫= handles →
  first_outcome q (queue ≫= λ item, rejections (reject item) error) = None.
Proof.
  intros Hq. apply first_outcome_None. intros Hin. apply Hq.
  clear Hq. induction queue as [|item queue IH]; [done|].
  rewrite bind_cons in Hin. rewrite bind_cons, fmap_app in *.
  apply elem_of_app in Hin as [H1|H2].
  - apply elem_of_app. left. unfold handles.
    by rewrite (rejections_ids _ _ error).
  - apply elem_of_app. right. auto.
Qed.

End settling.

(** ** The transport *)

Section transport.

Import Http.

Lemma attempts_nil : attempts [] = 0%nat.
Proof. reflexivity. Qed.

Lemma attempts_fetch n effects :
  attempts (DidFetch n :: effects) = S (attempts effects).
Proof. reflexivity. Qed.

Lemma attempts_sleep ms effects :
  attempts (DidSleep ms :: effects) = attempts effects.
Proof. reflexivity. Qed.

(** What the [catch] block of [request] sees after one [fetch], if the
    [try] block did not return. *)
Definition caught (path : string) (f : FetchResult) : option JsError :=
  match f with
  | FetchResponse status _ errorData =>
      if response_ok status then None
      else Some (handleErrorResponse path status errorData)
  | FetchRejects error => Some error
  end.

(** The [catch] block goes round again. *)
Definition retries (config : HttpClientConfig) (retryCount : nat)
    (error : JsError) : bool :=
  negb (instanceof_Error error && String.eqb (err_name error) "AbortError")
  && isNetworkError error
  && bool_decide (retryCount < maxRetries config)%nat.

Lemma request_once config path f rest n :
  match caught path f with
  | Some error => retries config n error = false
  | None => True
  end →
  (request config path (f :: rest) n).2 = [DidFetch n].
Proof.
  unfold caught, retries. destruct f as [status body errorData|error]; simpl.
  - destruct (response_ok status); [done|].
    destruct (instanceof_Error _ && _); [done|]. simpl.
    destruct (isNetworkError _) eqn:Hnet; simpl; [|done].
    by intros ->.
  - destruct (instanceof_Error _ && _); [done|]. simpl.
    destruct (isNetworkError _) eqn:Hnet; simpl; [|done].
    by intros ->.
Qed.

Lemma request_again config path f rest n error :
  caught path f = Some error →
  retries config n error = true →
  request config path (f :: rest) n
  = ((request config path rest (S n)).1,
     DidFetch n :: DidSleep (retryDelay config * 2 ^ Z.of_nat n)
       :: (request config path rest (S n)).2).
Proof.
  unfold caught, retries. intros Hcaught Hretry.
  apply andb_prop in Hretry as [Hretry Hlt].
  apply andb_prop in Hretry as [Habort Hnet].
  apply negb_true_iff in Habort.
  destruct f as [status body errorData|error']; simpl.
  - destruct (response_ok status); [done|]. injection Hcaught as ->.
    rewrite Habort, Hnet, Hlt. simpl.
    by destruct (request config path rest (S n)).
  - injection Hcaught as ->. rewrite Habort, Hnet, Hlt. simpl.
    by destruct (request config path rest (S n)).
Qed.

(** One call of [request] calls [fetch] at least once and at most
    [maxRetries - retryCount + 1] times. *)
Lemma request_attempts config path fetches n :
  (1 ≤ attempts (request config path fetches n).2
   ≤ S (maxRetries config - n))%nat.
Proof.
  revert n. induction fetches as [|f rest IH]; intros n.
  - simpl. rewrite attempts_fetch, attempts_nil. lia.
  - destruct (caught path f) as [error|] eqn:Hcaught.
    + destruct (retries config n error) eqn:Hretry.
      * rewrite (request_again _ _ _ _ _ _ Hcaught Hretry). simpl.
        rewrite attempts_fetch, attempts_sleep.
        specialize (IH (S n)).
        apply andb_prop in Hretry as [_ Hlt%bool_decide_eq_true]. lia.
      * rewrite request_once; [|by rewrite Hcaught].
        rewrite attempts_fetch, attempts_nil. lia.
    + rewrite request_once; [|by rewrite Hcaught].
      rewrite attempts_fetch, attempts_nil. lia.
Qed.

End transport.

(** ** The flush *)

(** What [fan_out] hands to the resolver at the same index, if anything. *)
Definition payload (result : BatchResult) : option Value :=
  if String.eqb (r_op result) "get" then Some (r_value result)
  else if String.eqb (r_op result) "set" then Some VUndefined
  else if String.eqb (r_op result) "delete" then Some VUndefined
  else None.

Definition deliver (item : QItem) (result : BatchResult) : list (nat * Outcome) :=
  match payload result with
  | Some value => resolutions (resolve item) value
  | None => []
  end.

Section flush.

Implicit Types (σ : State) (queue : list QItem) (results : list BatchResult).

Lemma flushBatch_empty σ :
  batchQueue σ = [] → flushBatch σ = with_batchScheduled false σ.
Proof. unfold flushBatch. simpl. by intros ->. Qed.

Lemma flushBatch_sends σ :
  batchQueue σ ≠ [] →
  flushBatch σ
  = http_send (PostBatch (operation <$> batchQueue σ))
      (FlushAfterPost (batchQueue σ))
      (with_batchQueue [] (with_batchScheduled false σ)).
Proof. unfold flushBatch. simpl. by destruct (batchQueue σ). Qed.

Lemma fan_out_cons queue result results index σ :
  fan_out queue (result :: results) index σ
  = match payload result with
    | Some value =>
        match queue !! index with
        | Some queuedItem =>
            fan_out queue results (S index)
              (call_resolve (resolve queuedItem) value σ)
        | None => (σ, Some (TypeError "Cannot read properties of undefined"))
        end
    | None => fan_out queue results (S index) σ
    end.
Proof.
  unfold payload. cbn [fan_out].
  by repeat destruct (String.eqb (r_op result) _).
Qed.

(** As long as the response is no longer than the queue, result [i] goes
    to the resolver of entry [i] and nothing throws. *)
Lemma fan_out_settle_all queue results index σ :
  (index + length results ≤ length queue)%nat →
  fan_out queue results index σ
  = (settle_all (mjoin (zip_with deliver (drop index queue) results)) σ, None).
Proof.
  revert index σ. induction results as [|result results IH]; intros index σ Hlen.
  - by destruct (drop index queue).
  - simpl in Hlen.
    destruct (lookup_lt_is_Some_2 queue index) as [item Hitem]; [lia|].
    rewrite (drop_S _ _ _ Hitem). cbn [zip_with mjoin list_join].
    rewrite settle_all_app, fan_out_cons, Hitem. unfold deliver at 2.
    destruct (payload result) as [value|]; rewrite IH by lia; [|done].
    by rewrite call_resolve_settle_all.
Qed.

Lemma flush_settled_ok queue results items σ :
  (length results ≤ length queue)%nat →
  flush_settled queue
    (inl {| body_results := Some results; body_items := items |}) σ
  = settle_all (mjoin (zip_with deliver queue results)) σ.
Proof.
  intros Hlen. unfold flush_settled. simpl.
  by rewrite fan_out_settle_all by (simpl; lia).
Qed.

(** Rejecting a whole snapshot. *)
Lemma reject_all_spec queue error σ :
  (∀ p rs, p ∈ queue ≫= handles →
     promises σ !! p = Some (Pending rs) →
     promises (reject_all queue error σ) !! p = Some (Settled (Rejected error))
     ∧ ∀ f, f ∈ rs → Resume f (Rejected error) ∈ microtasks (reject_all queue error σ))
  ∧ (∀ q, q ∉ queue ≫= handles →
     promises (reject_all queue error σ) !! q = promises σ !! q).
Proof.
  rewrite reject_all_settle_all. split.
  - intros p rs Hp Hpending. split.
    + by rewrite settle_all_lookup, Hpending, first_outcome_reject_all.
    + intros f Hf. eapply settle_all_resumes; [done| |done].
      by apply first_outcome_reject_all.
  - intros q Hq. rewrite settle_all_lookup, first_outcome_reject_all_None by done.
    by destruct (promises σ !! q) as [[?|?]|].
Qed.

Lemma reject_all_frame queue error σ :
  batchQueue (reject_all queue error σ) = batchQueue σ
  ∧ batchScheduled (reject_all queue error σ) = batchScheduled σ
  ∧ rememberPromises (reject_all queue error σ) = rememberPromises σ
  ∧ rememberAllPromises (reject_all queue error σ) = rememberAllPromises σ
  ∧ requests (reject_all queue error σ) = requests σ
  ∧ observed (reject_all queue error σ) = observed σ
  ∧ server (reject_all queue error σ) = server σ
  ∧ http (reject_all queue error σ) = http σ
  ∧ length (promises (reject_all queue error σ)) = length (promises σ).
Proof. rewrite reject_all_settle_all. apply settle_all_frame. Qed.

Lemma complete_spec i fetches σ r f :
  requests σ !! i = Some (r, f) →
  complete i fetches σ
  = with_observed (observed σ ++ [Fetched r (Http.send (http σ) r fetches).2])
      (with_microtasks
         (microtasks σ ++ [ResumeHttp f (Http.send (http σ) r fetches).1])
         (with_requests (delete i (requests σ)) σ)).
Proof.
  intros Hr. unfold complete. rewrite Hr.
  by destruct (Http.send (http σ) r fetches).
Qed.

End flush.

(** ** Failure of the exchange (C5) *)

Definition empty_cache : Server.Cachex :=
  {| Server.table := ∅; Server.clock := 0 |}.

(** C5.  When the exchange of a batch fails in transport, whatever the
    error, the flush resumes with that error, and resuming it rejects every
    completion handle of the batch's snapshot that is still pending with
    that same error, resumes every listener of such a handle with it, and
    leaves the queue of the next cycle, its schedule flag and every other
    promise as they are. *)
Theorem transport_failure_rejects_snapshot σ i r queue fetches error :
  requests σ !! i = Some (r, FlushAfterPost queue) →
  (Http.send (http σ) r fetches).1 = inr error →
  (microtasks (step (Network i fetches) σ)
   = microtasks σ ++ [ResumeHttp (FlushAfterPost queue) (inr error)]
   ∧ batchQueue (step (Network i fetches) σ) = batchQueue σ
   ∧ promises (step (Network i fetches) σ) = promises σ)
  ∧ ∀ σ',
      let σ'' := run_task (ResumeHttp (FlushAfterPost queue) (inr error)) σ' in
      (∀ p rs, p ∈ queue ≫= handles →
         promises σ' !! p = Some (Pending rs) →
         promises σ'' !! p = Some (Settled (Rejected error))
         ∧ ∀ f, f ∈ rs → Resume f (Rejected error) ∈ microtasks σ'')
      ∧ batchQueue σ'' = batchQueue σ'
      ∧ batchScheduled σ'' = batchScheduled σ'
      ∧ ∀ q, q ∉ queue ≫= handles → promises σ'' !! q = promises σ' !! q.
Proof.
  intros Hr Hsend. split.
  - cbn [step]. rewrite (complete_spec _ _ _ _ _ Hr), Hsend. done.
  - intros σ'. cbn [run_task resume_http flush_settled].
    destruct (reject_all_spec queue error σ') as [Hin Hout].
    destruct (reject_all_frame queue error σ') as (Hq & Hs & _).
    auto.
Qed.

Lemma transport_failure_rejects_snapshot_witness :
  let σ := run [Call (CallGet "a"); Call (CallSet "b" (VNum 1) None); Tick]
             (initial Http.default_config empty_cache) in
  let σ' := run [Network 0 [Http.FetchRejects Http.AbortError];
                 Call (CallGet "c")] σ in
  let σ'' := step Tick σ' in
  promises σ'' !! 1%nat = Some (Settled (Rejected (Http.LixTimeoutError 5000)))
  ∧ batchQueue σ'' = batchQueue σ'.
Proof.
  intros σ σ' σ''.
  destruct (transport_failure_rejects_snapshot σ 0
    (PostBatch [OpGet "a"; OpSet "b" (VNum 1) None])
    [{| operation := OpGet "a"; resolve := ResolveGet 0; reject := RejectPromise 0 |};
     {| operation := OpSet "b" (VNum 1) None; resolve := ResolvePromise 1;
        reject := RejectPromise 1 |}]
    [Http.FetchRejects Http.AbortError] (Http.LixTimeoutError 5000)
    eq_refl eq_refl) as [_ H].
  destruct (H (with_microtasks [RunFlush] σ')) as (Hrejected & Hqueue & _).
  split; [|exact Hqueue].
  refine (proj1 (Hrejected 1%nat [] _ eq_refl)).
  vm_compute. apply list_elem_of_In. right. left. reflexivity.
Defined.

(** ** Results inside a successful exchange (C6) *)

Definition rejected (σ : State) (p : nat) : Prop :=
  ∃ error, promises σ !! p = Some (Settled (Rejected error)).

Definition deliver_payload (item : QItem) (value : option Value)
    : list (nat * Outcome) :=
  match value with
  | Some value => resolutions (resolve item) value
  | None => []
  end.

Lemma deliveries_payload queue results :
  zip_with deliver queue results
  = zip_with deliver_payload queue (payload <$> results).
Proof. by rewrite zip_with_fmap_r. Qed.

Lemma resolutions_fulfilled r value :
  Forall (λ s, ∃ v, s.2 = Fulfilled v) (resolutions r value).
Proof.
  induction r as [p|p|r1 IH1 r2 IH2]; simpl; eauto using Forall_app_2.
Qed.

Lemma deliveries_fulfilled queue results :
  Forall (λ s, ∃ v, s.2 = Fulfilled v) (mjoin (zip_with deliver queue results)).
Proof.
  revert results. induction queue as [|item queue IH]; intros [|result results];
    cbn [zip_with mjoin list_join]; try done.
  apply Forall_app_2; [|apply IH]. unfold deliver.
  destruct (payload result); [apply resolutions_fulfilled|done].
Qed.

Lemma first_outcome_Forall (P : Outcome → Prop) q l o :
  Forall (λ s, P s.2) l → first_outcome q l = Some o → P o.
Proof.
  induction 1 as [|[p o'] l HP _ IH]; [done|]. simpl.
  destruct (decide (p = q)); [by intros [= <-]|done].
Qed.

(** The claim C6 fails on the code: an entry whose result says
    [success: false] is fulfilled like any other. *)
Lemma store_failure_not_rejected_counterexample :
  let refused := {| r_op := "set"; r_key := "a"; r_value := VUndefined;
                    r_success := false |} in
  let stored := {| r_op := "set"; r_key := "b"; r_value := VUndefined;
                   r_success := true |} in
  let σ := run [Call (CallSet "a" (VNum 1) None);
                Call (CallSet "b" (VNum 2) None); Tick;
                Network 0 [Http.FetchResponse 200
                             {| body_results := Some [refused; stored];
                                body_items := None |} ""];
                Tick]
             (initial Http.default_config empty_cache) in
  promises σ !! 0%nat = Some (Settled (Fulfilled VUndefined))
  ∧ ¬ rejected σ 0.
Proof.
  intros refused stored σ.
  assert (promises σ !! 0%nat = Some (Settled (Fulfilled VUndefined))) as H
    by (vm_compute; reflexivity).
  split; [exact H|]. intros [error Herror]. congruence.
Qed.

(** C6, as amended.  When the exchange succeeds with a result list no
    longer than the batch, result [i] goes to the resolver of entry [i] and
    to no other: a [get] result fulfils it with the result's value, a [set]
    or [delete] result with [undefined], a result with any other tag
    leaves it as it is.  Nothing is rejected that was not already, and
    what a result says besides its tag and value (its [success] flag) is
    not read. *)
Theorem successful_exchange_rejects_nothing σ queue results items :
  (length results ≤ length queue)%nat →
  let σ' :=
    run_task (ResumeHttp (FlushAfterPost queue)
                (inl {| body_results := Some results; body_items := items |})) σ in
  σ' = settle_all (mjoin (zip_with deliver queue results)) σ
  ∧ (∀ p, rejected σ' p → rejected σ p)
  ∧ (∀ results',
       payload <$> results' = payload <$> results →
       run_task (ResumeHttp (FlushAfterPost queue)
                   (inl {| body_results := Some results'; body_items := items |})) σ
       = σ').
Proof.
  intros Hlen σ'. subst σ'. cbn [run_task resume_http].
  rewrite flush_settled_ok by done. split_and!.
  - done.
  - intros p [error Hp]. exists error. revert Hp.
    rewrite settle_all_lookup.
    destruct (promises σ !! p) as [[rs|o]|]; [|done..].
    destruct (first_outcome p _) as [o|] eqn:Hfirst; [|done].
    intros [= ->].
    by destruct (first_outcome_Forall (λ o, ∃ v, o = Fulfilled v) _ _ _
                   (deliveries_fulfilled queue results) Hfirst).
  - intros results' Hsame.
    rewrite flush_settled_ok.
    + by rewrite !deliveries_payload, Hsame.
    + by rewrite <- (length_fmap payload), Hsame, length_fmap.
Qed.

Lemma successful_exchange_rejects_nothing_witness :
  let queue := [{| operation := OpSet "a" (VNum 1) None;
                   resolve := ResolvePromise 0; reject := RejectPromise 0 |};
                {| operation := OpGet "b";
                   resolve := ResolveGet 1; reject := RejectPromise 1 |}] in
  let results := [{| r_op := "set"; r_key := "a"; r_value := VUndefined;
                     r_success := false |};
                  {| r_op := "get"; r_key := "b"; r_value := VNum 7;
                     r_success := false |}] in
  let σ := with_promises [Pending []; Pending []]
             (initial Http.default_config empty_cache) in
  run_task (ResumeHttp (FlushAfterPost queue)
              (inl {| body_results := Some results; body_items := None |})) σ
  = settle_all [(0%nat, Fulfilled VUndefined); (1%nat, Fulfilled (VNum 7))] σ.
Proof.
  intros queue results σ.
  refine (proj1 (successful_exchange_rejects_nothing σ queue results None _)).
  vm_compute. lia.
Defined.

(** ** Retries and the delivery of failures (C10) *)

(** Every exchange recorded so far called [fetch] once. *)
Definition attempted_once (σ : State) : Prop :=
  ∀ r effects, Fetched r effects ∈ observed σ → Http.attempts effects = 1%nat.

Definition network_down : JsError := TypeError "fetch failed".

(** The claim C10 fails on the code: with the default configuration one
    flush whose [fetch] keeps failing with a network error calls [fetch]
    four times, sleeping 100, 200 and 400 ms in between. *)
Lemma no_retry_counterexample :
  let σ := run [Call (CallGet "K"); Tick;
                Network 0 (replicate 4 (Http.FetchRejects network_down))]
             (initial Http.default_config empty_cache) in
  observed σ
  = [Sent (PostBatch [OpGet "K"]);
     Fetched (PostBatch [OpGet "K"])
       [Http.DidFetch 0; Http.DidSleep 100; Http.DidFetch 1; Http.DidSleep 200;
        Http.DidFetch 2; Http.DidSleep 400; Http.DidFetch 3]]
  ∧ ¬ attempted_once σ.
Proof.
  intros σ.
  assert (observed σ
    = [Sent (PostBatch [OpGet "K"]);
       Fetched (PostBatch [OpGet "K"])
         [Http.DidFetch 0; Http.DidSleep 100; Http.DidFetch 1; Http.DidSleep 200;
          Http.DidFetch 2; Http.DidSleep 400; Http.DidFetch 3]]) as H
    by (vm_compute; reflexivity).
  split; [exact H|]. intros Honce.
  specialize (Honce (PostBatch [OpGet "K"])
    [Http.DidFetch 0; Http.DidSleep 100; Http.DidFetch 1; Http.DidSleep 200;
     Http.DidFetch 2; Http.DidSleep 400; Http.DidFetch 3]).
  rewrite H in Honce. discriminate Honce. apply list_elem_of_In. right. by left.
Qed.

(** The tail of [flushBatch] settles promises and does nothing else: it
    sends nothing and leaves the log as it is. *)
Lemma fan_out_frame queue results index σ :
  requests (fan_out queue results index σ).1 = requests σ
  ∧ observed (fan_out queue results index σ).1 = observed σ.
Proof.
  revert index σ. induction results as [|result results IH]; intros index σ;
    [done|].
  rewrite fan_out_cons. destruct (payload result) as [value|]; [|apply IH].
  destruct (queue !! index) as [item|]; [|done].
  destruct (IH (S index) (call_resolve (resolve item) value σ)) as [-> ->].
  rewrite call_resolve_settle_all.
  by destruct (settle_all_frame (resolutions (resolve item) value) σ)
    as (_ & _ & _ & _ & -> & -> & _).
Qed.

Lemma flush_settled_frame queue r σ :
  requests (flush_settled queue r σ) = requests σ
  ∧ observed (flush_settled queue r σ) = observed σ.
Proof.
  assert (∀ error σ', requests (reject_all queue error σ') = requests σ'
                      ∧ observed (reject_all queue error σ') = observed σ')
    as Hreject.
  { intros error σ'.
    by destruct (reject_all_frame queue error σ') as (_ & _ & _ & _ & -> & -> & _). }
  unfold flush_settled. destruct r as [body|error]; [|apply Hreject].
  destruct (body_results body) as [results|]; [|apply Hreject].
  destruct (fan_out_frame queue results 0 σ) as [Hrequests Hobserved].
  destruct (fan_out queue results 0 σ) as [σ' [error|]]; simpl in *; [|done].
  destruct (Hreject error σ') as [-> ->]. done.
Qed.

(** C10, as amended.  [flushBatch] sends one request per flush of a queue
    that is not empty, and none for an empty one; what runs once the
    exchange is over sends nothing, so the batch is never sent again.
    Once the URL is built, the transport below calls [fetch] at least
    once and at most [maxRetries + 1] times for that request, and only
    once unless the first call failed with a network error that was not an
    abort; when [new URL] refuses the base URL nothing is fetched and the
    exchange ends with that [TypeError].  Either way the exchange is over
    for good, and whatever error it ends with reaches, as a rejection,
    every pending completion handle of the batch and every listener
    attached to one. *)
Theorem flush_sends_once_transport_retries :
  (∀ σ, batchQueue σ ≠ [] →
     observed (flushBatch σ)
     = observed σ ++ [Sent (PostBatch (operation <$> batchQueue σ))]
     ∧ requests (flushBatch σ)
       = requests σ ++ [(PostBatch (operation <$> batchQueue σ),
                         FlushAfterPost (batchQueue σ))])
  ∧ (∀ σ, batchQueue σ = [] →
       observed (flushBatch σ) = observed σ
       ∧ requests (flushBatch σ) = requests σ)
  ∧ (∀ σ queue r,
       let σ' := run_task (ResumeHttp (FlushAfterPost queue) r) σ in
       observed σ' = observed σ ∧ requests σ' = requests σ)
  ∧ (∀ σ i r f fetches, requests σ !! i = Some (r, f) →
       let '(result, effects) := Http.send (http σ) r fetches in
       observed (step (Network i fetches) σ) = observed σ ++ [Fetched r effects]
       ∧ microtasks (step (Network i fetches) σ)
         = microtasks σ ++ [ResumeHttp f result]
       ∧ requests (step (Network i fetches) σ) = delete i (requests σ)
       ∧ (1 ≤ Http.attempts effects ≤ S (Http.maxRetries (http σ)))%nat)
  ∧ (∀ σ i r f message, requests σ !! i = Some (r, f) →
       observed (step (Refuse i message) σ) = observed σ ++ [Fetched r []]
       ∧ microtasks (step (Refuse i message) σ)
         = microtasks σ ++ [ResumeHttp f (inr (TypeError message))]
       ∧ requests (step (Refuse i message) σ) = delete i (requests σ))
  ∧ (∀ config r f rest,
       match caught (Http.path_of r) f with
       | Some error => retries config 0 error = false
       | None => True
       end →
       Http.attempts (Http.send config r (f :: rest)).2 = 1%nat)
  ∧ (∀ σ queue error p rs,
       p ∈ queue ≫= handles →
       promises σ !! p = Some (Pending rs) →
       let σ' := run_task (ResumeHttp (FlushAfterPost queue) (inr error)) σ in
       promises σ' !! p = Some (Settled (Rejected error))
       ∧ ∀ f, f ∈ rs → Resume f (Rejected error) ∈ microtasks σ').
Proof.
  split_and!.
  - intros σ Hq. by rewrite flushBatch_sends.
  - intros σ Hq. unfold flushBatch. cbn [batchQueue with_batchScheduled].
    by rewrite Hq.
  - intros σ queue r σ'. subst σ'. cbn [run_task resume_http].
    by destruct (flush_settled_frame queue r σ) as [-> ->].
  - intros σ i r f fetches Hr.
    pose proof (request_attempts (http σ) (Http.path_of r) fetches 0) as Hn.
    cbn [step]. rewrite (complete_spec _ _ _ _ _ Hr).
    unfold Http.send in *. destruct (Http.request _ _ _ _) as [result effects].
    simpl in *. split_and!; [done..|lia|lia].
  - intros σ i r f message Hr. cbn [step]. unfold refuse. by rewrite Hr.
  - intros config r f rest Hf. unfold Http.send.
    by rewrite request_once.
  - intros σ queue error p rs Hp Hpending.
    by apply (reject_all_spec queue error σ).
Qed.

Lemma flush_sends_once_transport_retries_witness :
  let σ := run [Call (CallGet "K"); Tick]
             (initial Http.default_config empty_cache) in
  let fetches := [Http.FetchRejects network_down;
                  Http.FetchResponse 200
                    {| body_results := Some []; body_items := None |} ""] in
  (1 ≤ Http.attempts (Http.send Http.default_config (PostBatch [OpGet "K"]) fetches).2
   ≤ 4)%nat.
Proof.
  intros σ fetches.
  destruct flush_sends_once_transport_retries as (_ & _ & _ & H & _).
  specialize (H σ 0%nat (PostBatch [OpGet "K"])
    (FlushAfterPost [{| operation := OpGet "K"; resolve := ResolveGet 0;
                        reject := RejectPromise 0 |}]) fetches eq_refl).
  exact (proj2 (proj2 (proj2 H))).
Defined.

(** ** One unit of work, one batch (C3, C4) *)

Definition is_get_op (key : string) (o : BatchOperation) : bool :=
  match o with OpGet k => String.eqb k key | _ => false end.

(** The operation a plain call asks for. *)
Definition requested (c : ApiCall) : list BatchOperation :=
  match c with
  | CallSet key value options => [OpSet key value (optional_ttl options)]
  | CallGet key => [OpGet key]
  | CallDelete key => [OpDelete key]
  | _ => []
  end.

Definition plain (c : ApiCall) : Prop :=
  match c with
  | CallSet _ _ _ | CallGet _ | CallDelete _ => True
  | _ => False
  end.

(** The specification's read collapser, in its words: before a read for a
    key is enqueued, the operations not yet flushed are scanned for a read
    of that key; when there is one, no second operation is enqueued.
    Writes and removes are always enqueued. *)
Definition collapse_step (queued : list BatchOperation) (o : BatchOperation)
    : list BatchOperation :=
  match o with
  | OpGet key => if existsb (is_get_op key) queued then queued else queued ++ [o]
  | _ => queued ++ [o]
  end.

Definition collapse (operations : list BatchOperation) : list BatchOperation :=
  foldl collapse_step [] operations.

(** Both closures of a queue entry reach the same promises. *)
Definition item_ok (item : QItem) : Prop :=
  ∀ value, (resolutions (resolve item) value).*1 = handles item.

(** What holds after the calls [cs], made one after the other from [σ0]
    with no microtask in between. *)
Record after_calls (σ0 : State) (cs : list ApiCall) (σ : State) : Prop := {
  ac_promises :
    promises σ = promises σ0 ++ replicate (length cs) (Pending []);
  ac_operations :
    operation <$> batchQueue σ = collapse (cs ≫= requested);
  ac_nodup : NoDup (batchQueue σ ≫= handles);
  ac_range : ∀ p, p ∈ batchQueue σ ≫= handles →
    (length (promises σ0) ≤ p < length (promises σ0) + length cs)%nat;
  ac_items : Forall item_ok (batchQueue σ);
  ac_callers : ∀ j c, cs !! j = Some c →
    ∃ i item, batchQueue σ !! i = Some item
      ∧ [operation item] = requested c
      ∧ (length (promises σ0) + j)%nat ∈ handles item;
  ac_scheduled : batchScheduled σ = bool_decide (cs ≠ []);
  ac_microtasks : microtasks σ = if bool_decide (cs ≠ []) then [RunFlush] else [];
  ac_requests : requests σ = requests σ0;
  ac_observed : observed σ = observed σ0;
  ac_server : server σ = server σ0;
  ac_http : http σ = http σ0
}.

Section unit_of_work.

Implicit Types (σ : State) (cs : list ApiCall) (queue : list QItem).

Lemma run_app events1 events2 σ :
  run (events1 ++ events2) σ = run events2 (run events1 σ).
Proof. apply foldl_app. Qed.

Lemma run_cons e events σ : run (e :: events) σ = run events (step e σ).
Proof. reflexivity. Qed.

Lemma run_nil σ : run [] σ = σ.
Proof. reflexivity. Qed.

Lemma scheduleBatch_fields σ :
  batchQueue (scheduleBatch σ) = batchQueue σ
  ∧ promises (scheduleBatch σ) = promises σ
  ∧ batchScheduled (scheduleBatch σ) = true
  ∧ microtasks (scheduleBatch σ)
    = (if batchScheduled σ then microtasks σ else microtasks σ ++ [RunFlush])
  ∧ requests (scheduleBatch σ) = requests σ
  ∧ observed (scheduleBatch σ) = observed σ
  ∧ server (scheduleBatch σ) = server σ
  ∧ http (scheduleBatch σ) = http σ
  ∧ rememberPromises (scheduleBatch σ) = rememberPromises σ
  ∧ rememberAllPromises (scheduleBatch σ) = rememberAllPromises σ.
Proof. unfold scheduleBatch. by destruct (batchScheduled σ) eqn:E. Qed.

Lemma is_get_of_op key item : is_get_of key item = is_get_op key (operation item).
Proof. reflexivity. Qed.

Lemma list_find_get_None key queue :
  list_find (λ item, is_get_of key item = true) queue = None
  ↔ existsb (is_get_op key) (operation <$> queue) = false.
Proof.
  rewrite list_find_None. induction queue as [|item queue IH]; simpl.
  - split; [done|constructor].
  - rewrite Forall_cons, orb_false_iff, IH, is_get_of_op.
    by destruct (is_get_op key (operation item)); intuition.
Qed.

Lemma list_find_get_Some key queue i existing :
  list_find (λ item, is_get_of key item = true) queue = Some (i, existing) →
  queue !! i = Some existing
  ∧ operation existing = OpGet key
  ∧ existsb (is_get_op key) (operation <$> queue) = true.
Proof.
  intros (Hi & Hget & _)%list_find_Some. split; [done|].
  rewrite is_get_of_op in Hget. split.
  - destruct (operation existing); try done. simpl in Hget.
    by apply String.eqb_eq in Hget as ->.
  - apply existsb_exists. exists (operation existing). split; [|done].
    apply list_elem_of_In, list_elem_of_fmap. exists existing. split; [done|].
    by eapply list_elem_of_lookup_2.
Qed.

Lemma collapse_snoc operations o :
  collapse (operations ++ [o]) = collapse_step (collapse operations) o.
Proof. unfold collapse. by rewrite foldl_app. Qed.

Lemma bind_insert_handles queue i existing item :
  queue !! i = Some existing →
  (<[i := item]> queue) ≫= handles
  = (take i queue ≫= handles) ++ handles item ++ (drop (S i) queue ≫= handles).
Proof.
  intros Hi. rewrite insert_take_drop by (by eapply lookup_lt_Some).
  by rewrite bind_app, bind_cons.
Qed.

Lemma bind_lookup_handles queue i existing :
  queue !! i = Some existing →
  queue ≫= handles
  = (take i queue ≫= handles) ++ handles existing ++ (drop (S i) queue ≫= handles).
Proof.
  intros Hi. rewrite <- (take_drop_middle queue i existing) at 1 by done.
  by rewrite bind_app, bind_cons.
Qed.

End unit_of_work.
Lemma after_calls_nil σ :
  batchQueue σ = [] → batchScheduled σ = false → microtasks σ = [] →
  after_calls σ [] σ.
Proof.
  intros Hq Hs Hm. split; rewrite ?Hq; simpl; try done.
  - by rewrite app_nil_r.
  - constructor.
  - by intros p ?%elem_of_nil.
Qed.

Lemma replicate_snoc_length {A B} (l : list A) (x : A) (y : B) :
  replicate (length (l ++ [x])) y = replicate (length l) y ++ [y].
Proof. by rewrite length_app, replicate_add. Qed.

Lemma enqueue_new_fields item σ :
  let σ' := enqueue item (new_promise σ).1 in
  batchQueue σ' = batchQueue σ ++ [item]
  ∧ promises σ' = promises σ ++ [Pending []]
  ∧ batchScheduled σ' = true
  ∧ microtasks σ'
    = (if batchScheduled σ then microtasks σ else microtasks σ ++ [RunFlush])
  ∧ requests σ' = requests σ
  ∧ observed σ' = observed σ
  ∧ server σ' = server σ
  ∧ http σ' = http σ
  ∧ rememberPromises σ' = rememberPromises σ
  ∧ rememberAllPromises σ' = rememberAllPromises σ.
Proof.
  intros σ'. subst σ'. unfold enqueue.
  destruct (scheduleBatch_fields
    (with_batchQueue (batchQueue (new_promise σ).1 ++ [item]) (new_promise σ).1))
    as (-> & -> & -> & -> & -> & -> & -> & -> & -> & ->).
  done.
Qed.

Lemma handles_single o resolver p :
  handles {| operation := o; resolve := resolver; reject := RejectPromise p |} = [p].
Proof. reflexivity. Qed.

Lemma after_calls_enqueue σ0 cs σ c o resolver :
  after_calls σ0 cs σ →
  requested c = [o] →
  (∀ k, o ≠ OpGet k) ∨ existsb (is_get_op (op_key o)) (operation <$> batchQueue σ) = false →
  (∀ value, (resolutions resolver value).*1 = [length (promises σ)]) →
  after_calls σ0 (cs ++ [c])
    (enqueue {| operation := o; resolve := resolver;
                reject := RejectPromise (length (promises σ)) |}
       (new_promise σ).1).
Proof.
  intros [] Hc Ho Hres.
  set (item := {| operation := o |}).
  destruct (enqueue_new_fields item σ) as (Eq & Ep & Es & Em & Er & Eo & Ev & Eh & _).
  assert (length (promises σ) = (length (promises σ0) + length cs)%nat) as Hlen.
  { by rewrite ac_promises0, length_app, length_replicate. }
  assert (cs ++ [c] ≠ []) as Hne by (by destruct cs).
  assert (handles item = [length (promises σ)]) as Hh by done.
  split; rewrite ?Eq, ?Ep, ?Es, ?Em, ?Er, ?Eo, ?Ev, ?Eh, ?bind_app,
    ?bind_singleton, ?length_app, ?Hh; try done.
  - by rewrite ac_promises0, replicate_add, app_assoc.
  - rewrite fmap_app, ac_operations0, Hc, collapse_snoc. simpl.
    destruct Ho as [Ho|Ho].
    + destruct o; try done. by destruct (Ho key).
    + destruct o; try done. simpl in Ho. rewrite ac_operations0 in Ho.
      unfold collapse_step. by rewrite Ho.
  - apply NoDup_app. split_and!; [done| |apply NoDup_singleton].
    intros p Hp%ac_range0. rewrite list_elem_of_singleton. lia.
  - intros p [Hp%ac_range0|Hp%list_elem_of_singleton]%elem_of_app; simpl; lia.
  - apply Forall_app. split; [done|]. apply Forall_singleton. intros value.
    by rewrite Hres.
  - intros j c' Hj. apply lookup_snoc_Some in Hj as [[Hlt Hj]|[-> ->]].
    + destruct (ac_callers0 j c' Hj) as (i & item' & Hi & Hop & Hin).
      exists i, item'. split_and!; [|done..]. by apply lookup_app_l_Some.
    + exists (length (batchQueue σ)), item. split_and!.
      * by apply list_lookup_middle.
      * by rewrite Hc.
      * rewrite Hh. apply list_elem_of_singleton. lia.
  - symmetry. by apply bool_decide_eq_true.
  - rewrite ac_scheduled0, ac_microtasks0, (bool_decide_eq_true_2 _ Hne).
    by destruct (bool_decide (cs ≠ [])).
Qed.

Lemma after_calls_collapse σ0 cs σ key i existing :
  after_calls σ0 cs σ →
  batchQueue σ !! i = Some existing →
  operation existing = OpGet key →
  existsb (is_get_op key) (operation <$> batchQueue σ) = true →
  after_calls σ0 (cs ++ [CallGet key])
    (with_batchQueue
       (<[i := {| operation := operation existing;
                  resolve := ResolveBoth (resolve existing)
                               (ResolvePromise (length (promises σ)));
                  reject := RejectBoth (reject existing)
                              (RejectPromise (length (promises σ))) |}]>
          (batchQueue σ))
       (new_promise σ).1).
Proof.
  intros [] Hi Hop Hex.
  set (p := length (promises σ)).
  set (item := {| operation := operation existing |}).
  assert (p = (length (promises σ0) + length cs)%nat) as Hlen.
  { unfold p. by rewrite ac_promises0, length_app, length_replicate. }
  assert (cs ≠ []) as Hcs.
  { intros ->. apply (f_equal length) in ac_operations0.
    rewrite length_fmap in ac_operations0. apply lookup_lt_Some in Hi.
    simpl in ac_operations0. lia. }
  assert (cs ++ [CallGet key] ≠ []) as Hne by (by destruct cs).
  assert (handles item = handles existing ++ [p]) as Hh.
  { unfold handles, item. simpl. by rewrite fmap_app. }
  assert (p ∉ batchQueue σ ≫= handles) as Hfresh.
  { intros Hp%ac_range0. lia. }
  assert ((<[i := item]> (batchQueue σ)) ≫= handles
          ≡ₚ p :: batchQueue σ ≫= handles) as Hperm.
  { rewrite (bind_insert_handles _ _ _ _ Hi), (bind_lookup_handles _ _ _ Hi), Hh.
    rewrite <- !app_assoc. cbn [app]. rewrite !app_assoc.
    symmetry. apply Permutation_middle. }
  split; simpl.
  - by rewrite ac_promises0, length_app, replicate_add, app_assoc.
  - rewrite list_fmap_insert. simpl.
    rewrite list_insert_id by (by rewrite list_lookup_fmap, Hi).
    rewrite bind_app, bind_singleton. simpl. rewrite collapse_snoc.
    unfold collapse_step. by rewrite <- ac_operations0, Hex.
  - rewrite Hperm. by apply NoDup_cons.
  - intros q. rewrite Hperm, length_app. simpl.
    intros [->|Hq%ac_range0]%elem_of_cons; lia.
  - apply Forall_insert; [done|]. intros value. simpl. rewrite fmap_app, Hh.
    f_equal. by eapply (Forall_lookup_1 _ _ _ _ ac_items0).
  - intros j c' Hj. apply lookup_snoc_Some in Hj as [[Hlt Hj]|[-> <-]].
    + destruct (ac_callers0 j c' Hj) as (i' & item' & Hi' & Hop' & Hin).
      destruct (decide (i' = i)) as [->|Hii].
      * exists i, item. rewrite Hi in Hi'. injection Hi' as <-. split_and!; [|done|].
        -- apply list_lookup_insert_eq. by eapply lookup_lt_Some.
        -- rewrite Hh. apply elem_of_app. by left.
      * exists i', item'. split_and!; [|done..]. by rewrite list_lookup_insert_ne.
    + exists i, item. split_and!.
      * apply list_lookup_insert_eq. by eapply lookup_lt_Some.
      * simpl. by rewrite Hop.
      * rewrite Hh, <- Hlen. apply elem_of_app. right. by apply list_elem_of_singleton.
  - by rewrite ac_scheduled0, !bool_decide_eq_true_2.
  - by rewrite ac_microtasks0, !bool_decide_eq_true_2.
  - done.
  - done.
  - done.
  - done.
Qed.

Lemma after_calls_snoc σ0 cs σ c :
  after_calls σ0 cs σ → plain c →
  after_calls σ0 (cs ++ [c]) (step (Call c) σ).
Proof.
  intros Hac Hplain. destruct c as [key value options|key|key| | |]; try done;
    cbn [step call].
  - unfold lix_set. cbn [fst].
    apply (after_calls_enqueue _ _ _ (CallSet key value options)); auto.
  - unfold lix_get.
    destruct (list_find _ _) as [[i existing]|] eqn:Hfind.
    + apply list_find_get_Some in Hfind as (Hi & Hop & Hex).
      exact (after_calls_collapse _ _ _ _ _ _ Hac Hi Hop Hex).
    + apply list_find_get_None in Hfind.
      refine (after_calls_enqueue _ _ _ (CallGet key) _ _ Hac _ _ _); auto.
  - unfold lix_delete. cbn [fst].
    apply (after_calls_enqueue _ _ _ (CallDelete key)); auto.
Qed.

Lemma after_calls_run σ0 cs :
  batchQueue σ0 = [] → batchScheduled σ0 = false → microtasks σ0 = [] →
  Forall plain cs →
  after_calls σ0 cs (run (Call <$> cs) σ0).
Proof.
  intros Hq Hs Hm. induction cs as [|c cs IH] using rev_ind; intros Hplain.
  - by apply after_calls_nil.
  - apply Forall_app in Hplain as [Hcs Hc]. apply Forall_inv in Hc.
    rewrite fmap_app, run_app. apply after_calls_snoc; [by apply IH|done].
Qed.

(** The keys read by a list of operations, in order. *)
Definition read_keys (operations : list BatchOperation) : list string :=
  omap (λ o, match o with OpGet key => Some key | _ => None end) operations.

Lemma existsb_is_get_op key operations :
  existsb (is_get_op key) operations = true ↔ key ∈ read_keys operations.
Proof.
  unfold read_keys. rewrite existsb_exists, list_elem_of_omap. split.
  - intros (o & Ho%list_elem_of_In & Hget). exists o. split; [done|].
    destruct o; try done. simpl in Hget. by apply String.eqb_eq in Hget as ->.
  - intros (o & Ho%list_elem_of_In & Hget). exists o. split; [done|].
    destruct o; try done. injection Hget as ->. apply String.eqb_refl.
Qed.

Lemma collapse_distinct operations :
  NoDup (read_keys operations) → collapse operations = operations.
Proof.
  induction operations as [|o operations IH] using rev_ind; [done|].
  unfold read_keys. rewrite omap_app, collapse_snoc. intros Hnodup.
  apply NoDup_app in Hnodup as (Hops & Hnew & _). rewrite IH by done.
  destruct o as [key| |]; try done. unfold collapse_step.
  destruct (existsb (is_get_op key) operations) eqn:Hex; [|done].
  apply existsb_is_get_op in Hex. destruct (Hnew key Hex).
  simpl. by left.
Qed.

Lemma collapse_sublist operations : collapse operations `sublist_of` operations.
Proof.
  induction operations as [|o operations IH] using rev_ind; [done|].
  rewrite collapse_snoc. unfold collapse_step.
  destruct o as [key| |]; try by apply sublist_app.
  destruct (existsb _ _); [|by apply sublist_app].
  rewrite <- (app_nil_r (collapse operations)). by apply sublist_app, sublist_nil_l.
Qed.

Lemma requested_nonempty cs :
  Forall plain cs → cs ≠ [] → collapse (cs ≫= requested) ≠ [].
Proof.
  destruct cs as [|c cs _] using rev_ind; [done|].
  intros [_ Hc%Forall_inv]%Forall_app _.
  rewrite bind_app, bind_singleton.
  destruct c as [key value options|key|key| | |]; try done; simpl;
    rewrite collapse_snoc; unfold collapse_step; try by destruct (collapse _).
  destruct (existsb _ _) eqn:Hex; [|by destruct (collapse _)].
  intros Hnil. by rewrite Hnil in Hex.
Qed.

(** C3.  Take a cycle that starts with an empty queue and no microtask
    pending, and any plain calls ([set], [get], [delete]) made in it before
    the next microtask.  The queue then holds, in the order of the calls,
    the operations the calls asked for, a read being left out exactly when
    a read of its key is already queued ([collapse]); nothing is reordered,
    and when no two reads share a key the list is the calls' own.  One
    flush is scheduled; when it runs it sends one request carrying that
    list and empties the queue.  When the response comes back, result [i]
    is handed to the resolver of entry [i]. *)
Theorem batch_keeps_enqueue_order σ cs :
  batchQueue σ = [] → batchScheduled σ = false → microtasks σ = [] →
  Forall plain cs → cs ≠ [] →
  let σ1 := run (Call <$> cs) σ in
  let σ2 := step Tick σ1 in
  let sent := operation <$> batchQueue σ1 in
  sent = collapse (cs ≫= requested)
  ∧ sent `sublist_of` cs ≫= requested
  ∧ (NoDup (read_keys (cs ≫= requested)) → sent = cs ≫= requested)
  ∧ microtasks σ1 = [RunFlush]
  ∧ observed σ2 = observed σ ++ [Sent (PostBatch sent)]
  ∧ requests σ2
    = requests σ ++ [(PostBatch sent, FlushAfterPost (batchQueue σ1))]
  ∧ batchQueue σ2 = []
  ∧ ∀ σ' results items,
      (length results ≤ length sent)%nat →
      run_task (ResumeHttp (FlushAfterPost (batchQueue σ1))
                  (inl {| body_results := Some results; body_items := items |})) σ'
      = settle_all (mjoin (zip_with deliver (batchQueue σ1) results)) σ'.
Proof.
  intros Hq Hs Hm Hplain Hcs σ1 σ2 sent.
  destruct (after_calls_run σ cs Hq Hs Hm Hplain). fold σ1 in ac_promises0,
    ac_operations0, ac_nodup0, ac_range0, ac_items0, ac_callers0, ac_scheduled0,
    ac_microtasks0, ac_requests0, ac_observed0, ac_server0, ac_http0.
  assert (batchQueue σ1 ≠ []) as Hne.
  { intros Hnil. apply (requested_nonempty cs Hplain Hcs).
    by rewrite <- ac_operations0, Hnil. }
  assert (σ2 = flushBatch (with_microtasks [] σ1)) as ->.
  { unfold σ2. cbn [step]. by rewrite ac_microtasks0, bool_decide_eq_true_2. }
  rewrite flushBatch_sends by done. unfold sent. simpl.
  split_and!.
  - done.
  - rewrite ac_operations0. apply collapse_sublist.
  - intros Hnodup. by rewrite ac_operations0, collapse_distinct.
  - by rewrite ac_microtasks0, bool_decide_eq_true_2.
  - by rewrite ac_observed0.
  - by rewrite ac_requests0.
  - done.
  - intros σ' results items Hlen. cbn [run_task resume_http].
    apply (flush_settled_ok _ _ items). by rewrite length_fmap in Hlen.
Qed.

(** An operation the server's clauses accept. *)
Definition sendable (o : BatchOperation) : Prop :=
  match o with
  | OpSet _ value _ => is_Some (Server.json_property value)
  | _ => True
  end.

Lemma JSON_value_writes v : JSON_writes v = true → JSON_writes (JSON_value v) = true.
Proof. by destruct v. Qed.

Lemma json_property_writes v :
  Server.json_property v = Some v ↔ JSON_writes v = true.
Proof. by destruct v. Qed.

Lemma json_property_JSON_value v :
  JSON_writes v = true →
  Server.json_property (JSON_value v) = Some (JSON_value v).
Proof. by destruct v. Qed.

Lemma wire_operation_set key value ttl :
  JSON_writes value = true →
  Http.wire_operation (OpSet key value ttl) = OpSet key (JSON_value value) ttl.
Proof. simpl. by intros ->. Qed.

Lemma wire_sendable o : sendable o → sendable (Http.wire_operation o).
Proof.
  destruct o as [key|key value t|key]; simpl; try done.
  destruct value; simpl; intros [v Hv]; try done; by eexists.
Qed.

(** An operation that writes plain data, if it writes. *)
Definition plain_operation (o : BatchOperation) : Prop :=
  match o with
  | OpSet _ value _ => plain_data value = true
  | _ => True
  end.

(** The cache hands out no [undefined]. *)
Definition defined_cache (c : Server.Cachex) : Prop :=
  ∀ key, Server.Cachex_get c key ≠ VUndefined.

Lemma batch_app operations1 operations2 c :
  Server.batch (operations1 ++ operations2) c
  = match Server.batch operations1 c with
    | (c, Some results1) =>
        let '(c, results2) := Server.batch operations2 c in
        (c, (results1 ++.) <$> results2)
    | (c, None) => (c, None)
    end.
Proof.
  revert c. induction operations1 as [|o operations1 IH]; intros c; simpl.
  - destruct (Server.batch operations2 c) as [c' [results|]]; by simpl.
  - destruct (Server.batch_clause o c) as [[c' result]|]; [|done].
    rewrite IH. destruct (Server.batch operations1 c') as [c'' [results1|]]; [|done].
    simpl. destruct (Server.batch operations2 c'') as [c3 [results2|]]; by simpl.
Qed.

Lemma batch_sendable operations c :
  Forall sendable operations →
  ∃ results, (Server.batch operations c).2 = Some results
    ∧ length results = length operations
    ∧ ∀ i o, operations !! i = Some o →
        ∃ result, results !! i = Some result
          ∧ payload result
            = Some match o with
                   | OpGet key =>
                       Server.Cachex_get (Server.batch (take i operations) c).1 key
                   | _ => VUndefined
                   end.
Proof.
  intros H. revert c. induction H as [|o operations Ho _ IH]; intros c.
  - exists []. by split_and!.
  - simpl. destruct (Server.batch_clause o c) as [[c' result]|] eqn:Hclause.
    + destruct (IH c') as (results & Hres & Hlen & Hpay).
      destruct (Server.batch operations c') as [c'' results'] eqn:Hbatch.
      simpl in Hres. subst results'. exists (result :: results).
      split_and!; [done|by simpl; rewrite Hlen|].
      intros [|i] o' Hi; simpl in Hi.
      * injection Hi as <-. exists result. split; [done|].
        destruct o as [key|key value t|key]; simpl in Hclause.
        -- by injection Hclause as <- <-.
        -- destruct (Server.json_property value); [|done].
           by injection Hclause as <- <-.
        -- by injection Hclause as <- <-.
      * destruct (Hpay i o' Hi) as (result' & Hr & Hp). exists result'.
        split; [done|]. simpl. rewrite Hclause.
        by destruct (Server.batch (take i operations) c').
    + destruct o as [key|key value t|key]; simpl in Hclause; try done.
      destruct Ho as [v Hv]. by rewrite Hv in Hclause.
Qed.

Lemma batch_clause_defined o c c' result :
  defined_cache c → Server.batch_clause o c = Some (c', result) → defined_cache c'.
Proof.
  intros Hc. destruct o as [key|key value t|key]; simpl.
  - by intros [= <- _].
  - destruct (Server.json_property value) as [v|] eqn:Hv; [|done].
    intros [= <- _] key'. unfold Server.Cachex_get, Server.Cachex_put. simpl.
    destruct (decide (key = key')) as [->|Hne].
    + rewrite lookup_insert_eq. simpl.
      destruct (Server.fresh _ _); [|done].
      destruct value; try done; by injection Hv as <-.
    + rewrite lookup_insert_ne by done. apply Hc.
  - intros [= <- _] key'. unfold Server.Cachex_get, Server.Cachex_del. simpl.
    destruct (decide (key = key')) as [->|Hne].
    + by rewrite lookup_delete_eq.
    + rewrite lookup_delete_ne by done. apply Hc.
Qed.

Lemma batch_defined operations c :
  defined_cache c → defined_cache (Server.batch operations c).1.
Proof.
  revert c. induction operations as [|o operations IH]; intros c Hc; [done|].
  simpl. destruct (Server.batch_clause o c) as [[c' result]|] eqn:Hclause; [|done].
  specialize (IH c' (batch_clause_defined _ _ _ _ Hc Hclause)).
  by destruct (Server.batch operations c').
Qed.

(** Operations that neither set nor delete [key] leave what the cache
    holds for it. *)
Definition writes (key : string) (o : BatchOperation) : Prop :=
  match o with
  | OpSet k _ _ | OpDelete k => k = key
  | OpGet _ => False
  end.

Lemma wire_writes key o : writes key (Http.wire_operation o) ↔ writes key o.
Proof. by destruct o. Qed.

Lemma batch_untouched key operations c :
  Forall (λ o, ¬ writes key o) operations →
  Server.Cachex_get (Server.batch operations c).1 key = Server.Cachex_get c key.
Proof.
  intros H. revert c. induction H as [|o operations Ho _ IH]; intros c; [done|].
  simpl. destruct (Server.batch_clause o c) as [[c' result]|] eqn:Hclause; [|done].
  specialize (IH c'). destruct (Server.batch operations c') as [c'' results].
  simpl in *. rewrite IH. clear IH.
  destruct o as [k|k value t|k]; simpl in *.
  - by injection Hclause as <- _.
  - destruct (Server.json_property value); [|done]. injection Hclause as <- _.
    unfold Server.Cachex_get, Server.Cachex_put. simpl.
    by rewrite lookup_insert_ne.
  - injection Hclause as <- _. unfold Server.Cachex_get, Server.Cachex_del.
    simpl. by rewrite lookup_delete_ne.
Qed.

Lemma first_outcome_resolutions r value p :
  value ≠ VUndefined →
  p ∈ (resolutions r value).*1 →
  first_outcome p (resolutions r value) = Some (Fulfilled value).
Proof.
  intros Hv. induction r as [q|q|r1 IH1 r2 IH2]; simpl.
  - intros ->%list_elem_of_singleton. by rewrite decide_True.
  - intros ->%list_elem_of_singleton. rewrite decide_True by done.
    by destruct value.
  - rewrite fmap_app, first_outcome_app. intros [H1|H2]%elem_of_app.
    + by rewrite IH1.
    + destruct (decide (p ∈ (resolutions r1 value).*1)) as [Hin|Hout].
      * by rewrite IH1.
      * rewrite first_outcome_None by done. auto.
Qed.

Lemma deliver_ids item result :
  item_ok item → (deliver item result).*1 ⊆ handles item.
Proof.
  intros Hok. unfold deliver. destruct (payload result) as [value|].
  - by rewrite Hok.
  - apply list_subseteq_nil.
Qed.

(** A promise reached from entry [i] alone gets what result [i] carries. *)
Lemma first_outcome_deliveries queue results i item result p value :
  NoDup (queue ≫= handles) →
  Forall item_ok queue →
  queue !! i = Some item →
  results !! i = Some result →
  payload result = Some value →
  value ≠ VUndefined →
  p ∈ handles item →
  first_outcome p (mjoin (zip_with deliver queue results)) = Some (Fulfilled value).
Proof.
  intros Hnodup Hok Hi Hr Hpay Hv Hp.
  revert results i Hi Hr. induction queue as [|item0 queue IH];
    intros results i Hi Hr; [done|].
  destruct results as [|result0 results]; [done|].
  rewrite bind_cons in Hnodup. apply NoDup_app in Hnodup as (_ & Hdisj & Hnodup).
  apply Forall_cons in Hok as [Hok0 Hok].
  cbn [zip_with mjoin list_join]. rewrite first_outcome_app.
  destruct i as [|i]; simpl in Hi, Hr.
  - injection Hi as ->. injection Hr as ->. unfold deliver. rewrite Hpay.
    rewrite first_outcome_resolutions; [done..|]. by rewrite Hok0.
  - rewrite first_outcome_None; [by eapply IH|].
    intros Hin%(deliver_ids _ _ Hok0). apply (Hdisj p Hin).
    apply list_elem_of_bind. exists item. split; [done|].
    by eapply list_elem_of_lookup_2.
Qed.

Lemma read_keys_app operations1 operations2 :
  read_keys (operations1 ++ operations2)
  = read_keys operations1 ++ read_keys operations2.
Proof. apply omap_app. Qed.

Lemma collapse_reads_once operations : NoDup (read_keys (collapse operations)).
Proof.
  induction operations as [|o operations IH] using rev_ind; [constructor|].
  rewrite collapse_snoc. unfold collapse_step.
  destruct o as [key|key value t|key]; rewrite ?read_keys_app; simpl;
    rewrite ?app_nil_r; try done.
  destruct (existsb _ _) eqn:Hex; [done|].
  rewrite read_keys_app. simpl. apply NoDup_app. split_and!; [done| |apply NoDup_singleton].
  intros k Hk ->%list_elem_of_singleton.
  apply existsb_is_get_op in Hk. congruence.
Qed.

Lemma read_once operations i j key :
  NoDup (read_keys operations) →
  operations !! i = Some (OpGet key) →
  operations !! j = Some (OpGet key) →
  i = j.
Proof.
  revert i j. induction operations as [|o operations IH]; intros i j Hnodup Hi Hj;
    [done|].
  assert (∀ n, operations !! n = Some (OpGet key) → key ∈ read_keys operations)
    as Hmem.
  { intros n Hn. apply existsb_is_get_op, existsb_exists.
    exists (OpGet key). split; [|apply String.eqb_refl].
    by eapply list_elem_of_In, list_elem_of_lookup_2. }
  assert (NoDup (read_keys operations)) as Hrest.
  { destruct o; try done. by apply NoDup_cons in Hnodup as [_ ?]. }
  destruct i as [|i], j as [|j]; simpl in Hi, Hj; try done.
  - injection Hi as ->. apply NoDup_cons in Hnodup as [Hnotin _].
    destruct (Hnotin (Hmem j Hj)).
  - injection Hj as ->. apply NoDup_cons in Hnodup as [Hnotin _].
    destruct (Hnotin (Hmem i Hi)).
  - f_equal. by apply IH.
Qed.

Lemma read_none operations key :
  key ∉ read_keys operations →
  filter (λ o, is_get_op key o = true) operations = [].
Proof.
  induction operations as [|o operations IH]; [done|]. intros Hnotin.
  rewrite filter_cons. destruct o as [k|k value t|k]; simpl in *; auto.
  apply not_elem_of_cons in Hnotin as [Hne Hnotin].
  rewrite decide_False; [auto|]. by intros ->%String.eqb_eq.
Qed.

Lemma read_count operations key :
  NoDup (read_keys operations) →
  key ∈ read_keys operations →
  length (filter (λ o, is_get_op key o = true) operations) = 1%nat.
Proof.
  induction operations as [|o operations IH]; intros Hnodup Hin;
    [by apply elem_of_nil in Hin|].
  rewrite filter_cons. destruct o as [k|k value t|k]; simpl in *; try by apply IH.
  apply NoDup_cons in Hnodup as [Hnotin Hnodup].
  destruct (String.eqb k key) eqn:Hk.
  - apply String.eqb_eq in Hk as ->. rewrite decide_True by done.
    by rewrite read_none.
  - rewrite decide_False by done. apply IH; [done|].
    apply elem_of_cons in Hin as [->|Hin]; [|done].
    by rewrite String.eqb_refl in Hk.
Qed.

(** The exchange of a flushed batch with the server, and the fan-out. *)
Lemma serve_flush σ i operations queue results :
  requests σ !! i = Some (PostBatch operations, FlushAfterPost queue) →
  microtasks σ = [] →
  (Server.batch (Http.wire_operation <$> operations) (server σ)).2
  = Some results →
  (length results ≤ length queue)%nat →
  ∃ σ', run [Serve i; Tick] σ
        = settle_all (mjoin (zip_with deliver queue results)) σ'
    ∧ promises σ' = promises σ
    ∧ batchQueue σ' = batchQueue σ
    ∧ microtasks σ' = []
    ∧ server σ' = (Server.batch (Http.wire_operation <$> operations) (server σ)).1
    ∧ rememberPromises σ' = rememberPromises σ
    ∧ observed σ' = observed σ ++ [Fetched (PostBatch operations) [Http.DidFetch 0]]
    ∧ requests σ' = delete i (requests σ).
Proof.
  intros Hr Hm Hbatch Hlen. unfold run. cbn [foldl step]. rewrite Hr.
  cbn [Server.handle Http.wire].
  destruct (Server.batch (Http.wire_operation <$> operations) (server σ))
    as [c' results'] eqn:Hb.
  simpl in Hbatch. subst results'.
  rewrite (complete_spec _ _ _ (PostBatch operations) (FlushAfterPost queue)) by done.
  cbn. rewrite Hm. cbn. rewrite fan_out_settle_all by (simpl; lia).
  eexists. split; [reflexivity|]. by split_and!.
Qed.

(** The flush of one unit of work: what is queued, and what the tick that
    follows the calls sends. *)
Lemma unit_of_work_flush σ cs :
  batchQueue σ = [] → batchScheduled σ = false → microtasks σ = [] →
  Forall plain cs → cs ≠ [] →
  let σ1 := run (Call <$> cs) σ in
  let σ2 := step Tick σ1 in
  let sent := operation <$> batchQueue σ1 in
  sent = collapse (cs ≫= requested)
  ∧ sent `sublist_of` cs ≫= requested
  ∧ microtasks σ1 = [RunFlush]
  ∧ observed σ2 = observed σ ++ [Sent (PostBatch sent)]
  ∧ requests σ2
    = requests σ ++ [(PostBatch sent, FlushAfterPost (batchQueue σ1))]
  ∧ batchQueue σ2 = [].
Proof.
  intros Hq Hs Hm Hplain Hcs σ1 σ2 sent.
  destruct (after_calls_run σ cs Hq Hs Hm Hplain) as
    [_ Hoperations _ _ _ _ _ Hmicrotasks Hrequests Hobserved _ _].
  fold σ1 in Hoperations, Hmicrotasks, Hrequests, Hobserved.
  assert (batchQueue σ1 ≠ []) as Hne.
  { intros Hnil. apply (requested_nonempty cs Hplain Hcs).
    by rewrite <- Hoperations, Hnil. }
  assert (σ2 = flushBatch (with_microtasks [] σ1)) as ->.
  { unfold σ2. cbn [step]. by rewrite Hmicrotasks, bool_decide_eq_true_2. }
  rewrite flushBatch_sends by done. unfold sent. simpl.
  split_and!.
  - done.
  - rewrite Hoperations. apply collapse_sublist.
  - by rewrite Hmicrotasks, bool_decide_eq_true_2.
  - by rewrite Hobserved.
  - by rewrite Hrequests.
  - done.
Qed.

(** C4.  In a cycle as in C3 whose calls include a read of [K], the batch
    that is flushed holds exactly one read of [K], and once the server has
    answered, every caller of [get K], the first and the collapsed ones
    alike, holds a promise fulfilled with one and the same value: what the
    cache held for [K] when the server came to that read, which is [null]
    when the cache has no entry for [K] then, and which is what the cache
    held when the batch arrived unless an earlier operation of the batch
    wrote [K].  This is for a cycle every [set] of which carries JSON
    data, so that the server accepts the batch and stores the JSON forms,
    and for a cache that hands out no [undefined]. *)
Theorem reads_of_one_key_collapse σ cs K :
  batchQueue σ = [] → batchScheduled σ = false → microtasks σ = [] →
  Forall plain cs →
  CallGet K ∈ cs →
  Forall sendable (cs ≫= requested) →
  Forall plain_operation (cs ≫= requested) →
  defined_cache (server σ) →
  let σ1 := run (Call <$> cs) σ in
  let sent := operation <$> batchQueue σ1 in
  let σ2 := run [Tick; Serve (length (requests σ)); Tick] σ1 in
  observed (step Tick σ1) = observed σ ++ [Sent (PostBatch sent)]
  ∧ length (filter (λ o, is_get_op K o = true) sent) = 1%nat
  ∧ ∃ i, sent !! i = Some (OpGet K) ∧
      let read_from :=
        (Server.batch (take i (Http.wire_operation <$> sent)) (server σ)).1 in
      let value := Server.Cachex_get read_from K in
      (∀ j, cs !! j = Some (CallGet K) →
         promises σ2 !! (length (promises σ) + j)%nat
         = Some (Settled (Fulfilled value)))
      ∧ (Server.table read_from !! K = None → value = VNull)
      ∧ (Forall (λ o, ¬ writes K o) (take i sent) →
         value = Server.Cachex_get (server σ) K).
Proof.
  intros Hq Hs Hm Hplain HK Hsendable _ Hdefined σ1 sent σ2.
  assert (cs ≠ []) as Hcs by (intros ->; by apply elem_of_nil in HK).
  destruct (unit_of_work_flush σ cs Hq Hs Hm Hplain Hcs)
    as (Hsent & Hsub & Hm1 & Hobs & Hreq & Hq2).
  fold σ1 in Hsent, Hsub, Hm1, Hobs, Hreq, Hq2. fold sent in Hsent, Hsub, Hobs, Hreq.
  destruct (after_calls_run σ cs Hq Hs Hm Hplain).
  fold σ1 in ac_promises0, ac_operations0, ac_nodup0, ac_range0, ac_items0,
    ac_callers0, ac_scheduled0, ac_microtasks0, ac_requests0, ac_observed0,
    ac_server0, ac_http0.
  assert (NoDup (read_keys sent)) as Hreads.
  { rewrite Hsent. apply collapse_reads_once. }
  assert (Forall sendable sent) as Hsendable'.
  { apply Forall_forall. intros o Ho.
    eapply (proj1 (Forall_forall _ _) Hsendable). by eapply elem_of_sublist. }
  (* the first caller locates the read *)
  apply list_elem_of_lookup in HK as [j0 Hj0].
  destruct (ac_callers0 j0 _ Hj0) as (i & item & Hi & Hop & _).
  injection Hop as Hop.
  assert (sent !! i = Some (OpGet K)) as Hsi.
  { unfold sent. by rewrite list_lookup_fmap, Hi, <- Hop. }
  split; [done|]. split.
  { apply read_count; [done|]. apply existsb_is_get_op, existsb_exists.
    exists (OpGet K). split; [|apply String.eqb_refl].
    by eapply list_elem_of_In, list_elem_of_lookup_2. }
  exists i. split; [done|]. intros read_from value.
  assert (Forall sendable (Http.wire_operation <$> sent)) as Hwire.
  { apply Forall_fmap. eapply Forall_impl; [exact Hsendable'|].
    intros o. apply wire_sendable. }
  destruct (batch_sendable _ (server σ) Hwire) as (results & Hres & Hlen & Hpay).
  destruct (Hpay i (OpGet K)) as (result & Hri & Hpayload).
  { by rewrite list_lookup_fmap, Hsi. }
  fold read_from value in Hpayload. rewrite length_fmap in Hlen.
  (* the three events *)
  assert (∃ σ', σ2 = settle_all (mjoin (zip_with deliver (batchQueue σ1) results)) σ'
            ∧ promises σ' = promises σ1) as (σ' & -> & Hp').
  { unfold σ2. rewrite run_cons.
    destruct (serve_flush (step Tick σ1) (length (requests σ)) sent
                (batchQueue σ1) results) as (σ' & Hrun & Hp & _).
    - rewrite Hreq. by apply list_lookup_middle.
    - cbn [step]. rewrite Hm1. cbn [run_task].
      rewrite flushBatch_sends; [done|]. simpl. intros Hnil.
      unfold sent in Hsi. by rewrite Hnil in Hsi.
    - assert (server (step Tick σ1) = server σ) as ->; [|done].
      cbn [step]. rewrite Hm1. cbn [run_task].
      rewrite flushBatch_sends; [by simpl|]. simpl. intros Hnil.
      unfold sent in Hsi. by rewrite Hnil in Hsi.
    - rewrite Hlen. unfold sent. by rewrite length_fmap.
    - exists σ'. split; [done|]. rewrite Hp.
      cbn [step]. rewrite Hm1. cbn [run_task].
      rewrite flushBatch_sends; [by simpl|]. simpl. intros Hnil.
      unfold sent in Hsi. by rewrite Hnil in Hsi. }
  split_and!.
  - intros j Hj.
    destruct (ac_callers0 j _ Hj) as (i' & item' & Hi' & Hop' & Hin).
    injection Hop' as Hop'.
    assert (i' = i) as ->.
    { apply (read_once sent _ _ K Hreads); [|done].
      unfold sent. by rewrite list_lookup_fmap, Hi', <- Hop'. }
    rewrite settle_all_lookup, Hp', ac_promises0.
    rewrite lookup_app_r by lia.
    rewrite lookup_replicate_2 by (apply lookup_lt_Some in Hj; lia).
    erewrite first_outcome_deliveries; try done.
    apply batch_defined, Hdefined.
  - unfold value, Server.Cachex_get. by intros ->.
  - intros Huntouched. apply batch_untouched.
    rewrite <- fmap_take. apply Forall_fmap.
    eapply Forall_impl; [exact Huntouched|]. intros o Ho. simpl.
    by rewrite wire_writes.
Qed.

Lemma defined_cache_empty : defined_cache empty_cache.
Proof. intros key. unfold Server.Cachex_get. simpl. by rewrite lookup_empty. Qed.

Lemma batch_keeps_enqueue_order_witness :
  let cs := [CallSet "a" (VNum 1) None; CallGet "a"; CallDelete "a"] in
  let σ := initial Http.default_config empty_cache in
  observed (step Tick (run (Call <$> cs) σ))
  = [Sent (PostBatch [OpSet "a" (VNum 1) None; OpGet "a"; OpDelete "a"])].
Proof.
  intros cs σ.
  assert (Forall plain cs) as Hplain by (by repeat constructor).
  assert (cs ≠ []) as Hcs by done.
  destruct (batch_keeps_enqueue_order σ cs eq_refl eq_refl eq_refl Hplain Hcs)
    as (_ & _ & Hsame & _ & Hobserved & _).
  rewrite Hobserved, Hsame; [reflexivity|].
  apply NoDup_singleton.
Defined.

Lemma reads_of_one_key_collapse_witness :
  let cs := [CallGet "k"; CallSet "x" (VNum 1) None; CallGet "k"; CallGet "k"] in
  let c := (Server.batch [OpSet "k" (VNum 7) None] empty_cache).1 in
  let σ := initial Http.default_config c in
  let σ2 := run [Tick; Serve 0; Tick] (run (Call <$> cs) σ) in
  ∃ value, ∀ j, cs !! j = Some (CallGet "k") →
    promises σ2 !! j = Some (Settled (Fulfilled value)).
Proof.
  intros cs c σ σ2.
  assert (Forall plain cs) as Hplain by (by repeat constructor).
  assert (CallGet "k" ∈ cs) as Hin by (by left).
  assert (Forall sendable (cs ≫= requested)) as Hsendable.
  { repeat constructor. by eexists. }
  assert (defined_cache (server σ)) as Hdefined.
  { apply batch_defined, defined_cache_empty. }
  assert (Forall plain_operation (cs ≫= requested)) as Hdata.
  { by repeat constructor. }
  destruct (reads_of_one_key_collapse σ cs "k" eq_refl eq_refl eq_refl
              Hplain Hin Hsendable Hdata Hdefined) as (_ & _ & i & _ & Hvalue & _).
  eexists. exact Hvalue.
Defined.

(** ** Running the client on given events *)

Arguments run : simpl never.
Arguments Http.send : simpl never.
Arguments Http.LixServerError : simpl never.
Arguments Http.LixTimeoutError : simpl never.
Arguments Http.LixConnectionError : simpl never.
Arguments Http.LixAuthError : simpl never.
Arguments Http.LixNotFoundError : simpl never.
Arguments Http.LixTypeError : simpl never.

Lemma send_served config r body payload rest :
  Http.send config r (Http.FetchResponse 200 body payload :: rest)
  = (inl body, [Http.DidFetch 0]).
Proof. reflexivity. Qed.

(** What the client makes of the answer of a server that raised. *)
Definition server_raised : JsError :=
  Http.LixServerError 500 (error_data "Internal server error").

Lemma send_raised config r body rest :
  Http.send config r (Http.FetchResponse 500 body "Internal server error" :: rest)
  = (inr server_raised, [Http.DidFetch 0]).
Proof. reflexivity. Qed.

Arguments server_raised : simpl never.

Ltac state_fields_in H :=
  cbv [with_batchQueue with_batchScheduled with_rememberPromises
       with_rememberAllPromises with_promises with_microtasks with_requests
       with_observed with_server http_send
       batchQueue batchScheduled rememberPromises rememberAllPromises promises
       microtasks requests observed server http] in H.

(** Bring the state the remaining events start from into the form of a
    record. *)
Ltac norm :=
  lazymatch goal with
  | |- context [run ?es ?σ] =>
      let s := fresh "s" in
      let Hs := fresh "Hs" in
      remember σ as s eqn:Hs;
      unfold step, call, remember, rememberAll, initial in Hs;
      state_fields_in Hs; cbn in Hs;
      repeat (progress (rewrite ?lookup_empty, ?lookup_insert_eq,
                          ?lookup_delete_eq, ?send_served, ?send_raised in Hs);
              cbn in Hs);
      state_fields_in Hs; cbn in Hs;
      subst s
  end.

(** Take the next event. *)
Ltac exec := rewrite run_cons; norm.

(** As [norm], with the rewriting [rw] done as soon as the event's code is
    laid open, before anything is computed under a test that [rw] is to
    decide. *)
Ltac norm_using rw :=
  lazymatch goal with
  | |- context [run ?es ?σ] =>
      let s := fresh "s" in
      let Hs := fresh "Hs" in
      remember σ as s eqn:Hs;
      unfold step, call, remember, rememberAll, initial in Hs;
      cbn [run_task resume resume_http complete Server.handle Http.wire
           body_results body_items
           with_batchQueue with_batchScheduled with_rememberPromises
           with_rememberAllPromises with_promises with_microtasks with_requests
           with_observed with_server
           batchQueue batchScheduled rememberPromises rememberAllPromises
           promises microtasks requests observed server http] in Hs;
      repeat (progress (rewrite ?lookup_empty, ?lookup_insert_eq,
                          ?lookup_delete_eq, ?send_served, ?send_raised in Hs;
                        rw Hs));
      cbn in Hs;
      repeat (progress (rewrite ?lookup_empty, ?lookup_insert_eq,
                          ?lookup_delete_eq, ?send_served, ?send_raised in Hs;
                        rw Hs);
              cbn in Hs);
      state_fields_in Hs; cbn in Hs;
      subst s
  end.

Ltac exec_using rw := rewrite run_cons; norm_using rw.

Lemma undefined_to_null_defined v : v ≠ VUndefined → undefined_to_null v = v.
Proof. by destruct v. Qed.

Lemma not_null_true v : v ≠ VNull → not_null v = true.
Proof. by destruct v. Qed.



(** ** A producer that fails (C7) *)

(** Every request sent so far only reads. *)
Definition nothing_written (σ : State) : Prop :=
  ∀ operations, Sent (PostBatch operations) ∈ observed σ →
    Forall (λ o, ∃ key, o = OpGet key) operations.

(** C7.  [K] is not cached, and the producer handed to [remember(K, ...)]
    fails, either by rejecting the promise it returned or by throwing when
    called.  Then the call is rejected with the producer's error, no write
    was sent, the server's cache is as it was, the registry holds no entry
    for [K], and a plain read of [K] made afterwards is fulfilled with
    [null]. *)
Theorem failed_producer_writes_nothing config c K fallback options error :
  Server.Cachex_get c K = VNull →
  let σ0 := initial config c in
  let read := [Call (CallRemember K fallback options); Tick; Serve 0; Tick; Tick] in
  let reread := [Call (CallGet K); Tick; Serve 0; Tick] in
  (throws fallback = None →
     let σ := run [Produce 2 (Rejected error); Tick] (run read σ0) in
     promises σ !! 0%nat = Some (Settled (Rejected error))
     ∧ nothing_written σ
     ∧ server σ = c
     ∧ rememberPromises σ !! K = None
     ∧ promises (run reread σ) !! 3%nat = Some (Settled (Fulfilled VNull)))
  ∧ (throws fallback = Some error →
     let σ := run read σ0 in
     promises σ !! 0%nat = Some (Settled (Rejected error))
     ∧ nothing_written σ
     ∧ server σ = c
     ∧ rememberPromises σ !! K = None
     ∧ promises (run reread σ) !! 2%nat = Some (Settled (Fulfilled VNull))).
Proof.
  intros Hnull σ0 read reread. subst σ0 read reread. split.
  - intros Hthrows σ.
    assert (σ = {|
         batchQueue := [];
         batchScheduled := false;
         rememberPromises := delete K (<[K:=0%nat]> ∅);
         rememberAllPromises := ∅;
         promises := [Settled (Rejected error); Settled (Fulfilled VNull);
                      Settled (Rejected error)];
         microtasks := [];
         requests := [];
         observed := [Sent (PostBatch [OpGet K]);
                      Fetched (PostBatch [OpGet K]) [Http.DidFetch 0];
                      Invoked (producer_id fallback) 0 (Some 2%nat)];
         server := c;
         http := config |}) as ->.
    { subst σ. rewrite <- run_app. cbn [app].
      do 4 exec. rewrite Hnull. norm. exec. unfold call_fallback.
      rewrite Hthrows. norm. do 2 exec. by rewrite run_nil. }
    split_and!; try done.
    + intros operations Hsent. simpl in Hsent.
      repeat (apply elem_of_cons in Hsent as [Hsent|Hsent]; [try done|]).
      * injection Hsent as ->. repeat constructor. by exists K.
      * by apply elem_of_nil in Hsent.
    + simpl. by rewrite lookup_delete_eq.
    + do 3 exec. rewrite Hnull. norm. exec. by rewrite run_nil.
  - intros Hthrows σ.
    assert (σ = {|
         batchQueue := [];
         batchScheduled := false;
         rememberPromises := delete K (<[K:=0%nat]> ∅);
         rememberAllPromises := ∅;
         promises := [Settled (Rejected error); Settled (Fulfilled VNull)];
         microtasks := [];
         requests := [];
         observed := [Sent (PostBatch [OpGet K]);
                      Fetched (PostBatch [OpGet K]) [Http.DidFetch 0];
                      Invoked (producer_id fallback) 0 None];
         server := c;
         http := config |}) as ->.
    { subst σ. do 4 exec. rewrite Hnull. norm. exec. unfold call_fallback.
      rewrite Hthrows. norm. by rewrite run_nil. }
    split_and!; try done.
    + intros operations Hsent. simpl in Hsent.
      repeat (apply elem_of_cons in Hsent as [Hsent|Hsent]; [try done|]).
      * injection Hsent as ->. repeat constructor. by exists K.
      * by apply elem_of_nil in Hsent.
    + simpl. by rewrite lookup_delete_eq.
    + do 3 exec. rewrite Hnull. norm. exec. by rewrite run_nil.
Qed.

Lemma failed_producer_writes_nothing_witness :
  let fallback := {| producer_id := 1; throws := None |} in
  let σ := run [Produce 2 (Rejected (TypeError "boom")); Tick]
             (run [Call (CallRemember "K" fallback None); Tick; Serve 0; Tick;
                   Tick] (initial Http.default_config empty_cache)) in
  promises σ !! 0%nat = Some (Settled (Rejected (TypeError "boom")))
  ∧ promises (run [Call (CallGet "K"); Tick; Serve 0; Tick] σ) !! 3%nat
    = Some (Settled (Fulfilled VNull)).
Proof.
  intros fallback σ.
  assert (Server.Cachex_get empty_cache "K" = VNull) as Hnull.
  { unfold Server.Cachex_get. simpl. by rewrite lookup_empty. }
  destruct (failed_producer_writes_nothing Http.default_config empty_cache "K"
              fallback None (TypeError "boom") Hnull) as [Hasync _].
  destruct (Hasync eq_refl) as (Hrejected & _ & _ & _ & Hread).
  split; [exact Hrejected|exact Hread].
Defined.

(** ** [rememberAll] with a freshness marker (C8, C9) *)

(** What the server's cache holds once it has stored [items] one by one,
    each in its JSON form. *)
Definition cache_items (prefix : string) (options : RememberAllOptions)
    (items : list Value) (c : Server.Cachex) : Server.Cachex :=
  foldl (λ c item,
           Server.Cachex_put c (prefix +:+ getKey options item) (JSON_value item)
             (Server.put_opts (item_ttl options)))
    c items.

Definition stored (prefix : string) (options : RememberAllOptions)
    (item : Value) : BatchResult :=
  {| r_op := "set"; r_key := prefix +:+ getKey options item;
     r_value := VUndefined; r_success := true |}.

Lemma batch_cache_operations prefix options items c :
  Forall (λ v, JSON_writes v = true) items →
  Server.batch (Http.wire_operation <$> cache_operations prefix options items) c
  = (cache_items prefix options items c, Some (stored prefix options <$> items)).
Proof.
  intros H. revert c. induction H as [|item items Hitem _ IH]; intros c; [done|].
  cbn. rewrite Hitem, (json_property_JSON_value _ Hitem).
  change (list_fmap _ _ ?f items) with (f <$> items).
  change (list_fmap _ _ ?f (?g <$> items)) with (f <$> (g <$> items)).
  fold (cache_operations prefix options items). by rewrite IH.
Qed.

(** C8.  A fresh client is asked to [rememberAll(prefix, fallback, options)]
    with a list ttl.  It first reads the marker [prefix__list__].  When the
    cache holds a value for it, the producer is not invoked: the prefix is
    scanned, [getKey] is called on each value found, and the call is
    fulfilled with these values, or rejected with what [getKey] threw.
    When the cache holds none, the producer is invoked once and [getKey]
    is called on each item it produces.  If [getKey] throws, the call is
    rejected with that and nothing is written.  If it returns for all of
    them, and they are JSON data, the items are written in one
    request, each under [prefix + getKey(item)] and in its JSON form, then
    the marker is written with the list ttl, and the call is fulfilled
    with the items as the producer gave them. *)
Theorem rememberAll_with_marker config c prefix fallback options t :
  listTTL options = Some t →
  let σ0 := initial config c in
  let marker := listMarkerKey prefix in
  let check := [Call (CallRememberAll prefix fallback options); Tick; Serve 0;
                Tick; Tick; Tick] in
  let checking := PostBatch [OpGet marker] in
  (Server.Cachex_get c marker ≠ VNull →
   Server.Cachex_get c marker ≠ VUndefined →
     let σ := run (check ++ [Serve 0; Tick]) σ0 in
     let scanned := item_value <$> Server.scan prefix c in
     (getKey_raises options scanned = None →
        promises σ !! 0%nat
        = Some (Settled (Fulfilled (RememberAllResult options scanned))))
     ∧ (∀ error, getKey_raises options scanned = Some error →
          promises σ !! 0%nat = Some (Settled (Rejected error)))
     ∧ observed σ
       = [Sent checking; Fetched checking [Http.DidFetch 0];
          Sent (GetScan prefix); Fetched (GetScan prefix) [Http.DidFetch 0]]
     ∧ server σ = c)
  ∧ (Server.Cachex_get c marker = VNull →
     throws fallback = None →
     ∀ items,
     let produce := check ++ [Produce 3 (Fulfilled (VArr items)); Tick] in
     (getKey_raises options items = None →
      Forall JSON_data items →
        let caching := PostBatch (cache_operations prefix options items) in
        let marking := PostBatch [OpSet marker (VBool true) (Some t)] in
        let σ := run (produce ++ [Serve 0; Tick; Tick; Serve 0; Tick; Tick]) σ0 in
        promises σ !! 0%nat
        = Some (Settled (Fulfilled (RememberAllResult options items)))
        ∧ observed σ
          = [Sent checking; Fetched checking [Http.DidFetch 0];
             Invoked (producer_id fallback) 0 (Some 3%nat);
             Sent caching; Fetched caching [Http.DidFetch 0];
             Sent marking; Fetched marking [Http.DidFetch 0]]
        ∧ server σ
          = Server.Cachex_put (cache_items prefix options items c) marker
              (VBool true) (Server.put_opts (Some t)))
     ∧ (∀ error, getKey_raises options items = Some error →
          let σ := run produce σ0 in
          promises σ !! 0%nat = Some (Settled (Rejected error))
          ∧ observed σ
            = [Sent checking; Fetched checking [Http.DidFetch 0];
               Invoked (producer_id fallback) 0 (Some 3%nat)]
          ∧ server σ = c
          ∧ rememberAllPromises σ !! prefix = None)).
Proof.
  intros Hlist σ0 marker check checking. subst σ0 marker check checking.
  cbn [app]. split.
  - intros Hnull Hundef.
    set (scanned := item_value <$> Server.scan prefix c).
    assert (∀ o, match getKey_raises options scanned with
                 | Some error => Rejected error
                 | None => Fulfilled (RememberAllResult options scanned)
                 end = o →
            promises (run [Call (CallRememberAll prefix fallback options); Tick;
                           Serve 0; Tick; Tick; Tick; Serve 0; Tick]
                        (initial config c)) !! 0%nat = Some (Settled o)
            ∧ observed (run [Call (CallRememberAll prefix fallback options); Tick;
                           Serve 0; Tick; Tick; Tick; Serve 0; Tick]
                        (initial config c))
              = [Sent (PostBatch [OpGet (listMarkerKey prefix)]);
                 Fetched (PostBatch [OpGet (listMarkerKey prefix)]) [Http.DidFetch 0];
                 Sent (GetScan prefix); Fetched (GetScan prefix) [Http.DidFetch 0]]
            ∧ server (run [Call (CallRememberAll prefix fallback options); Tick;
                           Serve 0; Tick; Tick; Tick; Serve 0; Tick]
                        (initial config c)) = c) as H.
    { intros o Ho.
      exec_using ltac:(fun H => rewrite ?Hlist in H).
      do 3 exec.
      exec_using ltac:(fun H =>
        rewrite ?(undefined_to_null_defined _ Hundef),
                ?(not_null_true _ Hnull) in H).
      do 2 exec.
      exec_using ltac:(fun H =>
        unfold rememberAll_return in H; fold scanned in H).
      rewrite run_nil.
      destruct (getKey_raises options scanned); subst o; by cbn. }
    split_and!.
    + intros Hraise. rewrite Hraise in H. by destruct (H _ eq_refl).
    + intros error Hraise. rewrite Hraise in H. by destruct (H _ eq_refl).
    + destruct (H _ eq_refl) as (_ & ? & _). done.
    + destruct (H _ eq_refl) as (_ & _ & ?). done.
  - intros Hnull Hthrows items. split.
    + intros Hraise Hdata.
      assert (Forall (λ v, JSON_writes v = true) items) as Hitems.
      { eapply Forall_impl; [exact Hdata|]. by intros v [Hv _]. }
      exec_using ltac:(fun H => rewrite ?Hlist in H).
      do 2 exec.
      exec_using ltac:(fun H => rewrite ?Hnull in H).
      exec.
      exec_using ltac:(fun H =>
        unfold rememberAll_fetch, call_fallback in H; rewrite ?Hthrows in H).
      exec.
      exec_using ltac:(fun H => rewrite ?Hraise in H).
      exec_using ltac:(fun H => rewrite ?batch_cache_operations in H by done).
      exec_using ltac:(fun H => rewrite ?Hlist in H).
      do 3 exec.
      exec_using ltac:(fun H => unfold rememberAll_return in H; rewrite ?Hraise in H).
      by rewrite run_nil.
    + intros error Hraise.
      exec_using ltac:(fun H => rewrite ?Hlist in H).
      do 2 exec.
      exec_using ltac:(fun H => rewrite ?Hnull in H).
      exec.
      exec_using ltac:(fun H =>
        unfold rememberAll_fetch, call_fallback in H; rewrite ?Hthrows in H).
      exec.
      exec_using ltac:(fun H => rewrite ?Hraise in H).
      rewrite run_nil. cbn. rewrite lookup_delete_eq. done.
Qed.

Lemma prefix_append (p s : string) : String.prefix p (p +:+ s) = true.
Proof.
  induction p as [|a p IH]; simpl; [by destruct s|].
  by destruct (Ascii.ascii_dec a a).
Qed.

Lemma put_is_fresh c key value ttl :
  Server.table (Server.Cachex_put c key value (Server.put_opts ttl)) !! key
  = Some {| Server.entry_value := value;
            Server.entry_expires :=
              (λ t, Server.clock c + t) <$> Server.put_opts ttl |}
  ∧ Server.fresh (Server.clock c)
      {| Server.entry_value := value;
         Server.entry_expires :=
           (λ t, Server.clock c + t) <$> Server.put_opts ttl |} = true.
Proof.
  split; [apply lookup_insert_eq|]. unfold Server.fresh, Server.put_opts. simpl.
  destruct ttl as [t|]; [|done]. destruct (0 <? t) eqn:Ht; [|done].
  simpl. apply Z.ltb_lt. apply Z.ltb_lt in Ht. lia.
Qed.

Lemma Cachex_get_put c key value ttl :
  Server.Cachex_get (Server.Cachex_put c key value (Server.put_opts ttl)) key
  = value.
Proof.
  destruct (put_is_fresh c key value ttl) as [Hlookup Hfresh].
  unfold Server.Cachex_get. rewrite Hlookup. simpl in *. by rewrite Hfresh.
Qed.

Lemma scan_member c prefix key entry :
  Server.table c !! key = Some entry →
  Server.fresh (Server.clock c) entry = true →
  String.prefix prefix key = true →
  {| item_key := key; item_value := Server.entry_value entry |}
    ∈ Server.scan prefix c.
Proof.
  intros Hlookup Hfresh Hprefix. unfold Server.scan.
  apply list_elem_of_fmap. exists key. split.
  - unfold Server.Cachex_get. by rewrite Hlookup, Hfresh.
  - apply list_elem_of_filter. split; [done|]. unfold Server.Cachex_keys.
    apply list_elem_of_fmap. exists (key, entry). split; [done|].
    apply elem_of_map_to_list, map_lookup_filter_Some. by split.
Qed.

Arguments Server.Cachex_put : simpl never.
Arguments Server.put_opts : simpl never.

(** What [GET /cache/scan] lists. *)
Lemma scan_item_spec pre c key value :
  {| item_key := key; item_value := value |} ∈ Server.scan pre c
  ↔ String.prefix pre key = true
    ∧ ∃ entry, Server.table c !! key = Some entry
        ∧ Server.fresh (Server.clock c) entry = true
        ∧ Server.entry_value entry = value.
Proof.
  assert (∀ key, key ∈ Server.Cachex_keys c
          ↔ ∃ entry, Server.table c !! key = Some entry
              ∧ Server.fresh (Server.clock c) entry = true) as Hkeys.
  { intros k. unfold Server.Cachex_keys. rewrite list_elem_of_fmap. split.
    - intros ([k' entry] & -> & Hin).
      apply elem_of_map_to_list, map_lookup_filter_Some in Hin as [Hlookup Hfresh].
      by exists entry.
    - intros (entry & Hlookup & Hfresh). exists (k, entry). split; [done|].
      apply elem_of_map_to_list, map_lookup_filter_Some. by split. }
  unfold Server.scan. rewrite list_elem_of_fmap. split.
  - intros (k & [= -> ->] & [Hprefix Hin%Hkeys]%list_elem_of_filter).
    split; [done|]. destruct Hin as (entry & Hlookup & Hfresh).
    exists entry. split_and!; [done|done|].
    unfold Server.Cachex_get. by rewrite Hlookup, Hfresh.
  - intros (Hprefix & entry & Hlookup & Hfresh & <-). exists key. split.
    + unfold Server.Cachex_get. by rewrite Hlookup, Hfresh.
    + apply list_elem_of_filter. split; [done|]. apply Hkeys. by exists entry.
Qed.

Lemma append_inj (p s1 s2 : string) : p +:+ s1 = p +:+ s2 → s1 = s2.
Proof. induction p as [|a p IH]; simpl; [done|]. intros [= H]. by apply IH. Qed.

Lemma cache_items_snoc prefix options items item c :
  cache_items prefix options (items ++ [item]) c
  = Server.Cachex_put (cache_items prefix options items c)
      (prefix +:+ getKey options item) (JSON_value item)
      (Server.put_opts (item_ttl options)).
Proof. unfold cache_items. by rewrite foldl_app. Qed.

Lemma cache_items_clock prefix options items c :
  Server.clock (cache_items prefix options items c) = Server.clock c.
Proof.
  induction items as [|item items IH] using rev_ind; [done|].
  by rewrite cache_items_snoc.
Qed.

(** What the cache holds for [key] once [items] are stored: the JSON form
    of the last item with that key, or what it held before. *)
Lemma cache_items_lookup prefix options items c key :
  (∃ i item, items !! i = Some item
     ∧ prefix +:+ getKey options item = key
     ∧ (∀ j later, (i < j)%nat → items !! j = Some later →
          prefix +:+ getKey options later ≠ key)
     ∧ Server.table (cache_items prefix options items c) !! key
       = Some {| Server.entry_value := JSON_value item;
                 Server.entry_expires :=
                   (λ t, Server.clock c + t)
                     <$> Server.put_opts (item_ttl options) |})
  ∨ ((∀ item, item ∈ items → prefix +:+ getKey options item ≠ key)
     ∧ Server.table (cache_items prefix options items c) !! key
       = Server.table c !! key).
Proof.
  induction items as [|item items IH] using rev_ind.
  { right. split; [|done]. intros item Hin. by apply elem_of_nil in Hin. }
  rewrite cache_items_snoc. unfold Server.Cachex_put. cbn [Server.table Server.clock].
  rewrite cache_items_clock.
  destruct (decide (prefix +:+ getKey options item = key)) as [<-|Hne].
  - left. exists (length items), item. rewrite lookup_insert_eq.
    split_and!; [by apply list_lookup_middle|done| |done].
    intros j later Hj Hlater. apply lookup_lt_Some in Hlater.
    rewrite length_app in Hlater. simpl in Hlater. lia.
  - rewrite lookup_insert_ne by done.
    destruct IH as [(i & item' & Hi & Hkey & Hlast & Hlookup)|[Hnone Hlookup]].
    + left. exists i, item'. split_and!; [|done| |done].
      * by apply lookup_app_l_Some.
      * intros j later Hj Hlater.
        destruct (decide (j < length items)%nat) as [Hlt|Hge].
        -- rewrite lookup_app_l in Hlater by done. by eapply Hlast.
        -- rewrite lookup_app_r in Hlater by lia.
           destruct (j - length items)%nat; [|done]. by injection Hlater as <-.
    + right. split; [|done]. intros item' Hin.
      apply elem_of_app in Hin as [Hin|Hin]; [by apply Hnone|].
      apply list_elem_of_singleton in Hin as ->. done.
Qed.

(** The values a scan of [pre] hands back are those of the live entries
    whose key starts with [pre]. *)
Lemma scanned_spec pre c value :
  value ∈ item_value <$> Server.scan pre c
  ↔ ∃ key entry, String.prefix pre key = true
      ∧ Server.table c !! key = Some entry
      ∧ Server.fresh (Server.clock c) entry = true
      ∧ Server.entry_value entry = value.
Proof.
  rewrite list_elem_of_fmap. split.
  - intros ([key v] & -> & Hin). apply scan_item_spec in Hin
      as (Hprefix & entry & Hlookup & Hfresh & Hvalue).
    by exists key, entry.
  - intros (key & entry & Hprefix & Hlookup & Hfresh & Hvalue).
    exists {| item_key := key; item_value := value |}. split; [done|].
    apply scan_item_spec. split; [done|]. by exists entry.
Qed.

(** C9.  The marker key is the prefix followed by [__list__], so it starts
    with the prefix and the server's scan of the prefix lists it like any
    item.  When [rememberAll] with a list ttl finds a marker, the items it
    hands back are the values of that scan, the marker's own value among
    them, provided [getKey] returns for each of them, the marker's value
    included; the call is rejected with what [getKey] throws otherwise.
    In particular the call after one that fetched a list of JSON data
    hands back [true], the JSON form of every fetched item whose key no
    later item of the list took and which is not [__list__], and besides
    these only what the cache already held under the prefix. *)
Theorem marker_is_among_the_items config c prefix fallback options t :
  listTTL options = Some t →
  let σ0 := initial config c in
  let marker := listMarkerKey prefix in
  let call := [Call (CallRememberAll prefix fallback options); Tick; Serve 0;
               Tick; Tick; Tick] in
  let rebuild := [Serve 0; Tick] in
  marker = prefix +:+ "__list__"
  ∧ String.prefix prefix marker = true
  ∧ (∀ entry,
       Server.table c !! marker = Some entry →
       Server.fresh (Server.clock c) entry = true →
       Server.entry_value entry ≠ VNull →
       Server.entry_value entry ≠ VUndefined →
       let scanned := item_value <$> Server.scan prefix c in
       {| item_key := marker; item_value := Server.entry_value entry |}
         ∈ Server.scan prefix c
       ∧ Server.entry_value entry ∈ scanned
       ∧ (getKey_raises options scanned = None →
            promises (run (call ++ rebuild) σ0) !! 0%nat
            = Some (Settled (Fulfilled (RememberAllResult options scanned))))
       ∧ (∀ error, getKey_raises options scanned = Some error →
            promises (run (call ++ rebuild) σ0) !! 0%nat
            = Some (Settled (Rejected error))))
  ∧ (Server.Cachex_get c marker = VNull →
     throws fallback = None →
     ∀ fetched,
     Forall JSON_data fetched →
     getKey_raises options fetched = None →
     let fetch := [Produce 3 (Fulfilled (VArr fetched)); Tick; Serve 0; Tick;
                   Tick; Serve 0; Tick; Tick] in
     let σ := run ((call ++ fetch) ++ call ++ rebuild) σ0 in
     let scanned :=
       item_value
         <$> Server.scan prefix
               (Server.Cachex_put (cache_items prefix options fetched c) marker
                  (VBool true) (Server.put_opts (Some t))) in
     (getKey_raises options scanned = None →
        promises σ !! 5%nat
        = Some (Settled (Fulfilled (RememberAllResult options scanned))))
     ∧ (∀ error, getKey_raises options scanned = Some error →
          promises σ !! 5%nat = Some (Settled (Rejected error)))
     ∧ VBool true ∈ scanned
     ∧ (∀ i item, fetched !! i = Some item →
          (∀ j later, (i < j)%nat → fetched !! j = Some later →
             getKey options later ≠ getKey options item) →
          getKey options item ≠ "__list__" →
          JSON_value item ∈ scanned)
     ∧ (∀ value, value ∈ scanned →
          value = VBool true
          ∨ (∃ item, item ∈ fetched ∧ value = JSON_value item)
          ∨ value ∈ item_value <$> Server.scan prefix c)).
Proof.
  intros Hlist σ0 marker call rebuild. subst σ0 call rebuild.
  split; [done|]. split; [apply prefix_append|]. split.
  - intros entry Hlookup Hfresh Hnull Hundef scanned.
    assert (Server.Cachex_get c (listMarkerKey prefix) = Server.entry_value entry)
      as Hget.
    { unfold Server.Cachex_get. fold marker. by rewrite Hlookup, Hfresh. }
    pose proof (scan_member c prefix marker entry Hlookup Hfresh
                  (prefix_append _ _)) as Hscan.
    split; [done|]. split.
    { apply list_elem_of_fmap.
      by exists {| item_key := marker; item_value := Server.entry_value entry |}. }
    cbn [app].
    assert (∀ o, match getKey_raises options scanned with
                 | Some error => Rejected error
                 | None => Fulfilled (RememberAllResult options scanned)
                 end = o →
            promises (run [Call (CallRememberAll prefix fallback options); Tick;
                           Serve 0; Tick; Tick; Tick; Serve 0; Tick]
                        (initial config c)) !! 0%nat = Some (Settled o)) as H.
    { intros o Ho.
      exec_using ltac:(fun H => rewrite ?Hlist in H).
      do 3 exec.
      exec_using ltac:(fun H =>
        rewrite ?Hget, ?(undefined_to_null_defined _ Hundef),
                ?(not_null_true _ Hnull) in H).
      do 2 exec.
      exec_using ltac:(fun H =>
        unfold rememberAll_return in H; fold scanned in H).
      rewrite run_nil.
      destruct (getKey_raises options scanned); subst o; by cbn. }
    split.
    + intros Hraise. rewrite Hraise in H. by apply H.
    + intros error Hraise. rewrite Hraise in H. by apply H.
  - intros Hnull Hthrows fetched Hdata Hkeys fetch σ scanned.
    assert (Forall (λ v, JSON_writes v = true) fetched) as Hfetched.
    { eapply Forall_impl; [exact Hdata|]. by intros v [Hv _]. }
    set (c1 := cache_items prefix options fetched c) in *.
    set (c2 := Server.Cachex_put c1 marker (VBool true) (Server.put_opts (Some t)))
      in *.
    assert (∀ o, match getKey_raises options scanned with
                 | Some error => Rejected error
                 | None => Fulfilled (RememberAllResult options scanned)
                 end = o →
            promises σ !! 5%nat = Some (Settled o)) as H.
    { intros o Ho. subst σ fetch. cbn [app].
      exec_using ltac:(fun H => rewrite ?Hlist in H).
      do 2 exec.
      exec_using ltac:(fun H => fold marker in H; rewrite ?Hnull in H).
      exec.
      exec_using ltac:(fun H =>
        unfold rememberAll_fetch, call_fallback in H; rewrite ?Hthrows in H).
      exec.
      exec_using ltac:(fun H => rewrite ?Hkeys in H).
      exec_using ltac:(fun H => rewrite ?batch_cache_operations in H by done).
      exec_using ltac:(fun H => rewrite ?Hlist in H).
      do 3 exec.
      exec_using ltac:(fun H => unfold rememberAll_return in H; rewrite ?Hkeys in H).
      exec_using ltac:(fun H => rewrite ?Hlist in H).
      exec.
      exec_using ltac:(fun H => fold marker in H; rewrite ?Cachex_get_put in H).
      do 4 exec.
      exec_using ltac:(fun H =>
        unfold rememberAll_return in H; fold c1 c2 scanned in H).
      rewrite run_nil.
      destruct (getKey_raises options scanned); subst o; by cbn. }
    assert (Server.clock c2 = Server.clock c) as Hclock.
    { unfold c2, c1, Server.Cachex_put. cbn [Server.clock].
      apply cache_items_clock. }
    assert (∀ key, key ≠ marker →
              Server.table c2 !! key = Server.table c1 !! key) as Hother.
    { intros key Hkey. unfold c2, Server.Cachex_put. cbn [Server.table].
      by rewrite lookup_insert_ne. }
    split_and!.
    + intros Hraise. rewrite Hraise in H. by apply H.
    + intros error Hraise. rewrite Hraise in H. by apply H.
    + destruct (put_is_fresh c1 marker (VBool true) (Some t)) as [Hlookup Hfresh].
      apply scanned_spec. eexists marker, _.
      split; [apply prefix_append|]. split; [exact Hlookup|]. split; [|done].
      assert (Server.clock c2 = Server.clock c1) as -> by done. exact Hfresh.
    + intros i item Hi Hlast Hmarker. apply scanned_spec.
      set (key := prefix +:+ getKey options item).
      assert (key ≠ marker) as Hkey.
      { intros Heq. by apply append_inj in Heq. }
      destruct (cache_items_lookup prefix options fetched c key)
        as [(i' & item' & Hi' & Hkey' & Hlast' & Hlookup)|[Hnone _]].
      * assert (i' = i) as ->.
        { destruct (lt_eq_lt_dec i i') as [[Hlt| ->]|Hgt]; [|done|].
          - destruct (Hlast i' item' Hlt Hi'). unfold key in Hkey'.
            by apply append_inj in Hkey'.
          - by destruct (Hlast' i item Hgt Hi). }
        assert (item' = item) as -> by congruence.
        eexists key, _. split; [apply prefix_append|].
        split; [rewrite Hother by done; exact Hlookup|]. split; [|done].
        rewrite Hclock.
        apply (put_is_fresh c key (JSON_value item) (item_ttl options)).
      * destruct (Hnone item); [|done]. by eapply list_elem_of_lookup_2.
    + intros value (key & entry & Hprefix & Hlookup & Hfresh & Hvalue)%scanned_spec.
      destruct (decide (key = marker)) as [->|Hkey].
      * left. destruct (put_is_fresh c1 marker (VBool true) (Some t)) as [Hl _].
        fold c2 in Hl. rewrite Hl in Hlookup. injection Hlookup as <-.
        by rewrite <- Hvalue.
      * right. rewrite Hother in Hlookup by done. rewrite Hclock in Hfresh.
        destruct (cache_items_lookup prefix options fetched c key)
          as [(i' & item' & Hi' & Hkey' & Hlast' & Hl)|[Hnone Hl]].
        -- left. exists item'. split; [by eapply list_elem_of_lookup_2|].
           fold c1 in Hl. rewrite Hl in Hlookup. injection Hlookup as <-.
           by rewrite <- Hvalue.
        -- right. apply scanned_spec. exists key, entry.
           fold c1 in Hl. rewrite Hl in Hlookup. by split_and!.
Qed.

Lemma rememberAll_with_marker_witness :
  let options := {| getKey := λ v, match v with VStr s => s | _ => "" end;
                    getKey_throws := λ _, None;
                    item_ttl := None; listTTL := Some 60 |} in
  let fallback := {| producer_id := 1; throws := None |} in
  let items := [VStr "a"; VStr "b"] in
  let σ := run (([Call (CallRememberAll "user:" fallback options); Tick; Serve 0;
                  Tick; Tick; Tick]
                 ++ [Produce 3 (Fulfilled (VArr items)); Tick])
                ++ [Serve 0; Tick; Tick; Serve 0; Tick; Tick])
             (initial Http.default_config empty_cache) in
  promises σ !! 0%nat
  = Some (Settled (Fulfilled (RememberAllResult options items))).
Proof.
  intros options fallback items.
  pose proof (rememberAll_with_marker Http.default_config empty_cache "user:"
                fallback options 60 eq_refl) as H.
  cbv zeta in H. destruct H as [_ H].
  assert (Server.Cachex_get empty_cache (listMarkerKey "user:") = VNull) as Hnull.
  { unfold Server.Cachex_get. simpl. by rewrite lookup_empty. }
  assert (Forall JSON_data items) as Hitems.
  { by repeat constructor. }
  exact (proj1 (proj1 (H Hnull eq_refl items) eq_refl Hitems)).
Defined.

Lemma marker_is_among_the_items_witness :
  let options := {| getKey := λ v, match v with VStr s => s | _ => "" end;
                    getKey_throws := λ _, None;
                    item_ttl := None; listTTL := Some 60 |} in
  let fallback := {| producer_id := 1; throws := None |} in
  let call := [Call (CallRememberAll "user:" fallback options); Tick; Serve 0;
               Tick; Tick; Tick] in
  let scanned :=
    item_value
      <$> Server.scan "user:"
            (Server.Cachex_put (cache_items "user:" options [VStr "a"] empty_cache)
               (listMarkerKey "user:") (VBool true) (Server.put_opts (Some 60))) in
  VBool true ∈ scanned ∧ VStr "a" ∈ scanned.
Proof.
  intros options fallback call scanned.
  pose proof (marker_is_among_the_items Http.default_config empty_cache "user:"
                fallback options 60 eq_refl) as H.
  cbv zeta in H. destruct H as (_ & _ & _ & H).
  assert (Server.Cachex_get empty_cache (listMarkerKey "user:") = VNull) as Hnull.
  { unfold Server.Cachex_get. simpl. by rewrite lookup_empty. }
  assert (Forall JSON_data [VStr "a"]) as Hitems.
  { by repeat constructor. }
  destruct (H Hnull eq_refl [VStr "a"] Hitems eq_refl) as (_ & _ & Htrue & Hitem & _).
  split; [exact Htrue|].
  refine (Hitem 0%nat (VStr "a") eq_refl _ _).
  - intros [|j] later Hj Hlater; [lia|done].
  - done.
Defined.

(** * Further properties *)

(** ** Substrings *)

Lemma append_cons (a : Ascii.ascii) (s t : string) :
  String a s +:+ t = String a (s +:+ t).
Proof. reflexivity. Qed.

Lemma prefix_spec (needle haystack : string) :
  String.prefix needle haystack = true ↔ ∃ post, haystack = needle +:+ post.
Proof.
  revert haystack.
  induction needle as [|a needle IH]; intros [|b haystack]; simpl.
  - split; [intros _; by exists ""|done].
  - split; [intros _; by eexists|done].
  - split; [done|by intros [? ?]].
  - destruct (Ascii.ascii_dec a b) as [->|Hne].
    + rewrite IH. split; intros [post Hpost]; exists post;
        rewrite append_cons in *; congruence.
    + split; [done|]. intros [post Hpost]. rewrite append_cons in Hpost.
      congruence.
Qed.

(** [includes] is the substring test. *)
Lemma includes_spec (needle haystack : string) :
  includes needle haystack = true
  ↔ ∃ pre post, haystack = pre +:+ needle +:+ post.
Proof.
  induction haystack as [|b haystack IH].
  - cbn [includes]. rewrite orb_false_r, prefix_spec. split.
    + intros [post Hpost]. by exists "", post.
    + intros (pre & post & Hpost). destruct pre; [by exists post|done].
  - cbn [includes]. rewrite orb_true_iff, prefix_spec, IH. split.
    + intros [[post Hpost]|(pre & post & Hpost)].
      * by exists "", post.
      * exists (String b pre), post. by rewrite append_cons, Hpost.
    + intros (pre & post & Hpost). destruct pre as [|a pre].
      * left. by exists post.
      * right. exists pre, post. rewrite append_cons in Hpost. congruence.
Qed.

Lemma append_assoc (s1 s2 s3 : string) :
  (s1 +:+ s2) +:+ s3 = s1 +:+ s2 +:+ s3.
Proof.
  induction s1 as [|a s1 IH]; [done|]. rewrite !append_cons. by rewrite IH.
Qed.

(** No character of [s] is [a]. *)
Fixpoint lacks (a : ascii) (s : string) : bool :=
  match s with
  | EmptyString => true
  | String c s => negb (Ascii.eqb c a) && lacks a s
  end.

(** A text that lacks the first character of the needle can be skipped. *)
Lemma includes_skip a needle skipped haystack :
  lacks a skipped = true →
  includes (String a needle) (skipped +:+ haystack)
  = includes (String a needle) haystack.
Proof.
  induction skipped as [|c skipped IH]; [done|]. cbn [lacks].
  intros [Hc Hskipped]%andb_prop. rewrite append_cons. cbn [includes].
  rewrite IH by done. simpl.
  destruct (Ascii.ascii_dec a c) as [->|Hne]; [|done].
  by rewrite Ascii.eqb_refl in Hc.
Qed.

(** A needle that lacks the first character of what follows the haystack
    is not found across the seam. *)
Lemma prefix_seam needle haystack p rest :
  lacks p needle = true →
  String.prefix needle (haystack +:+ String p rest) = String.prefix needle haystack.
Proof.
  revert haystack. induction needle as [|a needle IH]; intros haystack.
  { by destruct haystack. }
  cbn [lacks]. intros [Ha Hneedle]%andb_prop. destruct haystack as [|c haystack].
  - simpl. destruct (Ascii.ascii_dec a p) as [->|Hne]; [|done].
    by rewrite Ascii.eqb_refl in Ha.
  - rewrite append_cons. simpl. destruct (Ascii.ascii_dec a c); [|done].
    by apply IH.
Qed.

Lemma includes_seam a needle haystack p rest :
  lacks p (String a needle) = true →
  includes (String a needle) (haystack +:+ String p rest)
  = includes (String a needle) haystack || includes (String a needle) (String p rest).
Proof.
  intros Hp. induction haystack as [|c haystack IH]; [done|].
  rewrite append_cons. cbn [includes]. rewrite IH, <- append_cons.
  rewrite prefix_seam by done. by rewrite orb_assoc.
Qed.

(** The decimal digits of a number hold no letter. *)
Lemma pretty_N_go_lacks a x s :
  (∀ d, pretty_N_char d ≠ a) →
  lacks a s = true → lacks a (pretty_N_go x s) = true.
Proof.
  intros Ha. revert s. induction (N.lt_wf_0 x) as [x _ IH]; intros s Hs.
  assert (x = 0 ∨ 0 < x)%N as [->|?] by lia.
  - by rewrite pretty_N_go_0.
  - rewrite pretty_N_go_step by done. apply IH; [by apply N.div_lt|].
    cbn [lacks]. rewrite Hs, andb_true_r. apply negb_true_iff.
    apply Ascii.eqb_neq, Ha.
Qed.

Lemma pretty_Z_lacks a (z : Z) :
  (∀ d, pretty_N_char d ≠ a) → a ≠ "-"%char →
  lacks a (pretty z) = true.
Proof.
  intros Ha Hdash.
  assert (∀ x : N, lacks a (pretty x) = true) as HN.
  { intros x. unfold pretty, pretty_N. case_decide.
    - cbn [lacks]. rewrite andb_true_r. apply negb_true_iff, Ascii.eqb_neq.
      apply (Ha 0%N).
    - by apply pretty_N_go_lacks. }
  destruct z as [|x|x]; unfold pretty, pretty_Z.
  - cbn [lacks]. rewrite andb_true_r. apply negb_true_iff, Ascii.eqb_neq.
    apply (Ha 0%N).
  - apply HN.
  - change (lacks a (String "-" (pretty (N.pos x))) = true).
    cbn [lacks]. rewrite HN, andb_true_r.
    apply negb_true_iff, Ascii.eqb_neq. congruence.
Qed.

(** ** The transport's retry loop *)

(** [k] failed attempts from retry count [n] on: each a call of [fetch],
    then a sleep of [retryDelay * 2 ^ retryCount]. *)
Fixpoint backoff (config : Http.HttpClientConfig) (n k : nat)
    : list Http.Effect :=
  match k with
  | O => []
  | S k =>
      Http.DidFetch n
        :: Http.DidSleep (Http.retryDelay config * 2 ^ Z.of_nat n)
        :: backoff config (S n) k
  end.

(** The milliseconds [request] spent in [sleep]. *)
Definition slept (effects : list Http.Effect) : Z :=
  foldr (λ e total,
           match e with Http.DidSleep ms => ms + total | _ => total end)
    0 effects.

(** An error the [catch] block retries when the retry count allows: a
    network error that is not an abort. *)
Definition transient (error : JsError) : bool :=
  negb (instanceof_Error error && String.eqb (err_name error) "AbortError")
  && Http.isNetworkError error.

(** A call of [fetch] that ends in such an error. *)
Definition fails_in_transit (path : string) (f : Http.FetchResult) : Prop :=
  ∃ error, caught path f = Some error ∧ transient error = true.

Section backoff.

Import Http.

Implicit Types (config : HttpClientConfig) (path : string) (n k : nat).

Lemma transient_retries config n error :
  retries config n error
  = transient error && bool_decide (n < maxRetries config)%nat.
Proof. reflexivity. Qed.

Lemma attempts_app effects1 effects2 :
  attempts (effects1 ++ effects2) = (attempts effects1 + attempts effects2)%nat.
Proof. unfold attempts. by rewrite filter_app, length_app. Qed.

Lemma attempts_backoff config n k : attempts (backoff config n k) = k.
Proof.
  revert n. induction k as [|k IH]; intros n; [done|].
  cbn [backoff]. by rewrite attempts_fetch, attempts_sleep, IH.
Qed.

Lemma slept_app effects1 effects2 :
  slept (effects1 ++ effects2) = slept effects1 + slept effects2.
Proof.
  induction effects1 as [|[m|ms] effects1 IH]; simpl; [done|done|].
  rewrite IH. lia.
Qed.

(** The sleeps double: [k] of them from retry count [n] on add up to
    [retryDelay * 2^n * (2^k - 1)]. *)
Lemma slept_backoff config n k :
  slept (backoff config n k)
  = retryDelay config * 2 ^ Z.of_nat n * (2 ^ Z.of_nat k - 1).
Proof.
  revert n. induction k as [|k IH]; intros n.
  - simpl. lia.
  - cbn [backoff slept foldr]. fold (slept (backoff config (S n) k)).
    rewrite IH. rewrite !Nat2Z.inj_succ, !Z.pow_succ_r by lia. lia.
Qed.

(** After [k] transient failures, with retries left for each, [request]
    goes on with the remaining fetches at retry count [n + k]. *)
Lemma request_after_failures config path failures rest n :
  Forall (fails_in_transit path) failures →
  (n + length failures ≤ maxRetries config)%nat →
  request config path (failures ++ rest) n
  = ((request config path rest (n + length failures)).1,
     backoff config n (length failures)
       ++ (request config path rest (n + length failures)).2).
Proof.
  intros Hfail. revert n.
  induction Hfail as [|f failures (error & Hcaught & Htransient) _ IH];
    intros n Hn.
  - rewrite Nat.add_0_r. simpl. by destruct (request config path rest n).
  - simpl in Hn. cbn [app length backoff].
    rewrite (request_again _ _ _ _ _ error Hcaught).
    + rewrite IH by lia. simpl. by rewrite Nat.add_succ_r.
    + rewrite transient_retries, Htransient. simpl.
      apply bool_decide_eq_true. lia.
Qed.

(** What the [catch] block does with an error it does not retry. *)
Lemma request_final config path f rest n error :
  caught path f = Some error →
  retries config n error = false →
  request config path (f :: rest) n
  = (inr (if instanceof_Error error && String.eqb (err_name error) "AbortError"
          then LixTimeoutError (timeout config)
          else if isNetworkError error
               then LixConnectionError (baseUrl config) error
               else error),
     [DidFetch n]).
Proof.
  unfold caught, retries. intros Hcaught Hretry.
  assert (∀ rest',
    (let '(result, effects) :=
       if instanceof_Error error && String.eqb (err_name error) "AbortError"
       then (inr (LixTimeoutError (timeout config)), [])
       else if isNetworkError error && bool_decide (n < maxRetries config)%nat
            then let '(result, effects) := request config path rest' (S n) in
                 (result, DidSleep (retryDelay config * 2 ^ Z.of_nat n) :: effects)
            else if isNetworkError error
                 then (inr (LixConnectionError (baseUrl config) error), [])
                 else (inr error, [])
     in (result, DidFetch n :: effects))
    = (inr (if instanceof_Error error && String.eqb (err_name error) "AbortError"
            then LixTimeoutError (timeout config)
            else if isNetworkError error
                 then LixConnectionError (baseUrl config) error
                 else error),
       [DidFetch n])) as Hcatch.
  { intros rest'.
    destruct (instanceof_Error error && String.eqb (err_name error) "AbortError");
      [done|].
    simpl in Hretry. destruct (isNetworkError error); [|done].
    simpl in Hretry. by rewrite Hretry. }
  destruct f as [status body errorData|error']; simpl.
  - destruct (response_ok status); [done|]. injection Hcaught as ->.
    apply Hcatch.
  - injection Hcaught as ->. apply Hcatch.
Qed.

End backoff.

(** X1.  [k] network failures in a row, no more than [maxRetries] allows, and
    then a response with an ok status: the call returns that response's
    body, having called [fetch] [k + 1] times and slept
    [retryDelay * 2 ^ i] after attempt [i]; from retry count [0] that is
    [retryDelay * (2 ^ k - 1)] milliseconds in all.  What [fetch] would
    have come back with after that is never asked for. *)
Theorem request_recovers_from_network_errors
    config path failures status body errorData rest n :
  Forall (fails_in_transit path) failures →
  (n + length failures ≤ Http.maxRetries config)%nat →
  Http.response_ok status = true →
  let outcome :=
    Http.request config path
      (failures ++ Http.FetchResponse status body errorData :: rest) n in
  outcome
  = (inl body,
     backoff config n (length failures)
       ++ [Http.DidFetch (n + length failures)])
  ∧ Http.attempts outcome.2 = S (length failures)
  ∧ slept outcome.2
    = Http.retryDelay config * 2 ^ Z.of_nat n
      * (2 ^ Z.of_nat (length failures) - 1).
Proof.
  intros Hfail Hn Hok outcome.
  assert (outcome
          = (inl body,
             backoff config n (length failures)
               ++ [Http.DidFetch (n + length failures)])) as ->.
  { unfold outcome. rewrite request_after_failures by done.
    simpl. by rewrite Hok. }
  split; [done|]. cbn [snd]. split.
  - rewrite attempts_app, attempts_backoff, attempts_fetch, attempts_nil. lia.
  - rewrite slept_app, slept_backoff. simpl. lia.
Qed.

Lemma request_recovers_from_network_errors_witness :
  Http.request Http.default_config "/cache/batch"
    ([Http.FetchRejects network_down; Http.FetchRejects network_down]
     ++ [Http.FetchResponse 200
           {| body_results := Some []; body_items := None |} ""]) 0
  = (inl {| body_results := Some []; body_items := None |},
     [Http.DidFetch 0; Http.DidSleep 100; Http.DidFetch 1; Http.DidSleep 200;
      Http.DidFetch 2]).
Proof.
  refine (proj1 (request_recovers_from_network_errors Http.default_config
                   "/cache/batch"
                   [Http.FetchRejects network_down; Http.FetchRejects network_down]
                   200 _ "" [] 0 _ _ eq_refl)).
  - repeat constructor; by exists network_down.
  - simpl. lia.
Defined.

(** X2.  When [fetch] keeps failing with network errors, [request] calls it
    [maxRetries + 1] times starting from retry count [0], sleeps
    [retryDelay * (2 ^ maxRetries - 1)] milliseconds in all, and fails
    with a [LixConnectionError] for the base URL whose [cause] is the
    error of the last attempt.  Further answers, even good ones, come too
    late. *)
Theorem request_gives_up_after_max_retries config path failures f error rest :
  Forall (fails_in_transit path) failures →
  length failures = Http.maxRetries config →
  caught path f = Some error →
  transient error = true →
  let outcome := Http.request config path (failures ++ f :: rest) 0 in
  outcome.1 = inr (Http.LixConnectionError (Http.baseUrl config) error)
  ∧ (∀ raised, outcome.1 = inr raised →
       err_name raised = "LixConnectionError"
       ∧ err_cause raised = Some error
       ∧ includes (Http.baseUrl config) (err_message raised) = true)
  ∧ outcome.2
    = backoff config 0 (Http.maxRetries config)
        ++ [Http.DidFetch (Http.maxRetries config)]
  ∧ Http.attempts outcome.2 = S (Http.maxRetries config)
  ∧ slept outcome.2
    = Http.retryDelay config * (2 ^ Z.of_nat (Http.maxRetries config) - 1).
Proof.
  intros Hfail Hlen Hcaught Htransient outcome.
  assert (outcome
          = (inr (Http.LixConnectionError (Http.baseUrl config) error),
             backoff config 0 (Http.maxRetries config)
               ++ [Http.DidFetch (Http.maxRetries config)])) as ->.
  { unfold outcome. rewrite request_after_failures by (try done; lia).
    rewrite Hlen. cbn [Nat.add].
    rewrite (request_final _ _ _ _ _ error Hcaught).
    - apply andb_prop in Htransient as [Habort Hnet].
      apply negb_true_iff in Habort. by rewrite Habort, Hnet.
    - rewrite transient_retries, Htransient. simpl.
      apply bool_decide_eq_false. lia. }
  cbn [fst snd]. split_and!; [done| |done|..].
  - intros raised [= <-]. split_and!; [done|done|].
    apply includes_spec.
    exists "Failed to connect to Lix Cache server at ". eexists.
    unfold Http.LixConnectionError, Http.lines. cbn [err_message String.concat].
    rewrite !append_assoc. reflexivity.
  - rewrite attempts_app, attempts_backoff, attempts_fetch, attempts_nil. lia.
  - rewrite slept_app, slept_backoff. simpl. lia.
Qed.

Lemma request_gives_up_after_max_retries_witness :
  slept (Http.request Http.default_config "/cache/batch"
           (replicate 3 (Http.FetchRejects network_down)
            ++ Http.FetchRejects network_down
            :: [Http.FetchResponse 200
                  {| body_results := Some []; body_items := None |} ""]) 0).2
  = 100 * (2 ^ Z.of_nat 3 - 1).
Proof.
  refine (proj2 (proj2 (proj2 (proj2
    (request_gives_up_after_max_retries Http.default_config "/cache/batch"
       (replicate 3 (Http.FetchRejects network_down))
       (Http.FetchRejects network_down) network_down _ _ eq_refl eq_refl
       eq_refl))))).
  repeat constructor; by exists network_down.
Defined.

(** X3.  An abort is reported as a timeout at once: [fetch] is called once, at
    whatever retry count, nothing sleeps, and no retry is made even when
    retries are left and the abort's message reads like a network
    error.  A [fetch] that never comes back ends the same way.  The error
    is a [LixTimeoutError] that carries the configured timeout, as its
    [timeoutMs] and at the head of its message. *)
Theorem abort_is_a_timeout_never_retried config path error rest n :
  instanceof_Error error = true →
  err_name error = "AbortError" →
  let raised := Http.LixTimeoutError (Http.timeout config) in
  Http.request config path (Http.FetchRejects error :: rest) n
  = (inr raised, [Http.DidFetch n])
  ∧ Http.request config path [] n = (inr raised, [Http.DidFetch n])
  ∧ err_name raised = "LixTimeoutError"
  ∧ err_fields raised = [("timeoutMs", VNum (Http.timeout config))]
  ∧ String.prefix
      ("Request timed out after " +:+ pretty (Http.timeout config) +:+ "ms.")
      (err_message raised) = true.
Proof.
  intros Hinstance Hname raised. split_and!; [|done|done|done|].
  - rewrite (request_final config path (Http.FetchRejects error) rest n error
               eq_refl).
    + by rewrite Hinstance, Hname.
    + unfold retries. by rewrite Hinstance, Hname.
  - apply prefix_spec. eexists.
    unfold raised, Http.LixTimeoutError, Http.lines.
    cbn [err_message String.concat]. reflexivity.
Qed.

Lemma abort_is_a_timeout_never_retried_witness :
  let aborted :=
    {| err_class := PlainError; err_name := "AbortError";
       err_message := "network fetch aborted";
       err_fields := []; err_cause := None |} in
  Http.request Http.default_config "/cache/batch"
    [Http.FetchRejects aborted;
     Http.FetchResponse 200 {| body_results := Some []; body_items := None |} ""]
    0
  = (inr (Http.LixTimeoutError 5000), [Http.DidFetch 0]).
Proof.
  intros aborted.
  exact (proj1 (abort_is_a_timeout_never_retried Http.default_config
                  "/cache/batch" aborted _ 0 eq_refl eq_refl)).
Defined.

(** The fixed text of a [LixServerError] mentions neither [fetch] nor
    [network], and no status does: whether its message does is up to the
    JSON text of the payload. *)
Lemma server_error_mentions statusCode response :
  includes "fetch" (err_message (Http.LixServerError statusCode response))
  = includes "fetch" (JSON_text response)
  ∧ includes "network" (err_message (Http.LixServerError statusCode response))
    = includes "network" (JSON_text response).
Proof.
  unfold Http.LixServerError. cbn [err_message].
  remember Http.server_error_advice as advice eqn:Hadvice.
  vm_compute in Hadvice. subst advice.
  split.
  - rewrite includes_skip by reflexivity.
    rewrite includes_skip.
    2:{ apply pretty_Z_lacks; [|done].
        intros d. unfold pretty_N_char. by repeat case_match. }
    rewrite includes_skip by reflexivity.
    rewrite includes_seam by reflexivity.
    match goal with
    | |- _ || ?b = _ => replace b with false by (vm_compute; reflexivity)
    end.
    apply orb_false_r.
  - rewrite includes_skip by reflexivity.
    rewrite includes_skip.
    2:{ apply pretty_Z_lacks; [|done].
        intros d. unfold pretty_N_char. by repeat case_match. }
    rewrite includes_skip by reflexivity.
    rewrite includes_seam by reflexivity.
    match goal with
    | |- _ || ?b = _ => replace b with false by (vm_compute; reflexivity)
    end.
    apply orb_false_r.
Qed.

(** [response.json()] throws a [SyntaxError] at a body that is not JSON. *)
Definition SyntaxError (message : string) : JsError :=
  {| err_class := PlainError; err_name := "SyntaxError";
     err_message := message; err_fields := []; err_cause := None |}.

(** X4.  A 401 and a 404 whose payload was read are final: one call of
    [fetch], no sleep, and the error handed on is the one
    [handleErrorResponse] threw, whatever the payload says and however
    many retries are left; the 404 names the key [unknown], as the URLs
    of the engine's routes carry no [key] parameter.  When the payload
    cannot be read the status is never looked at, and the [catch] block
    gets the error of [response.json()] or [response.text()]: a
    [TypeError] is retried like a network failure while retries are left,
    a [SyntaxError] whose message mentions neither [fetch] nor [network]
    is handed on as it is. *)
Theorem auth_and_not_found_are_final config path status body payload rest n :
  status = 401 ∨ status = 404 →
  Http.request config path
    (Http.FetchResponse status body payload :: rest) n
  = (inr (if status =? 401 then Http.LixAuthError
          else Http.LixNotFoundError "unknown"),
     [Http.DidFetch n])
  ∧ (∀ message, (n < Http.maxRetries config)%nat →
       let again := Http.request config path rest (S n) in
       Http.request config path (Http.FetchRejects (TypeError message) :: rest) n
       = (again.1,
          Http.DidFetch n
            :: Http.DidSleep (Http.retryDelay config * 2 ^ Z.of_nat n)
            :: again.2))
  ∧ (∀ message,
       includes "fetch" message = false → includes "network" message = false →
       Http.request config path (Http.FetchRejects (SyntaxError message) :: rest) n
       = (inr (SyntaxError message), [Http.DidFetch n])).
Proof.
  intros Hstatus. split_and!.
  - destruct Hstatus as [-> | ->].
    + by rewrite (request_final config path (Http.FetchResponse 401 body payload)
                    rest n Http.LixAuthError eq_refl eq_refl).
    + by rewrite (request_final config path (Http.FetchResponse 404 body payload)
                    rest n (Http.LixNotFoundError "unknown") eq_refl eq_refl).
  - intros message Hn again.
    apply (request_again config path (Http.FetchRejects (TypeError message))
             rest n (TypeError message) eq_refl).
    unfold retries. simpl. by apply bool_decide_eq_true.
  - intros message Hfetch Hnetwork.
    rewrite (request_final config path (Http.FetchRejects (SyntaxError message))
               rest n (SyntaxError message) eq_refl).
    + unfold Http.isNetworkError. simpl. by rewrite Hfetch, Hnetwork.
    + unfold retries, Http.isNetworkError. simpl. by rewrite Hfetch, Hnetwork.
Qed.

Lemma auth_and_not_found_are_final_witness :
  Http.request Http.default_config "/cache/batch"
    [Http.FetchResponse 401 {| body_results := None; body_items := None |}
       "network fetch";
     Http.FetchResponse 200 {| body_results := Some []; body_items := None |} ""]
    0
  = (inr Http.LixAuthError, [Http.DidFetch 0]).
Proof.
  exact (proj1 (auth_and_not_found_are_final Http.default_config "/cache/batch"
                  401 _ "network fetch" _ 0 (or_introl eq_refl))).
Defined.

(** X5.  Any other error status, a 400 whose payload is a text without
    [non_numeric] included, becomes a [LixServerError] that holds the
    status and the payload and whose message quotes the payload's JSON
    text, and [isNetworkError] searches that message.  So the payload
    decides: when its JSON text mentions neither [fetch] nor [network] the
    error is final and handed on as it is; when it mentions one, the
    answer is taken for a network failure, retried with backoff while
    retries are left, and reported as a [LixConnectionError] caused by
    the [LixServerError] once they are used up, although the server did
    answer.  A 400 whose JSON payload is [null] does not get that far:
    reading its [error] property is a [TypeError], which is retried. *)
Theorem server_error_payload_decides_retry
    config path status body payload rest n :
  Http.response_ok status = false →
  status ≠ 401 → status ≠ 404 →
  (status = 400 →
   ∃ text, payload = TextPayload text ∧ includes "non_numeric" text = false) →
  let answer := Http.FetchResponse status body payload in
  let errorData := error_data payload in
  let raised := Http.LixServerError status errorData in
  let mentions :=
    includes "fetch" (JSON_text errorData)
    || includes "network" (JSON_text errorData) in
  let again := Http.request config path rest (S n) in
  let retried :=
    (again.1,
     Http.DidFetch n
       :: Http.DidSleep (Http.retryDelay config * 2 ^ Z.of_nat n) :: again.2) in
  (err_name raised = "LixServerError"
   ∧ err_fields raised = [("statusCode", VNum status); ("response", errorData)])
  ∧ (mentions = false →
     Http.request config path (answer :: rest) n = (inr raised, [Http.DidFetch n]))
  ∧ (mentions = true → (n < Http.maxRetries config)%nat →
     Http.request config path (answer :: rest) n = retried)
  ∧ (mentions = true → (Http.maxRetries config ≤ n)%nat →
     Http.request config path (answer :: rest) n
     = (inr (Http.LixConnectionError (Http.baseUrl config) raised),
        [Http.DidFetch n]))
  ∧ ((n < Http.maxRetries config)%nat →
     Http.request config path
       (Http.FetchResponse 400 body (JsonPayload VNull) :: rest) n
     = retried).
Proof.
  intros Hok H401 H404 H400 answer errorData raised mentions again retried.
  assert (caught path answer = Some raised) as Hcaught.
  { unfold caught, answer, Http.handleErrorResponse. rewrite Hok.
    apply Z.eqb_neq in H401, H404. rewrite H401, H404.
    destruct (status =? 400) eqn:Hs; [|done].
    apply Z.eqb_eq in Hs. destruct (H400 Hs) as (text & -> & Htext).
    cbn. destruct (negb (String.eqb text "")) eqn:Hempty; cbn.
    - by rewrite Htext.
    - done. }
  assert (Http.isNetworkError raised = mentions) as Hnet.
  { destruct (server_error_mentions status errorData) as [Hfetch Hnetwork].
    unfold Http.isNetworkError. change (err_class raised) with PlainError.
    unfold raised. by rewrite Hfetch, Hnetwork. }
  split_and!.
  - done.
  - done.
  - intros Hmentions.
    rewrite (request_final _ _ _ _ _ _ Hcaught).
    + by rewrite Hnet, Hmentions.
    + unfold retries. by rewrite Hnet, Hmentions.
  - intros Hmentions Hn.
    apply (request_again _ _ _ _ _ _ Hcaught).
    unfold retries. rewrite Hnet, Hmentions. simpl.
    by apply bool_decide_eq_true.
  - intros Hmentions Hn.
    rewrite (request_final _ _ _ _ _ _ Hcaught).
    + by rewrite Hnet, Hmentions.
    + unfold retries. rewrite Hnet, Hmentions. simpl.
      apply bool_decide_eq_false. lia.
  - intros Hn.
    apply (request_again config path
             (Http.FetchResponse 400 body (JsonPayload VNull)) rest n
             (TypeError "Cannot read properties of null (reading 'error')")
             eq_refl).
    unfold retries. simpl. by apply bool_decide_eq_true.
Qed.

Lemma server_error_payload_decides_retry_witness :
  Http.request Http.default_config "/cache/batch"
    [Http.FetchResponse 503 {| body_results := None; body_items := None |}
       "upstream network unreachable";
     Http.FetchResponse 200 {| body_results := Some []; body_items := None |} ""]
    0
  = (inl {| body_results := Some []; body_items := None |},
     [Http.DidFetch 0; Http.DidSleep 100; Http.DidFetch 1]).
Proof.
  refine (proj1 (proj2 (proj2 (server_error_payload_decides_retry
                          Http.default_config
                          "/cache/batch" 503 _ "upstream network unreachable"
                          _ 0 eq_refl _ _ _))) eq_refl _).
  - lia.
  - lia.
  - lia.
  - simpl. lia.
Defined.

(** ** The constructor's warning *)

(** [isLocalhost(url)] *)
Definition isLocalhost (url : string) : bool :=
  includes "localhost" url || includes "127.0.0.1" url || includes "::1" url.

(** [!config.apiKey && !this.isLocalhost(config.baseUrl)]: whether
    [new HttpClient(config)] warns. *)
Definition warns (apiKey baseUrl : string) : bool :=
  String.eqb apiKey "" && negb (isLocalhost baseUrl).

(** X6.  [isLocalhost] looks for three markers anywhere in the URL, not at its
    host: a URL is taken for local exactly when one of them occurs in it
    somewhere, and then the constructor stays silent even without an API
    key.  With a key it never warns. *)
Theorem isLocalhost_is_a_substring_test url :
  (isLocalhost url = true
   ↔ ∃ marker pre post,
       marker ∈ ["localhost"; "127.0.0.1"; "::1"]
       ∧ url = pre +:+ marker +:+ post)
  ∧ (∀ apiKey, warns apiKey url = true ↔ apiKey = "" ∧ isLocalhost url = false)
  ∧ (∀ pre post, warns "" (pre +:+ "localhost" +:+ post) = false).
Proof.
  assert (∀ url, isLocalhost url = true
          ↔ ∃ marker pre post,
              marker ∈ ["localhost"; "127.0.0.1"; "::1"]
              ∧ url = pre +:+ marker +:+ post) as Hspec.
  { clear url. intros url. unfold isLocalhost.
    rewrite !orb_true_iff, !includes_spec. split.
    - intros [[(pre & post & ->)|(pre & post & ->)]|(pre & post & ->)].
      + exists "localhost", pre, post. split; [by left|done].
      + exists "127.0.0.1", pre, post. split; [by right; left|done].
      + exists "::1", pre, post. split; [by right; right; left|done].
    - intros (marker & pre & post & Hmarker & ->).
      repeat (apply elem_of_cons in Hmarker as [->|Hmarker]); eauto.
      by apply elem_of_nil in Hmarker. }
  split_and!.
  - apply Hspec.
  - intros apiKey. unfold warns.
    rewrite andb_true_iff, negb_true_iff, String.eqb_eq. done.
  - intros pre post. unfold warns. simpl.
    rewrite negb_false_iff. apply Hspec. exists "localhost", pre, post.
    split; [by left|done].
Qed.

(** ** The server's batch and scan routes *)

(** What the operations before a read last did to [key]: [Some (Some v)]
    when the last write set it to [v], [Some None] when it deleted it,
    [None] when none touched it. *)
Definition last_write (key : string) (operations : list BatchOperation)
    : option (option Value) :=
  foldl (λ written o,
           match o with
           | OpSet k value _ =>
               if String.eqb k key then Some (Some value) else written
           | OpDelete k => if String.eqb k key then Some None else written
           | OpGet _ => written
           end)
    None operations.

Lemma json_property_Some value stored :
  Server.json_property value = Some stored → stored = value.
Proof. destruct value; simpl; congruence. Qed.

Lemma Cachex_get_put_ne c key key' value ttl_ms :
  key ≠ key' →
  Server.Cachex_get (Server.Cachex_put c key value ttl_ms) key'
  = Server.Cachex_get c key'.
Proof.
  intros Hne. unfold Server.Cachex_get, Server.Cachex_put. simpl.
  by rewrite lookup_insert_ne.
Qed.

Lemma Cachex_get_del c key key' :
  Server.Cachex_get (Server.Cachex_del c key) key'
  = if decide (key = key') then VNull else Server.Cachex_get c key'.
Proof.
  unfold Server.Cachex_get, Server.Cachex_del. simpl.
  destruct (decide (key = key')) as [->|Hne].
  - by rewrite lookup_delete_eq.
  - by rewrite lookup_delete_ne.
Qed.

Lemma batch_snoc operations o c :
  Forall sendable operations →
  (Server.batch (operations ++ [o]) c).1
  = match Server.batch_clause o (Server.batch operations c).1 with
    | Some (c', _) => c'
    | None => (Server.batch operations c).1
    end.
Proof.
  intros Hsendable. rewrite batch_app.
  destruct (batch_sendable operations c Hsendable) as (results & Hresults & _).
  destruct (Server.batch operations c) as [c' results'].
  simpl in Hresults. subst results'. simpl.
  by destruct (Server.batch_clause o c') as [[c'' result]|].
Qed.

(** What the cache holds for [key] once [operations] have run. *)
Lemma batch_last_write key operations c :
  Forall sendable operations →
  Server.Cachex_get (Server.batch operations c).1 key
  = match last_write key operations with
    | Some (Some value) => value
    | Some None => VNull
    | None => Server.Cachex_get c key
    end.
Proof.
  induction operations as [|o operations IH] using rev_ind; [done|].
  intros [Hsendable Ho%Forall_inv]%Forall_app.
  rewrite batch_snoc by done. unfold last_write. rewrite foldl_app.
  fold (last_write key operations). cbn [foldl].
  specialize (IH Hsendable).
  destruct o as [k|k value t|k]; cbn [Server.batch_clause].
  - done.
  - destruct Ho as [stored Hstored]. rewrite Hstored.
    apply json_property_Some in Hstored as ->.
    destruct (String.eqb k key) eqn:Hk.
    + apply String.eqb_eq in Hk as ->. apply Cachex_get_put.
    + apply String.eqb_neq in Hk. by rewrite Cachex_get_put_ne.
  - rewrite Cachex_get_del. destruct (String.eqb k key) eqn:Hk.
    + apply String.eqb_eq in Hk as ->. by rewrite decide_True.
    + apply String.eqb_neq in Hk. by rewrite decide_False.
Qed.

(** X7.  The operations of a batch take effect in the order sent: when every
    [set] carries a value, the server answers each operation, in order,
    and what it answers to a read of [key] is what the last earlier write
    of [key] in the same batch left ([null] after a [delete]), and what
    the cache held on arrival when no earlier operation wrote [key].
    With no ttl in play a batch of reads alone leaves the cache as it
    was. *)
Theorem batch_reads_see_earlier_writes operations c :
  Forall sendable operations →
  ∃ results,
    (Server.batch operations c).2 = Some results
    ∧ length results = length operations
    ∧ (∀ i key, operations !! i = Some (OpGet key) →
         ∃ result, results !! i = Some result
           ∧ payload result
             = Some match last_write key (take i operations) with
                    | Some (Some value) => value
                    | Some None => VNull
                    | None => Server.Cachex_get c key
                    end)
    ∧ (Forall (λ o, ∃ key, o = OpGet key) operations →
       (Server.batch operations c).1 = c).
Proof.
  intros Hsendable.
  destruct (batch_sendable operations c Hsendable)
    as (results & Hresults & Hlen & Hpayload).
  exists results. split_and!; [done|done|..].
  - intros i key Hi. destruct (Hpayload i _ Hi) as (result & Hresult & Hp).
    exists result. split; [done|]. rewrite Hp. f_equal.
    apply batch_last_write, Forall_take, Hsendable.
  - clear. intros Hreads. revert c.
    induction Hreads as [|o operations [key ->] _ IH]; intros c; [done|].
    simpl. specialize (IH c). by destruct (Server.batch operations c).
Qed.

Lemma batch_reads_see_earlier_writes_witness :
  ∃ results,
    (Server.batch [OpSet "k" (VNum 1) None; OpGet "k"; OpDelete "k"; OpGet "k"]
       empty_cache).2 = Some results
    ∧ length results = 4%nat.
Proof.
  destruct (batch_reads_see_earlier_writes
              [OpSet "k" (VNum 1) None; OpGet "k"; OpDelete "k"; OpGet "k"]
              empty_cache) as (results & Hresults & Hlen & _).
  - repeat constructor. by eexists.
  - exists results. split; [exact Hresults|exact Hlen].
Defined.

(** X8.  [GET /cache/scan] lists exactly the entries that are live at the
    server's clock and whose key starts with the prefix, each once and
    each with the value stored; the marker [rememberAll] keeps under
    [prefix__list__] is such an entry. *)
Theorem scan_lists_live_entries_under_prefix pre c :
  (∀ key value,
     {| item_key := key; item_value := value |} ∈ Server.scan pre c
     ↔ String.prefix pre key = true
       ∧ ∃ entry, Server.table c !! key = Some entry
           ∧ Server.fresh (Server.clock c) entry = true
           ∧ Server.entry_value entry = value)
  ∧ NoDup (item_key <$> Server.scan pre c)
  ∧ (∀ entry,
       Server.table c !! listMarkerKey pre = Some entry →
       Server.fresh (Server.clock c) entry = true →
       Server.entry_value entry ∈ item_value <$> Server.scan pre c).
Proof.
  split_and!.
  - apply scan_item_spec.
  - unfold Server.scan. rewrite <- list_fmap_compose.
    rewrite (list_fmap_ext _ id) by done. rewrite list_fmap_id.
    apply NoDup_filter. unfold Server.Cachex_keys.
    apply NoDup_fst_map_to_list.
  - intros entry Hlookup Hfresh. apply list_elem_of_fmap.
    exists {| item_key := listMarkerKey pre;
              item_value := Server.entry_value entry |}.
    split; [done|]. apply scan_item_spec. split; [apply prefix_append|].
    by exists entry.
Qed.

(** ** [exists], time to live, and a batch the server refuses *)

Arguments Server.advance : simpl never.
Arguments Server.Cachex_get : simpl never.

(** What a read finds after [ms] milliseconds under a key stored with
    [ttl] seconds. *)
Lemma Cachex_get_after c key value ttl ms :
  Server.Cachex_get
    (Server.advance ms (Server.Cachex_put c key value (Server.put_opts ttl)))
    key
  = match ttl with
    | Some t => if (0 <? t) && (t * 1000 <=? Z.max 0 ms) then VNull else value
    | None => value
    end.
Proof.
  unfold Server.Cachex_get, Server.advance, Server.Cachex_put, Server.put_opts,
    Server.fresh.
  simpl. rewrite lookup_insert_eq. simpl.
  destruct ttl as [t|]; [|done]. destruct (0 <? t); simpl; [|done].
  destruct (t * 1000 <=? Z.max 0 ms) eqn:Hle.
  - apply Z.leb_le in Hle. by rewrite (proj2 (Z.ltb_ge _ _)) by lia.
  - apply Z.leb_gt in Hle. by rewrite (proj2 (Z.ltb_lt _ _)) by lia.
Qed.

(** X9.  [exists(K)] on a fresh client sends one read of [K] and is fulfilled
    with whether the cache holds a value other than [null] for it; the
    cache stays as it is.  A key that was set to [null] is stored by the
    server and still reported as absent. *)
Theorem exists_tells_whether_a_value_is_cached config c K :
  Server.Cachex_get c K ≠ VUndefined →
  let reading := PostBatch [OpGet K] in
  (let σ := run [Call (CallExists K); Tick; Serve 0; Tick; Tick]
              (initial config c) in
   promises σ !! 0%nat
   = Some (Settled (Fulfilled (VBool (not_null (Server.Cachex_get c K)))))
   ∧ observed σ = [Sent reading; Fetched reading [Http.DidFetch 0]]
   ∧ server σ = c)
  ∧ (let σ := run [Call (CallSet K VNull None); Tick; Serve 0; Tick;
                   Call (CallExists K); Tick; Serve 0; Tick; Tick]
                (initial config c) in
     promises σ !! 1%nat = Some (Settled (Fulfilled (VBool false)))
     ∧ Server.table (server σ) !! K
       = Some {| Server.entry_value := VNull; Server.entry_expires := None |}).
Proof.
  intros Hdefined reading. subst reading. split.
  - intros σ. subst σ. do 3 exec.
    exec_using ltac:(fun H => rewrite ?(undefined_to_null_defined _ Hdefined) in H).
    exec. by rewrite run_nil.
  - intros σ. subst σ. do 6 exec.
    exec_using ltac:(fun H =>
      change (Server.put_opts None) with (@None Z) in H;
      rewrite ?(Cachex_get_put _ _ _ None) in H).
    do 2 exec. rewrite run_nil. split; [done|].
    cbn [server]. unfold Server.Cachex_put, Server.put_opts. cbn.
    by rewrite lookup_insert_eq.
Qed.

Lemma exists_tells_whether_a_value_is_cached_witness :
  promises (run [Call (CallExists "K"); Tick; Serve 0; Tick; Tick]
              (initial Http.default_config empty_cache)) !! 0%nat
  = Some (Settled (Fulfilled (VBool (not_null (Server.Cachex_get empty_cache "K"))))).
Proof.
  refine (proj1 (proj1 (exists_tells_whether_a_value_is_cached
                          Http.default_config empty_cache "K" _))).
  apply defined_cache_empty.
Defined.

(** X10.  A value that is JSON data and is set with a ttl of [t] seconds
    is readable, in its JSON form, for [1000 * t] milliseconds of the
    server's clock and gone from then on; with no ttl, or one that is not
    positive, it stays whatever time passes. *)
Theorem ttl_bounds_lifetime config c K value options ms :
  JSON_data value →
  let σ := run [Call (CallSet K value options); Tick; Serve 0; Tick;
                Elapse ms;
                Call (CallGet K); Tick; Serve 0; Tick] (initial config c) in
  let stored := JSON_value value in
  promises σ !! 1%nat
  = Some (Settled (Fulfilled
       match optional_ttl options with
       | Some t => if (0 <? t) && (t * 1000 <=? Z.max 0 ms) then VNull else stored
       | None => stored
       end))
  ∧ (∀ t, optional_ttl options = Some t → t ≤ 0 →
       promises σ !! 1%nat = Some (Settled (Fulfilled stored)))
  ∧ (∀ t, optional_ttl options = Some t → 0 < t → 0 ≤ ms < 1000 * t →
       promises σ !! 1%nat = Some (Settled (Fulfilled stored)))
  ∧ (∀ t, optional_ttl options = Some t → 0 < t → 1000 * t ≤ ms →
       promises σ !! 1%nat = Some (Settled (Fulfilled VNull))).
Proof.
  intros [Hvalue _] σ stored.
  pose proof (json_property_JSON_value _ Hvalue) as Hstored. fold stored in Hstored.
  assert (stored ≠ VUndefined) as Hdefined.
  { intros Heq. by rewrite Heq in Hstored. }
  assert (promises σ !! 1%nat
          = Some (Settled (Fulfilled
               match optional_ttl options with
               | Some t =>
                   if (0 <? t) && (t * 1000 <=? Z.max 0 ms) then VNull else stored
               | None => stored
               end))) as Hread.
  { subst σ. do 2 exec.
    exec_using ltac:(fun H =>
      cbn [fmap list_fmap Http.wire_operation] in H;
      rewrite ?Hvalue in H; fold stored in H; rewrite ?Hstored in H).
    do 4 exec.
    exec_using ltac:(fun H => rewrite ?Cachex_get_after in H).
    exec. rewrite run_nil. cbn [promises]. simpl.
    destruct (optional_ttl options) as [t|];
      [|by rewrite (undefined_to_null_defined _ Hdefined)].
    destruct ((0 <? t) && (t * 1000 <=? Z.max 0 ms)); [done|].
    by rewrite (undefined_to_null_defined _ Hdefined). }
  split; [done|]. rewrite Hread. split_and!.
  - intros t -> Ht. by rewrite (proj2 (Z.ltb_ge 0 t)) by lia.
  - intros t -> Ht Hms. rewrite (proj2 (Z.ltb_lt 0 t)) by lia.
    by rewrite (proj2 (Z.leb_gt _ _)) by lia.
  - intros t -> Ht Hms. rewrite (proj2 (Z.ltb_lt 0 t)) by lia.
    by rewrite (proj2 (Z.leb_le _ _)) by lia.
Qed.

Lemma ttl_bounds_lifetime_witness :
  promises (run [Call (CallSet "K" (VNum 1) (Some {| ttl := Some 60 |})); Tick;
                 Serve 0; Tick; Elapse 60000;
                 Call (CallGet "K"); Tick; Serve 0; Tick]
              (initial Http.default_config empty_cache)) !! 1%nat
  = Some (Settled (Fulfilled VNull)).
Proof.
  refine (proj2 (proj2 (proj2 (ttl_bounds_lifetime Http.default_config empty_cache
                                 "K" (VNum 1) (Some {| ttl := Some 60 |}) 60000
                                 (conj eq_refl eq_refl)))) 60 eq_refl _ _); lia.
Defined.



(** ** [rememberAll] without a list ttl *)

(** X12.  Without [listTTL] nothing is read first: a call of [rememberAll]
    that finds no flight pending for the prefix invokes the producer at
    once, whatever else the client is doing, and a call that finds one
    joins it and invokes nothing.  On a fresh client, [getKey] is called
    on each item produced.  If it throws, the call is rejected with that
    and nothing is sent.  If it returns for all of them, and they are
    JSON data, the items (none at all included) go out as one
    request of writes under [prefix + getKey(item)], the server stores
    their JSON forms, and the call is fulfilled with the items as
    produced; no marker is written and the registry is cleared.  A result
    that is not an array and has no [map] method of its own, or a
    rejection, rejects the call, and then nothing is sent. *)
Theorem rememberAll_without_list_ttl config c prefix fallback options :
  listTTL options = None →
  throws fallback = None →
  (∀ σ, rememberAllPromises σ !! prefix = None →
     let σ1 := step (Call (CallRememberAll prefix fallback options)) σ in
     let promise := length (promises σ) in
     observed σ1
     = observed σ ++ [Invoked (producer_id fallback) promise (Some (S promise))]
     ∧ requests σ1 = requests σ
     ∧ batchQueue σ1 = batchQueue σ
     ∧ rememberAllPromises σ1 !! prefix = Some promise)
  ∧ (∀ σ inflight, rememberAllPromises σ !! prefix = Some inflight →
       call (CallRememberAll prefix fallback options) σ = (σ, inflight))
  ∧ let σ1 := step (Call (CallRememberAll prefix fallback options))
                (initial config c) in
    let invoked := Invoked (producer_id fallback) 0 (Some 1%nat) in
    (∀ items,
       getKey_raises options items = None →
       Forall JSON_data items →
       let caching := PostBatch (cache_operations prefix options items) in
       let σ := run [Produce 1 (Fulfilled (VArr items)); Tick; Serve 0; Tick] σ1 in
       promises σ !! 0%nat
       = Some (Settled (Fulfilled (RememberAllResult options items)))
       ∧ observed σ = [invoked; Sent caching; Fetched caching [Http.DidFetch 0]]
       ∧ server σ = cache_items prefix options items c
       ∧ rememberAllPromises σ !! prefix = None)
    ∧ (∀ items error,
         getKey_raises options items = Some error →
         let σ := run [Produce 1 (Fulfilled (VArr items)); Tick] σ1 in
         promises σ !! 0%nat = Some (Settled (Rejected error))
         ∧ observed σ = [invoked]
         ∧ server σ = c
         ∧ rememberAllPromises σ !! prefix = None)
    ∧ (∀ value, (∀ items, value ≠ VArr items) →
         (∀ f, property "map" value ≠ VFun f) →
         let σ := run [Produce 1 (Fulfilled value); Tick] σ1 in
         (∃ message,
            promises σ !! 0%nat = Some (Settled (Rejected (TypeError message))))
         ∧ observed σ = [invoked]
         ∧ server σ = c
         ∧ rememberAllPromises σ !! prefix = None)
    ∧ (∀ error,
         let σ := run [Produce 1 (Rejected error); Tick] σ1 in
         promises σ !! 0%nat = Some (Settled (Rejected error))
         ∧ observed σ = [invoked]
         ∧ server σ = c
         ∧ rememberAllPromises σ !! prefix = None).
Proof.
  intros Hlist Hthrows. split; [|split].
  - intros σ Hnone σ1 promise. subst σ1.
    unfold step, call, rememberAll. rewrite Hnone, Hlist.
    unfold rememberAll_fetch, call_fallback. rewrite Hthrows.
    unfold new_promise, await. cbn.
    rewrite length_app. cbn [length].
    replace (length (promises σ) + 1)%nat with (S (length (promises σ))) by lia.
    rewrite (lookup_app_r (promises σ ++ [Pending []])) by (rewrite length_app; simpl; lia).
    rewrite length_app. cbn [length].
    replace (S (length (promises σ)) - (length (promises σ) + 1))%nat with 0%nat by lia.
    cbn. split_and!; [done..|]. apply lookup_insert_eq.
  - intros σ inflight Hsome. unfold call, rememberAll. by rewrite Hsome.
  - intros σ1 invoked.
    assert (σ1 = {| batchQueue := []; batchScheduled := false;
                    rememberPromises := ∅;
                    rememberAllPromises := <[prefix := 0%nat]> ∅;
                    promises := [Pending [];
                                 Pending [RememberAllAfterFallback prefix options 0]];
                    microtasks := []; requests := [];
                    observed := [invoked];
                    server := c; http := config |}) as ->.
    { subst σ1. unfold step, call, rememberAll, initial.
      cbn [rememberAllPromises]. rewrite lookup_empty, Hlist.
      unfold rememberAll_fetch, call_fallback. rewrite Hthrows. reflexivity. }
    split; [|split; [|split]].
    + intros items Hraise Hdata caching σ. subst caching σ.
      assert (Forall (λ v, JSON_writes v = true) items) as Hitems.
      { eapply Forall_impl; [exact Hdata|]. by intros v [Hv _]. }
      exec.
      exec_using ltac:(fun H => rewrite ?Hraise in H).
      exec_using ltac:(fun H => rewrite ?batch_cache_operations in H by done).
      exec_using ltac:(fun H =>
        rewrite ?Hlist in H; unfold rememberAll_return in H;
        rewrite ?Hraise in H).
      rewrite run_nil. split_and!; [done..|].
      cbn [rememberAllPromises]. apply lookup_delete_eq.
    + intros items error Hraise σ. subst σ.
      exec.
      exec_using ltac:(fun H => rewrite ?Hraise in H).
      rewrite run_nil. split_and!; [done..|].
      cbn [rememberAllPromises]. apply lookup_delete_eq.
    + intros value Hvalue _ σ. subst σ.
      destruct value as [| | | | |items| |]; try (by destruct (Hvalue items));
        (do 2 exec; rewrite run_nil;
         split_and!; [by eexists|done|done|cbn [rememberAllPromises];
                                            apply lookup_delete_eq]).
    + intros error σ. subst σ. do 2 exec. rewrite run_nil.
      split_and!; [done..|]. cbn [rememberAllPromises]. apply lookup_delete_eq.
Qed.

Lemma rememberAll_without_list_ttl_witness :
  let options := {| getKey := λ v, match v with VStr s => s | _ => "" end;
                    getKey_throws := λ _, None;
                    item_ttl := None; listTTL := None |} in
  let fallback := {| producer_id := 1; throws := None |} in
  observed (step (Call (CallRememberAll "user:" fallback options))
              (initial Http.default_config empty_cache))
  = [Invoked 1 0 (Some 1%nat)].
Proof.
  intros options fallback.
  exact (proj1 (proj1 (rememberAll_without_list_ttl Http.default_config
                         empty_cache "user:" fallback options eq_refl eq_refl)
                  (initial Http.default_config empty_cache) eq_refl)).
Defined.

(** Events that do not touch the registry entry of [prefix] from
    outside: anything but a call of another method or for another
    prefix. *)
Definition leaves_to (prefix : string) (e : Event) : Prop :=
  match e with
  | Call (CallRememberAll p _ _) => p = prefix
  | Call _ => False
  | _ => True
  end.

(** X13.  When the producer throws on the spot and no list ttl is set, the
    [finally] block clears the registry before [rememberAll] enters the
    rejected promise into it.  The entry then stays for good: no
    microtask, response, producer or lapse of time removes it, and every
    later [rememberAll] for the prefix is handed that same rejected
    promise without its own producer being invoked. *)
Theorem thrown_producer_blocks_the_prefix
    config c prefix fallback options error :
  listTTL options = None →
  throws fallback = Some error →
  let σ1 := step (Call (CallRememberAll prefix fallback options))
              (initial config c) in
  promises σ1 !! 0%nat = Some (Settled (Rejected error))
  ∧ ∀ events, Forall (leaves_to prefix) events →
      let σ := run events σ1 in
      rememberAllPromises σ !! prefix = Some 0%nat
      ∧ promises σ = [Settled (Rejected error)]
      ∧ observed σ = [Invoked (producer_id fallback) 0 None]
      ∧ ∀ fallback' options',
          call (CallRememberAll prefix fallback' options') σ = (σ, 0%nat).
Proof.
  intros Hlist Hthrows σ1.
  set (stuck c' := {| batchQueue := []; batchScheduled := false;
                      rememberPromises := ∅;
                      rememberAllPromises := <[prefix := 0%nat]> (delete prefix ∅);
                      promises := [Settled (Rejected error)];
                      microtasks := []; requests := [];
                      observed := [Invoked (producer_id fallback) 0 None];
                      server := c'; http := config |}).
  assert (σ1 = stuck c) as ->.
  { subst σ1. unfold step, call, rememberAll, initial.
    cbn [rememberAllPromises]. rewrite lookup_empty, Hlist.
    unfold rememberAll_fetch, call_fallback. rewrite Hthrows. reflexivity. }
  split; [done|]. intros events Hevents σ.
  assert (∃ c', σ = stuck c') as [c' ->].
  { subst σ. generalize c. clear c.
    induction Hevents as [|e events He _ IH]; intros c; [by exists c|].
    rewrite run_cons.
    destruct e as [[| | | | |p fallback' options']| | | | | |ms];
      try done; try apply IH.
    simpl in He. subst p. cbn [step call]. unfold rememberAll.
    cbn [rememberAllPromises stuck]. rewrite lookup_insert_eq. apply IH. }
  split_and!; [apply lookup_insert_eq|done|done|].
  intros fallback' options'. cbn [call]. unfold rememberAll.
  cbn [rememberAllPromises stuck]. by rewrite lookup_insert_eq.
Qed.

Lemma thrown_producer_blocks_the_prefix_witness :
  let options := {| getKey := λ v, match v with VStr s => s | _ => "" end;
                    getKey_throws := λ _, None;
                    item_ttl := None; listTTL := None |} in
  let fallback := {| producer_id := 1; throws := Some (TypeError "boom") |} in
  promises (step (Call (CallRememberAll "user:" fallback options))
              (initial Http.default_config empty_cache)) !! 0%nat
  = Some (Settled (Rejected (TypeError "boom"))).
Proof.
  intros options fallback.
  exact (proj1 (thrown_producer_blocks_the_prefix Http.default_config empty_cache
                  "user:" fallback options (TypeError "boom") eq_refl eq_refl)).
Defined.

(** ** [remember]: joining a flight, [null] results, expiry *)

(** A call of [remember] for [K]. *)
Definition joins (K : string) (e : Event) : Prop :=
  match e with
  | Call (CallRemember key _ _) => key = K
  | _ => False
  end.

(** While the registry holds a flight for [K], calls of [remember] for
    [K] change nothing. *)
Lemma joiners_change_nothing K joiners σ p :
  rememberPromises σ !! K = Some p →
  Forall (joins K) joiners →
  run joiners σ = σ.
Proof.
  intros Hflight Hjoiners.
  induction Hjoiners as [|e joiners He _ IH]; [done|].
  rewrite run_cons. destruct e as [[| | | |key fallback options|]| | | | | |];
    try done.
  simpl in He. subst key. cbn [step call]. unfold remember.
  by rewrite Hflight.
Qed.

(** The flight of a [remember] that misses, up to the last microtask
    before its promise settles. *)
Definition miss_flight (K : string) (fallback : Producer)
    (options : option SetOptions) (value : Value) : list Event :=
  [Call (CallRemember K fallback options); Tick; Serve 0; Tick; Tick;
   Produce 2 (Fulfilled value); Tick; Tick; Serve 0; Tick].

(** X14.  From the first call of [remember(K, ...)] until the flight's promise
    settles, at every point in between, any further [remember(K, ...)]
    is handed the flight's promise and changes nothing: its producer is
    not invoked, its options are not used, nothing is queued or sent for
    it.  However many join and wherever, the run ends as without them:
    one read, one invocation of the first caller's producer, one
    write. *)
Theorem remember_joiners_share_the_flight
    config c K fallback options value k joiners :
  Server.Cachex_get c K = VNull →
  throws fallback = None →
  Server.json_property value = Some value →
  (1 ≤ k ≤ 10)%nat →
  Forall (joins K) joiners →
  let σ0 := initial config c in
  let flight := miss_flight K fallback options value in
  let reading := PostBatch [OpGet K] in
  let writing := PostBatch [OpSet K value (optional_ttl options)] in
  (∀ fallback' options',
     call (CallRemember K fallback' options') (run (take k flight) σ0)
     = (run (take k flight) σ0, 0%nat))
  ∧ run (take k flight ++ joiners ++ drop k flight ++ [Tick]) σ0
    = run (flight ++ [Tick]) σ0
  ∧ observed (run (flight ++ [Tick]) σ0)
    = [Sent reading; Fetched reading [Http.DidFetch 0];
       Invoked (producer_id fallback) 0 (Some 2%nat);
       Sent writing; Fetched writing [Http.DidFetch 0]]
  ∧ promises (run (flight ++ [Tick]) σ0) !! 0%nat
    = Some (Settled (Fulfilled value))
  ∧ rememberPromises (run (flight ++ [Tick]) σ0) !! K = None.
Proof.
  intros Hnull Hthrows Hvalue Hk Hjoiners σ0 flight reading writing.
  pose proof (proj1 (json_property_writes value) Hvalue) as Hwrites.
  pose proof (json_property_JSON_value _ Hwrites) as Hstored.
  assert (rememberPromises (run (take k flight) σ0) !! K = Some 0%nat)
    as Hflight.
  { subst σ0 flight. unfold miss_flight.
    destruct k as [|[|[|[|[|[|[|[|[|[|[|k]]]]]]]]]]]; try lia; cbn [take];
      repeat exec_using ltac:(fun H =>
        cbn [fmap list_fmap Http.wire_operation] in H;
        rewrite ?Hnull, ?Hwrites, ?Hstored in H;
        unfold call_fallback in H; rewrite ?Hthrows in H);
      rewrite run_nil; cbn [rememberPromises]; apply lookup_insert_eq. }
  split_and!.
  - intros fallback' options'. cbn [call]. unfold remember.
    by rewrite Hflight.
  - rewrite run_app, run_app.
    rewrite (joiners_change_nothing K joiners _ 0%nat Hflight Hjoiners).
    rewrite <- run_app, app_assoc, take_drop. done.
  - subst σ0 flight. unfold miss_flight. cbn [app].
    repeat exec_using ltac:(fun H =>
      cbn [fmap list_fmap Http.wire_operation] in H;
      rewrite ?Hnull, ?Hwrites, ?Hstored in H;
      unfold call_fallback in H; rewrite ?Hthrows in H).
    by rewrite run_nil.
  - subst σ0 flight. unfold miss_flight. cbn [app].
    repeat exec_using ltac:(fun H =>
      cbn [fmap list_fmap Http.wire_operation] in H;
      rewrite ?Hnull, ?Hwrites, ?Hstored in H;
      unfold call_fallback in H; rewrite ?Hthrows in H).
    by rewrite run_nil.
  - subst σ0 flight. unfold miss_flight. cbn [app].
    repeat exec_using ltac:(fun H =>
      cbn [fmap list_fmap Http.wire_operation] in H;
      rewrite ?Hnull, ?Hwrites, ?Hstored in H;
      unfold call_fallback in H; rewrite ?Hthrows in H).
    rewrite run_nil. cbn [rememberPromises]. apply lookup_delete_eq.
Qed.

Lemma remember_joiners_share_the_flight_witness :
  let first := {| producer_id := 1; throws := None |} in
  let second := {| producer_id := 2; throws := None |} in
  let flight := miss_flight "K" first None (VNum 7) in
  run (take 3 flight ++ [Call (CallRemember "K" second None)]
       ++ drop 3 flight ++ [Tick])
    (initial Http.default_config empty_cache)
  = run (flight ++ [Tick]) (initial Http.default_config empty_cache).
Proof.
  intros first second flight.
  refine (proj1 (proj2 (remember_joiners_share_the_flight Http.default_config
                          empty_cache "K" first None (VNum 7) 3
                          [Call (CallRemember "K" second None)]
                          _ eq_refl eq_refl _ _))).
  - reflexivity.
  - lia.
  - by repeat constructor.
Defined.

(** X15.  A producer's [null] is stored and handed back like any value, but a
    stored [null] never counts as a hit: the next [remember] for the key
    reads it, takes it for a miss and invokes its producer again. *)
Theorem null_result_is_never_a_hit config c K first options second options' :
  Server.Cachex_get c K = VNull →
  throws first = None →
  throws second = None →
  let σ1 := run (miss_flight K first options VNull ++ [Tick]) (initial config c) in
  let σ2 := run [Call (CallRemember K second options'); Tick; Serve 0; Tick; Tick]
              σ1 in
  let reading := PostBatch [OpGet K] in
  promises σ1 !! 0%nat = Some (Settled (Fulfilled VNull))
  ∧ Server.table (server σ1) !! K
    = Some {| Server.entry_value := VNull;
              Server.entry_expires :=
                (λ t, Server.clock c + t)
                  <$> Server.put_opts (optional_ttl options) |}
  ∧ observed σ2
    = observed σ1 ++ [Sent reading; Fetched reading [Http.DidFetch 0];
                      Invoked (producer_id second) 4 (Some 6%nat)].
Proof.
  intros Hnull Hfirst Hsecond σ1 σ2 reading.
  set (writing := PostBatch [OpSet K VNull (optional_ttl options)]).
  assert (σ1 = {| batchQueue := []; batchScheduled := false;
                  rememberPromises := delete K (<[K := 0%nat]> ∅);
                  rememberAllPromises := ∅;
                  promises := [Settled (Fulfilled VNull);
                               Settled (Fulfilled VNull);
                               Settled (Fulfilled VNull);
                               Settled (Fulfilled VUndefined)];
                  microtasks := []; requests := [];
                  observed := [Sent reading; Fetched reading [Http.DidFetch 0];
                               Invoked (producer_id first) 0 (Some 2%nat);
                               Sent writing; Fetched writing [Http.DidFetch 0]];
                  server := Server.Cachex_put c K VNull
                              (Server.put_opts (optional_ttl options));
                  http := config |}) as Hσ1.
  { subst σ1. unfold miss_flight. cbn [app].
    repeat exec_using ltac:(fun H =>
      rewrite ?Hnull in H; unfold call_fallback in H; rewrite ?Hfirst in H).
    by rewrite run_nil. }
  split_and!.
  - by rewrite Hσ1.
  - rewrite Hσ1. cbn [server].
    apply (put_is_fresh c K VNull (optional_ttl options)).
  - subst σ2. rewrite Hσ1. cbn [observed].
    repeat exec_using ltac:(fun H =>
      rewrite ?Cachex_get_put in H;
      unfold call_fallback in H; rewrite ?Hsecond in H).
    by rewrite run_nil.
Qed.

Lemma null_result_is_never_a_hit_witness :
  let first := {| producer_id := 1; throws := None |} in
  let second := {| producer_id := 2; throws := None |} in
  promises (run (miss_flight "K" first None VNull ++ [Tick])
              (initial Http.default_config empty_cache)) !! 0%nat
  = Some (Settled (Fulfilled VNull)).
Proof.
  intros first second.
  exact (proj1 (null_result_is_never_a_hit Http.default_config empty_cache "K"
                  first None second None
                  eq_refl eq_refl eq_refl)).
Defined.

(** X16.  A value that is JSON data, is not [null] and is remembered with
    a ttl of [t] seconds is a hit for the next [remember] of the key as long as
    less than [1000 * t] milliseconds have passed on the server: the
    second producer is then not invoked, and the second call is fulfilled
    with the JSON form of the value.  From [1000 * t] milliseconds on the
    key is a miss again and the second producer is invoked. *)
Theorem remembered_value_expires config c K first t value second options' ms :
  Server.Cachex_get c K = VNull →
  throws first = None →
  throws second = None →
  JSON_data value →
  value ≠ VNull →
  0 < t →
  0 ≤ ms →
  let options := Some {| ttl := Some t |} in
  let σ1 := run (miss_flight K first options value ++ [Tick]) (initial config c) in
  let σ2 := run [Elapse ms; Call (CallRemember K second options'); Tick;
                 Serve 0; Tick; Tick] σ1 in
  let reading := PostBatch [OpGet K] in
  promises σ1 !! 0%nat = Some (Settled (Fulfilled value))
  ∧ (ms < 1000 * t →
     promises σ2 !! 4%nat = Some (Settled (Fulfilled (JSON_value value)))
     ∧ observed σ2
       = observed σ1 ++ [Sent reading; Fetched reading [Http.DidFetch 0]])
  ∧ (1000 * t ≤ ms →
     promises σ2 !! 4%nat = Some (Pending [])
     ∧ observed σ2
       = observed σ1 ++ [Sent reading; Fetched reading [Http.DidFetch 0];
                         Invoked (producer_id second) 4 (Some 6%nat)]).
Proof.
  intros Hnull Hfirst Hsecond [Hwrites _] Hnotnull Ht Hms options σ1 σ2 reading.
  set (writing := PostBatch [OpSet K value (Some t)]).
  pose proof (json_property_JSON_value _ Hwrites) as Hstored.
  set (stored := JSON_value value) in *.
  assert (stored ≠ VUndefined) as Hdefined.
  { intros Heq. by rewrite Heq in Hstored. }
  assert (stored ≠ VNull) as Hheld.
  { unfold stored. by destruct value. }
  assert (σ1 = {| batchQueue := []; batchScheduled := false;
                  rememberPromises := delete K (<[K := 0%nat]> ∅);
                  rememberAllPromises := ∅;
                  promises := [Settled (Fulfilled value);
                               Settled (Fulfilled VNull);
                               Settled (Fulfilled value);
                               Settled (Fulfilled VUndefined)];
                  microtasks := []; requests := [];
                  observed := [Sent reading; Fetched reading [Http.DidFetch 0];
                               Invoked (producer_id first) 0 (Some 2%nat);
                               Sent writing; Fetched writing [Http.DidFetch 0]];
                  server := Server.Cachex_put c K stored
                              (Server.put_opts (Some t));
                  http := config |}) as Hσ1.
  { subst σ1 options. unfold miss_flight. cbn [app].
    repeat exec_using ltac:(fun H =>
      cbn [fmap list_fmap Http.wire_operation] in H;
      rewrite ?Hnull, ?Hwrites in H; fold stored in H; rewrite ?Hstored in H;
      unfold call_fallback in H; rewrite ?Hfirst in H).
    by rewrite run_nil. }
  pose proof (Cachex_get_after c K stored (Some t) ms) as Hget.
  cbv beta iota in Hget.
  rewrite (proj2 (Z.ltb_lt 0 t) Ht), Z.max_r in Hget by done.
  split; [by rewrite Hσ1|]. split.
  - intros Hlive. rewrite (proj2 (Z.leb_gt _ _)) in Hget by lia.
    subst σ2. rewrite Hσ1. cbn [observed].
    repeat exec_using ltac:(fun H =>
      rewrite ?Hget, ?(undefined_to_null_defined _ Hdefined),
              ?(not_null_true _ Hheld) in H).
    by rewrite run_nil.
  - intros Hgone. rewrite (proj2 (Z.leb_le _ _)) in Hget by lia.
    subst σ2. rewrite Hσ1. cbn [observed].
    repeat exec_using ltac:(fun H =>
      rewrite ?Hget in H;
      unfold call_fallback in H; rewrite ?Hsecond in H).
    by rewrite run_nil.
Qed.

Lemma remembered_value_expires_witness :
  let first := {| producer_id := 1; throws := None |} in
  let second := {| producer_id := 2; throws := None |} in
  let σ1 := run (miss_flight "K" first (Some {| ttl := Some 60 |}) (VNum 7)
                 ++ [Tick]) (initial Http.default_config empty_cache) in
  let σ2 := run [Elapse 59999; Call (CallRemember "K" second None); Tick;
                 Serve 0; Tick; Tick] σ1 in
  promises σ2 !! 4%nat = Some (Settled (Fulfilled (VNum 7))).
Proof.
  intros first second.
  refine (proj1 (proj1 (proj2 (remembered_value_expires Http.default_config
                                 empty_cache
                                 "K" first 60 (VNum 7) second None 59999
                                 eq_refl eq_refl eq_refl
                                 (conj eq_refl eq_refl) _ _ _)) _)); try lia.
  done.
Defined.

(** ** What holds of every state the client can reach *)

Definition is_flush (t : Microtask) : bool :=
  match t with RunFlush => true | _ => false end.

(** The flushes waiting in the microtask queue. *)
Definition flushes (σ : State) : nat :=
  length (filter (λ t, is_flush t = true) (microtasks σ)).

(** The batches posted so far, oldest first. *)
Definition batches (σ : State) : list (list BatchOperation) :=
  omap (λ o, match o with
             | Sent (PostBatch operations) => Some operations
             | _ => None
             end) (observed σ).

(** What batching is about: the operations queued, the schedule flag,
    the flushes waiting, the batches posted. *)
Record Schedule := {
  queued : list BatchOperation;
  flag : bool;
  waiting : nat;
  posted : list (list BatchOperation)
}.

Definition schedule_of (σ : State) : Schedule :=
  {| queued := operation <$> batchQueue σ; flag := batchScheduled σ;
     waiting := flushes σ; posted := batches σ |}.

(** The two ways a method changes the schedule: it queues an operation
    (a read only of a key no queued operation reads) and sees to it that
    a flush is scheduled, or it posts a batch of its own that reads
    nothing. *)
Inductive moves : Schedule → Schedule → Prop :=
| moves_enqueue v o :
    (∀ key, o = OpGet key → key ∉ read_keys (queued v)) →
    moves v {| queued := queued v ++ [o]; flag := true;
               waiting := if flag v then waiting v else S (waiting v);
               posted := posted v |}
| moves_post v operations :
    read_keys operations = [] →
    moves v {| queued := queued v; flag := flag v; waiting := waiting v;
               posted := posted v ++ [operations] |}.

Definition reaches (σ σ' : State) : Prop :=
  rtc moves (schedule_of σ) (schedule_of σ').

Record scheduled_ok (v : Schedule) : Prop := {
  ok_waiting : waiting v = if flag v then 1%nat else 0%nat;
  ok_flag : queued v ≠ [] → flag v = true;
  ok_queued : NoDup (read_keys (queued v));
  ok_posted : Forall (λ operations, NoDup (read_keys operations)) (posted v)
}.

Section schedule.

Implicit Types (σ : State) (v : Schedule).

Lemma same_schedule σ σ' :
  operation <$> batchQueue σ' = operation <$> batchQueue σ →
  batchScheduled σ' = batchScheduled σ →
  flushes σ' = flushes σ →
  batches σ' = batches σ →
  schedule_of σ' = schedule_of σ.
Proof. unfold schedule_of. by intros -> -> -> ->. Qed.

Lemma reaches_same σ σ' : schedule_of σ' = schedule_of σ → reaches σ σ'.
Proof. unfold reaches. by intros ->. Qed.

Lemma reaches_trans σ1 σ2 σ3 : reaches σ1 σ2 → reaches σ2 σ3 → reaches σ1 σ3.
Proof. apply rtc_trans. Qed.

Lemma reaches_then σ1 σ2 σ3 :
  reaches σ1 σ2 → schedule_of σ3 = schedule_of σ2 → reaches σ1 σ3.
Proof. unfold reaches. by intros ? ->. Qed.

Lemma filter_resumes o (rs : list Frame) :
  filter (λ t, is_flush t = true) ((λ f, Resume f o) <$> rs) = [].
Proof. by induction rs. Qed.

Lemma schedule_settle p o σ : schedule_of (settle p o σ) = schedule_of σ.
Proof.
  destruct (settle_frame p o σ) as (Hq & Hs & _ & _ & _ & Ho & _).
  apply same_schedule; [by rewrite Hq|done| |unfold batches; by rewrite Ho].
  unfold flushes. rewrite settle_microtasks, filter_app, length_app.
  destruct (promises σ !! p) as [[rs|]|]; rewrite ?filter_resumes; simpl; lia.
Qed.

Lemma schedule_settle_all l σ : schedule_of (settle_all l σ) = schedule_of σ.
Proof.
  revert σ. induction l as [|[p o] l IH]; intros σ; [done|].
  by rewrite settle_all_cons, IH, schedule_settle.
Qed.

Lemma schedule_await p f σ : schedule_of (await p f σ) = schedule_of σ.
Proof.
  unfold await. destruct (promises σ !! p) as [[rs|o]|]; try done.
  apply same_schedule; try done.
  unfold flushes. simpl. rewrite filter_app, length_app. simpl. lia.
Qed.

Lemma schedule_fan_out queue results index σ :
  schedule_of (fan_out queue results index σ).1 = schedule_of σ.
Proof.
  revert index σ. induction results as [|result results IH]; intros index σ;
    [done|].
  rewrite fan_out_cons. destruct (payload result) as [value|]; [|apply IH].
  destruct (queue !! index) as [item|]; [|done].
  by rewrite IH, call_resolve_settle_all, schedule_settle_all.
Qed.

Lemma schedule_flush_settled queue r σ :
  schedule_of (flush_settled queue r σ) = schedule_of σ.
Proof.
  unfold flush_settled. destruct r as [body|error].
  - destruct (body_results body) as [results|].
    + pose proof (schedule_fan_out queue results 0 σ) as Hfan.
      destruct (fan_out queue results 0 σ) as [σ' [error|]]; simpl in Hfan.
      * by rewrite reject_all_settle_all, schedule_settle_all.
      * done.
    + by rewrite reject_all_settle_all, schedule_settle_all.
  - by rewrite reject_all_settle_all, schedule_settle_all.
Qed.

Lemma schedule_complete i fetches σ :
  schedule_of (complete i fetches σ) = schedule_of σ.
Proof.
  unfold complete. destruct (requests σ !! i) as [[r f]|]; [|done].
  destruct (Http.send (http σ) r fetches) as [result effects].
  apply same_schedule; try done.
  - unfold flushes. simpl. rewrite filter_app, length_app. simpl. lia.
  - unfold batches. simpl. by rewrite omap_app, app_nil_r.
Qed.

Lemma schedule_refuse i message σ :
  schedule_of (refuse i message σ) = schedule_of σ.
Proof.
  unfold refuse. destruct (requests σ !! i) as [[r f]|]; [|done].
  apply same_schedule; try done.
  - unfold flushes. simpl. rewrite filter_app, length_app. simpl. lia.
  - unfold batches. simpl. by rewrite omap_app, app_nil_r.
Qed.

Lemma schedule_call_fallback fallback flight σ :
  schedule_of (call_fallback fallback flight σ).1 = schedule_of σ.
Proof.
  unfold call_fallback. destruct (throws fallback) as [error|];
    (apply same_schedule; try done; unfold batches; simpl;
     by rewrite omap_app, app_nil_r).
Qed.

Lemma schedule_remember_finally key promise o σ :
  schedule_of (remember_finally key promise o σ) = schedule_of σ.
Proof. unfold remember_finally. by rewrite schedule_settle. Qed.

Lemma schedule_rememberAll_finally prefix promise o σ :
  schedule_of (rememberAll_finally prefix promise o σ) = schedule_of σ.
Proof. unfold rememberAll_finally. by rewrite schedule_settle. Qed.

Lemma schedule_rememberAll_return prefix options items promise σ :
  schedule_of (rememberAll_return prefix options items promise σ) = schedule_of σ.
Proof.
  unfold rememberAll_return.
  destruct (getKey_raises options items); apply schedule_rememberAll_finally.
Qed.

Lemma schedule_rememberAll_fetch prefix fallback options promise σ :
  schedule_of (rememberAll_fetch prefix fallback options promise σ)
  = schedule_of σ.
Proof.
  unfold rememberAll_fetch.
  pose proof (schedule_call_fallback fallback promise σ) as Hcall.
  destruct (call_fallback fallback promise σ) as [σ' [q|error]]; simpl in Hcall.
  - by rewrite schedule_await.
  - by rewrite schedule_rememberAll_finally.
Qed.

Lemma schedule_scan prefix f σ :
  schedule_of (http_send (GetScan prefix) f σ) = schedule_of σ.
Proof.
  apply same_schedule; try done. unfold batches. simpl.
  by rewrite omap_app, app_nil_r.
Qed.

Lemma read_keys_cache_operations prefix options items :
  read_keys (cache_operations prefix options items) = [].
Proof. by induction items. Qed.

Lemma post_reaches operations f σ :
  read_keys operations = [] →
  reaches σ (http_send (PostBatch operations) f σ).
Proof.
  intros Hreads. apply rtc_once.
  replace (schedule_of (http_send (PostBatch operations) f σ))
    with {| queued := queued (schedule_of σ); flag := flag (schedule_of σ);
            waiting := waiting (schedule_of σ);
            posted := posted (schedule_of σ) ++ [operations] |}.
  - by constructor.
  - unfold schedule_of, batches. simpl. by rewrite omap_app.
Qed.

Lemma enqueue_reaches item σ :
  (∀ key, operation item = OpGet key →
     key ∉ read_keys (operation <$> batchQueue σ)) →
  reaches σ (enqueue item σ).
Proof.
  intros Hread. apply rtc_once.
  replace (schedule_of (enqueue item σ))
    with {| queued := queued (schedule_of σ) ++ [operation item]; flag := true;
            waiting := if flag (schedule_of σ) then waiting (schedule_of σ)
                       else S (waiting (schedule_of σ));
            posted := posted (schedule_of σ) |}.
  - by constructor.
  - destruct (scheduleBatch_fields (with_batchQueue (batchQueue σ ++ [item]) σ))
      as (Hq & _ & Hs & Hm & _ & Ho & _).
    unfold enqueue, schedule_of, flushes, batches. rewrite Hq, Hs, Hm, Ho.
    simpl. rewrite fmap_app. simpl. destruct (batchScheduled σ); [done|].
    rewrite filter_app, length_app. simpl. f_equal. lia.
Qed.

Lemma lix_set_reaches key value options σ :
  reaches σ (lix_set key value options σ).1.
Proof.
  unfold lix_set, new_promise. cbn [fst].
  eapply reaches_trans; [|by apply enqueue_reaches]. by apply reaches_same.
Qed.

Lemma lix_delete_reaches key σ : reaches σ (lix_delete key σ).1.
Proof.
  unfold lix_delete, new_promise. cbn [fst].
  eapply reaches_trans; [|by apply enqueue_reaches]. by apply reaches_same.
Qed.

Lemma lix_get_reaches key σ : reaches σ (lix_get key σ).1.
Proof.
  unfold lix_get.
  destruct (list_find _ (batchQueue σ)) as [[i existing]|] eqn:Hfind.
  - apply list_find_get_Some in Hfind as (Hi & _ & _).
    unfold new_promise. cbn [fst]. apply reaches_same, same_schedule; try done.
    simpl. rewrite list_fmap_insert. simpl.
    apply list_insert_id. by rewrite list_lookup_fmap, Hi.
  - apply list_find_get_None in Hfind.
    unfold new_promise. cbn [fst].
    eapply reaches_trans; [|apply enqueue_reaches]; [by apply reaches_same|].
    simpl. intros key' [= <-] Hin%existsb_is_get_op. congruence.
Qed.

Lemma lix_exists_reaches key σ : reaches σ (lix_exists key σ).1.
Proof.
  unfold lix_exists, new_promise.
  pose proof (lix_get_reaches key (with_promises (promises σ ++ [Pending []]) σ))
    as Hget.
  destruct (lix_get key _) as [σ' value]. cbn [fst] in *.
  eapply reaches_then; [exact Hget|]. apply schedule_await.
Qed.

Lemma remember_reaches key fallback options σ :
  reaches σ (remember key fallback options σ).1.
Proof.
  unfold remember. destruct (rememberPromises σ !! key); [by apply reaches_same|].
  unfold new_promise.
  pose proof (lix_get_reaches key (with_promises (promises σ ++ [Pending []]) σ))
    as Hget.
  destruct (lix_get key _) as [σ' cached]. cbn [fst] in *.
  eapply reaches_then; [exact Hget|].
  etrans; [|apply (schedule_await cached
                     (RememberAfterGet key fallback options (length (promises σ))))].
  done.
Qed.

Lemma rememberAll_reaches prefix fallback options σ :
  reaches σ (rememberAll prefix fallback options σ).1.
Proof.
  unfold rememberAll.
  destruct (rememberAllPromises σ !! prefix); [by apply reaches_same|].
  unfold new_promise. destruct (listTTL options) as [t|].
  - pose proof (lix_exists_reaches (listMarkerKey prefix)
                  (with_promises (promises σ ++ [Pending []]) σ)) as Hexists.
    destruct (lix_exists _ _) as [σ' markerExists]. cbn [fst] in *.
    eapply reaches_then; [exact Hexists|].
    etrans; [|apply (schedule_await markerExists
                       (RememberAllAfterExists prefix fallback options
                          (length (promises σ))))].
    done.
  - cbn [fst]. apply reaches_same.
    transitivity
      (schedule_of (rememberAll_fetch prefix fallback options
                      (length (promises σ))
                      (with_promises (promises σ ++ [Pending []]) σ)));
      [done|].
    by rewrite schedule_rememberAll_fetch.
Qed.

Lemma call_reaches c σ : reaches σ (call c σ).1.
Proof.
  destruct c; cbn [call];
    auto using lix_set_reaches, lix_get_reaches, lix_delete_reaches,
      lix_exists_reaches, remember_reaches, rememberAll_reaches.
Qed.

Lemma resume_reaches f o σ : reaches σ (resume f o σ).
Proof.
  destruct f, o as [v|error]; cbn [resume];
    try (apply reaches_same;
         by rewrite ?schedule_remember_finally, ?schedule_rememberAll_finally,
              ?schedule_rememberAll_return, ?schedule_settle).
  - destruct (not_null v);
      [apply reaches_same; by rewrite schedule_remember_finally|].
    pose proof (schedule_call_fallback fallback promise σ) as Hcall.
    destruct (call_fallback fallback promise σ) as [σ' [q|error]];
      simpl in Hcall; apply reaches_same;
      by rewrite ?schedule_await, ?schedule_remember_finally.
  - pose proof (lix_set_reaches key v options σ) as Hset.
    destruct (lix_set key v options σ) as [σ' stored]. cbn [fst] in Hset.
    eapply reaches_then; [exact Hset|]. apply schedule_await.
  - destruct (truthy v);
      apply reaches_same; by rewrite ?schedule_scan, ?schedule_rememberAll_fetch.
  - destruct v;
      try (apply reaches_same; by rewrite schedule_rememberAll_finally).
    destruct (getKey_raises options elements);
      [apply reaches_same; by rewrite schedule_rememberAll_finally|].
    apply post_reaches, read_keys_cache_operations.
Qed.

Lemma resume_http_reaches f r σ : reaches σ (resume_http f r σ).
Proof.
  destruct f as [queue|pre options promise|pre options items promise],
    r as [body|error]; cbn [resume_http];
    try (apply reaches_same;
         by rewrite ?schedule_flush_settled, ?schedule_rememberAll_finally,
              ?schedule_rememberAll_return).
  destruct (listTTL options) as [t|];
    [|apply reaches_same; by rewrite schedule_rememberAll_return].
  pose proof (lix_set_reaches (listMarkerKey pre) (VBool true)
                (Some {| ttl := Some t |}) σ) as Hset.
  destruct (lix_set _ _ _ σ) as [σ' stored]. cbn [fst] in Hset.
  eapply reaches_then; [exact Hset|]. apply schedule_await.
Qed.

Lemma moves_ok v v' : scheduled_ok v → moves v v' → scheduled_ok v'.
Proof.
  intros Hok Hmove.
  destruct Hmove as [v o Hread|v operations Hreads];
    destruct Hok as [Hwaiting Hflag Hqueued Hposted]; split; simpl; try done.
  - rewrite Hwaiting. by destruct (flag v).
  - rewrite read_keys_app. destruct o as [key| |]; simpl;
      rewrite ?app_nil_r; try done.
    apply NoDup_app. split_and!; [done| |apply NoDup_singleton].
    intros k Hk ->%list_elem_of_singleton. by apply (Hread key).
  - apply Forall_app. split; [done|]. apply Forall_singleton.
    rewrite Hreads. constructor.
Qed.

Lemma reaches_ok σ σ' :
  reaches σ σ' → scheduled_ok (schedule_of σ) → scheduled_ok (schedule_of σ').
Proof.
  unfold reaches. induction 1 as [|v1 v2 v3 Hmove _ IH]; [done|].
  intros Hok. apply IH. by eapply moves_ok.
Qed.

(** The flush itself. *)
Lemma flushBatch_ok rest σ :
  microtasks σ = RunFlush :: rest →
  scheduled_ok (schedule_of σ) →
  scheduled_ok (schedule_of (flushBatch (with_microtasks rest σ))).
Proof.
  intros Hm [Hwaiting Hflag Hqueued Hposted].
  unfold schedule_of, flushes in Hwaiting. simpl in Hwaiting.
  rewrite Hm, filter_cons_True in Hwaiting by done. simpl in Hwaiting.
  assert (length (filter (λ t, is_flush t = true) rest) = 0%nat) as Hrest.
  { destruct (batchScheduled σ); lia. }
  simpl in Hflag, Hqueued, Hposted.
  unfold flushBatch. simpl. destruct (batchQueue σ) as [|item queue] eqn:Hq.
  - split; unfold flushes; simpl; rewrite ?Hq; done.
  - split; unfold flushes; simpl; try done; [constructor|].
    unfold batches. simpl. rewrite omap_app. simpl.
    apply Forall_app. split; [done|]. by apply Forall_singleton.
Qed.

Lemma step_ok e σ :
  scheduled_ok (schedule_of σ) → scheduled_ok (schedule_of (step e σ)).
Proof.
  intros Hok. destruct e as [c| |i|i fetches|i message|q o|ms]; cbn [step].
  - apply (reaches_ok σ); [apply call_reaches|done].
  - destruct (microtasks σ) as [|t rest] eqn:Hm; [done|].
    destruct t as [|f o|f r]; cbn [run_task].
    + by apply flushBatch_ok.
    + apply (reaches_ok (with_microtasks rest σ)); [apply resume_reaches|].
      replace (schedule_of (with_microtasks rest σ)) with (schedule_of σ);
        [done|].
      unfold schedule_of, flushes. simpl. by rewrite Hm.
    + apply (reaches_ok (with_microtasks rest σ)); [apply resume_http_reaches|].
      replace (schedule_of (with_microtasks rest σ)) with (schedule_of σ);
        [done|].
      unfold schedule_of, flushes. simpl. by rewrite Hm.
  - destruct (requests σ !! i) as [[r f]|] eqn:Hr; [|done].
    destruct (Server.handle (Http.wire r) (server σ)) as [c answer].
    by rewrite schedule_complete.
  - by rewrite schedule_complete.
  - by rewrite schedule_refuse.
  - destruct (produced q σ); [|done]. by rewrite schedule_settle.
  - done.
Qed.

Lemma reachable_ok σ : reachable σ → scheduled_ok (schedule_of σ).
Proof.
  induction 1 as [config c|e σ _ IH]; [|by apply step_ok].
  split; simpl; try done; constructor.
Qed.

End schedule.

(** X17.  In every state the client can reach, as long as operations are
    queued the schedule flag is up, and the flag is up exactly when a
    flush waits in the microtask queue, and then exactly one: no queued
    operation is left without a flush to send it, and no cycle gets two. *)
Theorem queue_never_waits_without_a_flush σ :
  reachable σ →
  (batchQueue σ ≠ [] → batchScheduled σ = true)
  ∧ flushes σ = (if batchScheduled σ then 1 else 0)%nat
  ∧ (batchScheduled σ = true ↔ RunFlush ∈ microtasks σ).
Proof.
  intros [Hwaiting Hflag _ _]%reachable_ok. simpl in *. split_and!.
  - intros Hq. apply Hflag. by destruct (batchQueue σ).
  - done.
  - unfold flushes in Hwaiting. split.
    + intros Hs. rewrite Hs in Hwaiting.
      destruct (filter _ (microtasks σ)) as [|t ts] eqn:Hf; [done|].
      assert (t ∈ filter (λ t, is_flush t = true) (microtasks σ)) as Hin
        by (rewrite Hf; left).
      apply list_elem_of_filter in Hin as [Hflush Hin]. by destruct t.
    + intros Hin. destruct (batchScheduled σ); [done|].
      assert (RunFlush ∈ filter (λ t, is_flush t = true) (microtasks σ)) as Hf
        by (by apply list_elem_of_filter).
      destruct (filter _ (microtasks σ)); [by apply elem_of_nil in Hf|done].
Qed.

Lemma queue_never_waits_without_a_flush_witness :
  batchScheduled (step (Call (CallGet "K"))
                    (initial Http.default_config empty_cache)) = true.
Proof.
  refine (proj1 (queue_never_waits_without_a_flush _
                   (reachable_step (Call (CallGet "K")) _
                      (reachable_initial Http.default_config empty_cache))) _).
  done.
Defined.

(** X18.  In every state the client can reach, the queue holds at most one
    read of any key, and so does every batch that was ever sent, whoever
    queued the reads: [get], [exists], [remember] or [rememberAll]. *)
Theorem no_batch_reads_a_key_twice σ :
  reachable σ →
  NoDup (read_keys (operation <$> batchQueue σ))
  ∧ ∀ operations, Sent (PostBatch operations) ∈ observed σ →
      NoDup (read_keys operations).
Proof.
  intros [_ _ Hqueued Hposted]%reachable_ok. simpl in *.
  split; [done|]. intros operations Hsent.
  eapply (proj1 (Forall_forall _ _) Hposted).
  unfold batches. apply list_elem_of_omap. by exists (Sent (PostBatch operations)).
Qed.

Lemma no_batch_reads_a_key_twice_witness :
  NoDup (read_keys (operation <$> batchQueue
           (run [Call (CallGet "K"); Call (CallExists "K")]
              (initial Http.default_config empty_cache)))).
Proof.
  exact (proj1 (no_batch_reads_a_key_twice _
                  (reachable_step (Call (CallExists "K")) _
                     (reachable_step (Call (CallGet "K")) _
                        (reachable_initial Http.default_config empty_cache))))).
Defined.

(** ** One invocation per flight *)

(** The frames waiting on a promise, and the frame a microtask resumes. *)
Definition reactions (promise : Promise) : list Frame :=
  match promise with Pending rs => rs | Settled _ => [] end.

Definition resumed (t : Microtask) : list Frame :=
  match t with Resume f _ => [f] | _ => [] end.

(** The flight on whose behalf a frame may still call a producer: the
    two frames that do are the one of [remember] after its read and the
    one of [rememberAll] after its look at the marker. *)
Definition flight_of (f : Frame) : list nat :=
  match f with
  | RememberAfterGet _ _ _ promise
  | RememberAllAfterExists _ _ _ promise => [promise]
  | _ => []
  end.

(** The flight a producer was invoked for. *)
Definition invocation (o : Observed) : list nat :=
  match o with Invoked _ flight _ => [flight] | _ => [] end.

Definition tally (p : nat) (l : list nat) : nat :=
  length (filter (λ q, q = p) l).

(** How often flight [p] has invoked its producer or may yet do so. *)
Definition invoked (p : nat) (σ : State) : nat :=
  tally p (observed σ ≫= invocation).

Definition parked (p : nat) (σ : State) : nat :=
  tally p ((promises σ ≫= reactions) ≫= flight_of).

Definition resuming (p : nat) (σ : State) : nat :=
  tally p ((microtasks σ ≫= resumed) ≫= flight_of).

Definition uses (p : nat) (σ : State) : nat :=
  (invoked p σ + parked p σ + resuming p σ)%nat.

(** What a frame adds to the uses of [p] while it waits. *)
Definition token (f : Frame) (p : nat) : nat := tally p (flight_of f).

Definition single_flight (σ : State) : Prop :=
  ∀ p, (uses p σ ≤ 1)%nat ∧ ((length (promises σ) ≤ p)%nat → uses p σ = 0%nat).

(** Nothing gains a use and no promise is lost. *)
Definition calm (σ σ' : State) : Prop :=
  (length (promises σ) ≤ length (promises σ'))%nat
  ∧ ∀ p, (uses p σ' ≤ uses p σ)%nat.

Ltac state_fields :=
  cbn [with_batchQueue with_batchScheduled with_rememberPromises
       with_rememberAllPromises with_promises with_microtasks with_requests
       with_observed with_server http_send new_promise
       batchQueue batchScheduled rememberPromises rememberAllPromises promises
       microtasks requests observed server http fst snd].

Section flights.

Implicit Types (σ : State) (p q : nat).

Lemma tally_app p (l1 l2 : list nat) :
  tally p (l1 ++ l2) = (tally p l1 + tally p l2)%nat.
Proof. unfold tally. by rewrite filter_app, length_app. Qed.

Lemma tally_singleton p q : tally p [q] = if decide (q = p) then 1%nat else 0%nat.
Proof.
  unfold tally. rewrite filter_cons. by destruct (decide (q = p)).
Qed.

Lemma tally_le_1_NoDup (l : list nat) :
  (∀ p, (tally p l ≤ 1)%nat) → NoDup l.
Proof.
  induction l as [|q l IH]; intros Hl; [constructor|].
  constructor.
  - intros Hin. specialize (Hl q). unfold tally in Hl.
    rewrite filter_cons_True in Hl by done. simpl in Hl.
    assert (q ∈ filter (λ q', q' = q) l) as Hf by (by apply list_elem_of_filter).
    destruct (filter _ l); [by apply elem_of_nil in Hf|simpl in Hl; lia].
  - apply IH. intros p. specialize (Hl p).
    change (q :: l) with ([q] ++ l) in Hl. rewrite tally_app in Hl. lia.
Qed.

Lemma calm_refl σ : calm σ σ.
Proof. by split. Qed.

Lemma calm_trans σ1 σ2 σ3 : calm σ1 σ2 → calm σ2 σ3 → calm σ1 σ3.
Proof.
  intros [Hlen1 Huses1] [Hlen2 Huses2]. split; [lia|].
  intros p. specialize (Huses1 p). specialize (Huses2 p). lia.
Qed.

Lemma calm_same σ σ' :
  observed σ' = observed σ → promises σ' = promises σ →
  microtasks σ' ≫= resumed = microtasks σ ≫= resumed →
  calm σ σ'.
Proof.
  intros Ho Hp Hm. split; [by rewrite Hp|].
  intros p. unfold uses, invoked, parked, resuming. by rewrite Ho, Hp, Hm.
Qed.

Lemma calm_ok σ σ' : calm σ σ' → single_flight σ → single_flight σ'.
Proof.
  intros [Hlen Huses] Hok p. specialize (Huses p).
  destruct (Hok p) as [Hle Hfresh]. split; [lia|].
  intros Hp. rewrite Hfresh in Huses by lia. lia.
Qed.

Lemma resumed_resumes o (rs : list Frame) :
  ((λ f, Resume f o) <$> rs) ≫= resumed = rs.
Proof. induction rs as [|f rs IH]; [done|]. by rewrite fmap_cons, bind_cons, IH. Qed.

Lemma reactions_insert (promises : list Promise) i promise promise' :
  promises !! i = Some promise →
  <[i := promise']> promises ≫= reactions
  = (take i promises ≫= reactions) ++ reactions promise'
      ++ (drop (S i) promises ≫= reactions).
Proof.
  intros Hi. rewrite insert_take_drop by (by eapply lookup_lt_Some).
  by rewrite bind_app, bind_cons.
Qed.

Lemma reactions_lookup (promises : list Promise) i promise :
  promises !! i = Some promise →
  promises ≫= reactions
  = (take i promises ≫= reactions) ++ reactions promise
      ++ (drop (S i) promises ≫= reactions).
Proof.
  intros Hi. rewrite <- (take_drop_middle promises i promise) at 1 by done.
  by rewrite bind_app, bind_cons.
Qed.

(** Settling moves the waiting frames to the microtask queue. *)
Lemma settle_uses p o σ q : uses q (settle p o σ) = uses q σ.
Proof.
  unfold settle. destruct (promises σ !! p) as [[rs|o']|] eqn:Hp; try done.
  unfold uses, invoked, parked, resuming. state_fields.
  rewrite (reactions_insert _ _ _ _ Hp), (reactions_lookup _ _ _ Hp).
  rewrite !bind_app, resumed_resumes, !tally_app. simpl. lia.
Qed.

Lemma settle_calm p o σ : calm σ (settle p o σ).
Proof.
  split.
  - by destruct (settle_frame p o σ) as (_ & _ & _ & _ & _ & _ & _ & _ & ->).
  - intros q. by rewrite settle_uses.
Qed.

Lemma settle_all_calm l σ : calm σ (settle_all l σ).
Proof.
  revert σ. induction l as [|[p o] l IH]; intros σ; [apply calm_refl|].
  rewrite settle_all_cons. eapply calm_trans; [apply settle_calm|apply IH].
Qed.

Lemma await_uses p f σ :
  length (promises (await p f σ)) = length (promises σ)
  ∧ ∀ q, (uses q (await p f σ) ≤ uses q σ + token f q)%nat.
Proof.
  unfold await. destruct (promises σ !! p) as [[rs|o]|] eqn:Hp.
  - split; [simpl; by rewrite length_insert|]. intros q.
    unfold uses, invoked, parked, resuming, token. state_fields.
    rewrite (reactions_insert _ _ _ _ Hp), (reactions_lookup _ _ _ Hp).
    cbn [reactions]. rewrite !bind_app, !tally_app, bind_singleton. lia.
  - split; [done|]. intros q.
    unfold uses, invoked, parked, resuming, token. state_fields.
    rewrite !bind_app, tally_app, bind_singleton. cbn [resumed].
    rewrite bind_singleton. lia.
  - split; [done|]. intros q. lia.
Qed.

Lemma await_calm p f σ : flight_of f = [] → calm σ (await p f σ).
Proof.
  intros Hf. destruct (await_uses p f σ) as [Hlen Huses]. split; [lia|].
  intros q. specialize (Huses q). unfold token in Huses. rewrite Hf in Huses.
  change (tally q []) with 0%nat in Huses. lia.
Qed.

Lemma new_promise_calm σ : calm σ (new_promise σ).1.
Proof.
  split; [simpl; rewrite length_app; simpl; lia|]. intros p.
  unfold uses, invoked, parked, resuming. state_fields.
  by rewrite bind_app, bind_singleton, app_nil_r.
Qed.

Lemma http_send_calm r f σ : calm σ (http_send r f σ).
Proof.
  split; [done|]. intros p. unfold uses, invoked, parked, resuming.
  state_fields. by rewrite bind_app, bind_singleton, app_nil_r.
Qed.

Lemma enqueue_calm item σ : calm σ (enqueue item σ).
Proof.
  unfold enqueue, scheduleBatch. state_fields. destruct (batchScheduled σ).
  - by apply calm_same.
  - apply calm_same; try done. state_fields.
    by rewrite bind_app, bind_singleton, app_nil_r.
Qed.

Lemma lix_set_calm key value options σ : calm σ (lix_set key value options σ).1.
Proof.
  unfold lix_set. cbn [new_promise fst].
  eapply calm_trans; [apply new_promise_calm|apply enqueue_calm].
Qed.

Lemma lix_delete_calm key σ : calm σ (lix_delete key σ).1.
Proof.
  unfold lix_delete. cbn [new_promise fst].
  eapply calm_trans; [apply new_promise_calm|apply enqueue_calm].
Qed.

Lemma lix_get_calm key σ : calm σ (lix_get key σ).1.
Proof.
  unfold lix_get. destruct (list_find _ (batchQueue σ)) as [[i existing]|].
  - cbn [new_promise fst].
    eapply calm_trans; [apply new_promise_calm|]. by apply calm_same.
  - cbn [new_promise fst].
    eapply calm_trans; [apply new_promise_calm|apply enqueue_calm].
Qed.

Lemma lix_exists_calm key σ : calm σ (lix_exists key σ).1.
Proof.
  unfold lix_exists. cbn [new_promise].
  pose proof (lix_get_calm key (with_promises (promises σ ++ [Pending []]) σ))
    as Hget.
  destruct (lix_get key _) as [σ' value]. cbn [fst] in *.
  eapply calm_trans; [apply new_promise_calm|].
  eapply calm_trans; [exact Hget|]. by apply await_calm.
Qed.

Lemma fan_out_calm queue results index σ :
  calm σ (fan_out queue results index σ).1.
Proof.
  revert index σ. induction results as [|result results IH]; intros index σ;
    [apply calm_refl|].
  rewrite fan_out_cons. destruct (payload result) as [value|]; [|apply IH].
  destruct (queue !! index) as [item|]; [|apply calm_refl].
  eapply calm_trans; [|apply IH].
  rewrite call_resolve_settle_all. apply settle_all_calm.
Qed.

Lemma flush_settled_calm queue r σ : calm σ (flush_settled queue r σ).
Proof.
  unfold flush_settled. destruct r as [body|error].
  - destruct (body_results body) as [results|].
    + pose proof (fan_out_calm queue results 0 σ) as Hfan.
      destruct (fan_out queue results 0 σ) as [σ' [error|]]; simpl in Hfan;
        [|done].
      eapply calm_trans; [exact Hfan|].
      rewrite reject_all_settle_all. apply settle_all_calm.
    + rewrite reject_all_settle_all. apply settle_all_calm.
  - rewrite reject_all_settle_all. apply settle_all_calm.
Qed.

Lemma flushBatch_calm σ : calm σ (flushBatch σ).
Proof.
  unfold flushBatch. simpl. destruct (batchQueue σ); [by apply calm_same|].
  eapply calm_trans; [|apply http_send_calm]. by apply calm_same.
Qed.

Lemma complete_calm i fetches σ : calm σ (complete i fetches σ).
Proof.
  unfold complete. destruct (requests σ !! i) as [[r f]|]; [|apply calm_refl].
  destruct (Http.send (http σ) r fetches) as [result effects].
  split; [done|]. intros p. unfold uses, invoked, parked, resuming.
  state_fields. by rewrite !bind_app, !bind_singleton, !app_nil_r.
Qed.

Lemma remember_finally_calm key promise o σ :
  calm σ (remember_finally key promise o σ).
Proof.
  unfold remember_finally.
  eapply calm_trans; [|apply settle_calm]. by apply calm_same.
Qed.

Lemma rememberAll_finally_calm pre promise o σ :
  calm σ (rememberAll_finally pre promise o σ).
Proof.
  unfold rememberAll_finally.
  eapply calm_trans; [|apply settle_calm]. by apply calm_same.
Qed.

Lemma rememberAll_return_calm pre options items promise σ :
  calm σ (rememberAll_return pre options items promise σ).
Proof.
  unfold rememberAll_return.
  destruct (getKey_raises options items); apply rememberAll_finally_calm.
Qed.

Lemma refuse_calm i message σ : calm σ (refuse i message σ).
Proof.
  unfold refuse, Http.buildUrl_throws.
  destruct (requests σ !! i) as [[r f]|]; [|apply calm_refl].
  split; [done|]. intros p. unfold uses, invoked, parked, resuming.
  state_fields. by rewrite !bind_app, !bind_singleton, !app_nil_r.
Qed.

(** Calling the producer is one use by the flight it is called for. *)
Lemma call_fallback_uses fallback flight σ :
  (length (promises σ) ≤ length (promises (call_fallback fallback flight σ).1))%nat
  ∧ ∀ q, (uses q (call_fallback fallback flight σ).1
          ≤ uses q σ + tally q [flight])%nat.
Proof.
  unfold call_fallback. destruct (throws fallback) as [error|].
  - split; [done|]. intros q. unfold uses, invoked, parked, resuming.
    state_fields. rewrite bind_app, tally_app, bind_singleton. cbn [invocation].
    lia.
  - split; [simpl; rewrite length_app; simpl; lia|]. intros q.
    unfold uses, invoked, parked, resuming. state_fields.
    rewrite !bind_app, tally_app, !bind_singleton. cbn [invocation reactions].
    rewrite app_nil_r. lia.
Qed.

Lemma rememberAll_fetch_uses pre fallback options promise σ :
  (length (promises σ)
   ≤ length (promises (rememberAll_fetch pre fallback options promise σ)))%nat
  ∧ ∀ q, (uses q (rememberAll_fetch pre fallback options promise σ)
          ≤ uses q σ + tally q [promise])%nat.
Proof.
  unfold rememberAll_fetch.
  destruct (call_fallback_uses fallback promise σ) as [Hlen Huses].
  destruct (call_fallback fallback promise σ) as [σ' [produced|error]];
    simpl in Hlen, Huses.
  - destruct (await_calm produced (RememberAllAfterFallback pre options promise)
                σ' eq_refl) as [Hlen' Huses'].
    split; [lia|]. intros q. specialize (Huses q). specialize (Huses' q). lia.
  - destruct (rememberAll_finally_calm pre promise (Rejected error) σ')
      as [Hlen' Huses'].
    split; [lia|]. intros q. specialize (Huses q). specialize (Huses' q). lia.
Qed.

(** A resumed frame uses at most its own token. *)
Lemma resume_uses f o σ :
  (length (promises σ) ≤ length (promises (resume f o σ)))%nat
  ∧ ∀ q, (uses q (resume f o σ) ≤ uses q σ + token f q)%nat.
Proof.
  assert (∀ σ', calm σ σ' →
            (length (promises σ) ≤ length (promises σ'))%nat
            ∧ ∀ q, (uses q σ' ≤ uses q σ + token f q)%nat) as Hcalm.
  { intros σ' [Hlen Huses]. split; [done|]. intros q. specialize (Huses q). lia. }
  destruct f as [promise|key fallback options promise|key options promise
                |key value promise|pre fallback options promise
                |pre options promise|pre options items promise],
    o as [v|error]; cbn [resume];
    try (apply Hcalm;
         first [apply settle_calm|apply remember_finally_calm
               |apply rememberAll_finally_calm|apply rememberAll_return_calm]).
  - destruct (not_null v); [apply Hcalm, remember_finally_calm|].
    destruct (call_fallback_uses fallback promise σ) as [Hlen Huses].
    destruct (call_fallback fallback promise σ) as [σ' [produced|error]];
      simpl in Hlen, Huses.
    + destruct (await_calm produced (RememberAfterFallback key options promise)
                  σ' eq_refl) as [Hlen' Huses'].
      split; [lia|]. intros q. specialize (Huses q). specialize (Huses' q).
      unfold token. simpl. lia.
    + destruct (remember_finally_calm key promise (Rejected error) σ')
        as [Hlen' Huses'].
      split; [lia|]. intros q. specialize (Huses q). specialize (Huses' q).
      unfold token. simpl. lia.
  - apply Hcalm.
    pose proof (lix_set_calm key v options σ) as Hset.
    destruct (lix_set key v options σ) as [σ' stored]. cbn [fst] in Hset.
    eapply calm_trans; [exact Hset|]. by apply await_calm.
  - destruct (truthy v); [apply Hcalm, http_send_calm|].
    apply rememberAll_fetch_uses.
  - apply Hcalm. destruct v; try apply rememberAll_finally_calm.
    destruct (getKey_raises options elements);
      first [apply rememberAll_finally_calm|apply http_send_calm].
Qed.

Lemma resume_http_calm f r σ : calm σ (resume_http f r σ).
Proof.
  destruct f as [queue|pre options promise|pre options items promise],
    r as [body|error]; cbn [resume_http];
    try first [apply flush_settled_calm|apply rememberAll_finally_calm
              |apply rememberAll_return_calm].
  destruct (listTTL options) as [t|]; [|apply rememberAll_return_calm].
  pose proof (lix_set_calm (listMarkerKey pre) (VBool true)
                (Some {| ttl := Some t |}) σ) as Hset.
  destruct (lix_set _ _ _ σ) as [σ' stored]. cbn [fst] in Hset.
  eapply calm_trans; [exact Hset|]. by apply await_calm.
Qed.

(** A call starts at most one flight, under a promise that is new. *)
Definition starts (σ σ' : State) : Prop :=
  (length (promises σ) ≤ length (promises σ'))%nat
  ∧ (∀ q, (uses q σ' ≤ uses q σ + tally q [length (promises σ)])%nat)
  ∧ (σ' = σ ∨ (length (promises σ) < length (promises σ'))%nat).

Lemma starts_with σ σ1 σ2 σ3 :
  calm (new_promise σ).1 σ1 →
  (length (promises σ2) = length (promises σ1)
   ∧ ∀ q, (uses q σ2 ≤ uses q σ1 + tally q [length (promises σ)])%nat) →
  calm σ2 σ3 →
  starts σ σ3.
Proof.
  intros [Hlen1 Huses1] [Hlen2 Huses2] [Hlen3 Huses3].
  destruct (new_promise_calm σ) as [_ Huses0].
  assert (length (promises (new_promise σ).1) = S (length (promises σ))) as Hnew.
  { simpl. rewrite length_app. simpl. lia. }
  split_and!; [lia| |right; lia].
  intros q. specialize (Huses0 q). specialize (Huses1 q).
  specialize (Huses2 q). specialize (Huses3 q). lia.
Qed.

Lemma remember_starts key fallback options σ :
  starts σ (remember key fallback options σ).1.
Proof.
  unfold remember. destruct (rememberPromises σ !! key) as [inflight|].
  { cbn [fst]. split_and!; [done|intros q; lia|by left]. }
  destruct (new_promise σ) as [σ0 promise] eqn:Hnew.
  assert (σ0 = (new_promise σ).1 ∧ promise = length (promises σ)) as [-> ->]
    by (by injection Hnew as <- <-).
  pose proof (lix_get_calm key (new_promise σ).1) as Hget.
  destruct (lix_get key _) as [σ1 cached]. cbn [fst] in *.
  apply (starts_with σ σ1
           (await cached
              (RememberAfterGet key fallback options (length (promises σ))) σ1));
    [done|apply await_uses|by apply calm_same].
Qed.

Lemma rememberAll_starts pre fallback options σ :
  starts σ (rememberAll pre fallback options σ).1.
Proof.
  unfold rememberAll. destruct (rememberAllPromises σ !! pre) as [inflight|].
  { cbn [fst]. split_and!; [done|intros q; lia|by left]. }
  destruct (new_promise σ) as [σ0 promise] eqn:Hnew.
  assert (σ0 = (new_promise σ).1 ∧ promise = length (promises σ)) as [-> ->]
    by (by injection Hnew as <- <-).
  destruct (listTTL options) as [t|].
  - pose proof (lix_exists_calm (listMarkerKey pre) (new_promise σ).1) as Hexists.
    destruct (lix_exists _ _) as [σ1 markerExists]. cbn [fst] in *.
    apply (starts_with σ σ1
             (await markerExists
                (RememberAllAfterExists pre fallback options
                   (length (promises σ))) σ1));
      [done|apply await_uses|by apply calm_same].
  - cbn [fst].
    destruct (rememberAll_fetch_uses pre fallback options (length (promises σ))
                (new_promise σ).1) as [Hlen Huses].
    destruct (new_promise_calm σ) as [_ Huses0].
    assert (length (promises (new_promise σ).1) = S (length (promises σ)))
      as Hlen0.
    { simpl. rewrite length_app. simpl. lia. }
    split_and!.
    + change (length (promises σ)
              ≤ length (promises (rememberAll_fetch pre fallback options
                                    (length (promises σ)) (new_promise σ).1)))%nat.
      lia.
    + intros q. specialize (Huses q). specialize (Huses0 q).
      change (uses q (rememberAll_fetch pre fallback options
                        (length (promises σ)) (new_promise σ).1)
              ≤ uses q σ + tally q [length (promises σ)])%nat.
      lia.
    + right.
      change (length (promises σ)
              < length (promises (rememberAll_fetch pre fallback options
                                    (length (promises σ)) (new_promise σ).1)))%nat.
      lia.
Qed.

Lemma starts_ok σ σ' : starts σ σ' → single_flight σ → single_flight σ'.
Proof.
  intros (Hlen & Huses & Hnew) Hok p. specialize (Huses p).
  destruct (Hok p) as [Hle Hfresh]. rewrite tally_singleton in Huses.
  destruct Hnew as [->|Hnew]; [by apply Hok|].
  destruct (decide (length (promises σ) = p)) as [<-|Hne].
  - rewrite Hfresh in Huses by done. split; lia.
  - split; [lia|]. intros Hp. rewrite Hfresh in Huses by lia. lia.
Qed.

Lemma call_ok c σ : single_flight σ → single_flight (call c σ).1.
Proof.
  destruct c; cbn [call].
  - apply calm_ok, lix_set_calm.
  - apply calm_ok, lix_get_calm.
  - apply calm_ok, lix_delete_calm.
  - apply calm_ok, lix_exists_calm.
  - apply starts_ok, remember_starts.
  - apply starts_ok, rememberAll_starts.
Qed.

Lemma step_single_flight e σ : single_flight σ → single_flight (step e σ).
Proof.
  intros Hok. destruct e as [c| |i|i fetches|i message|q o|ms]; cbn [step].
  - by apply call_ok.
  - destruct (microtasks σ) as [|t rest] eqn:Hm; [done|].
    assert (∀ p, uses p σ
                 = (uses p (with_microtasks rest σ)
                    + tally p (resumed t ≫= flight_of))%nat) as Hpop.
    { intros p. unfold uses, invoked, parked, resuming. simpl.
      rewrite Hm, bind_cons, bind_app, tally_app. lia. }
    destruct t as [|f o|f r]; cbn [run_task].
    + apply (calm_ok (with_microtasks rest σ)); [apply flushBatch_calm|].
      intros p. specialize (Hpop p). simpl in Hpop. destruct (Hok p).
      split; [lia|]. simpl. intros. lia.
    + destruct (resume_uses f o (with_microtasks rest σ)) as [Hlen Huses].
      simpl in Hlen. intros p. specialize (Hpop p). specialize (Huses p).
      simpl in Hpop. rewrite app_nil_r in Hpop. unfold token in Huses.
      destruct (Hok p) as [Hle Hfresh]. split; [lia|].
      intros Hp. rewrite Hfresh in Hpop by lia. lia.
    + apply (calm_ok (with_microtasks rest σ)); [apply resume_http_calm|].
      intros p. specialize (Hpop p). simpl in Hpop. destruct (Hok p).
      split; [lia|]. simpl. intros. lia.
  - destruct (requests σ !! i) as [[r f]|] eqn:Hr; [|done].
    destruct (Server.handle (Http.wire r) (server σ)) as [c answer].
    apply (calm_ok (with_server c σ)); [apply complete_calm|done].
  - apply (calm_ok σ); [apply complete_calm|done].
  - apply (calm_ok σ); [apply refuse_calm|done].
  - destruct (produced q σ); [|done].
    apply (calm_ok σ); [apply settle_calm|done].
  - done.
Qed.

Lemma reachable_single_flight σ : reachable σ → single_flight σ.
Proof.
  induction 1 as [config c|e σ _ IH]; [|by apply step_single_flight].
  intros p. split; [|intros _]; unfold uses, invoked, parked, resuming, tally;
    simpl; lia.
Qed.

End flights.

(** X19.  Whatever the calls, the answers and their timing: a flight invokes
    its producer at most once.  In every state the client can reach, no
    two entries of the log of invocations belong to the same flight;
    every flight logged is a promise that exists; and a flight still
    holding a frame that may call the producer has not called it yet. *)
Theorem a_flight_invokes_its_producer_at_most_once σ :
  reachable σ →
  NoDup (observed σ ≫= invocation)
  ∧ (∀ p, p ∈ observed σ ≫= invocation → (p < length (promises σ))%nat)
  ∧ (∀ p f, f ∈ (promises σ ≫= reactions) ++ (microtasks σ ≫= resumed) →
       p ∈ flight_of f → p ∉ observed σ ≫= invocation).
Proof.
  intros Hok%reachable_single_flight.
  assert (∀ p (l : list nat), p ∈ l → (1 ≤ tally p l)%nat) as Hin.
  { intros p l Hp. unfold tally.
    assert (p ∈ filter (λ q, q = p) l) as Hf by (by apply list_elem_of_filter).
    destruct (filter _ l); [by apply elem_of_nil in Hf|simpl; lia]. }
  split_and!.
  - apply tally_le_1_NoDup. intros p. destruct (Hok p) as [Hle _].
    unfold uses, invoked in Hle. lia.
  - intros p Hp%Hin. destruct (Hok p) as [_ Hfresh].
    destruct (decide (p < length (promises σ))%nat); [done|].
    unfold uses, invoked in Hfresh. lia.
  - intros p f Hf Hp Hinvoked%Hin. destruct (Hok p) as [Hle _].
    unfold uses, invoked, parked, resuming in Hle.
    assert (1 ≤ tally p ((promises σ ≫= reactions) ≫= flight_of)
                + tally p ((microtasks σ ≫= resumed) ≫= flight_of))%nat; [|lia].
    rewrite <- tally_app, <- bind_app. apply Hin.
    apply list_elem_of_bind. by exists f.
Qed.

Lemma a_flight_invokes_its_producer_at_most_once_witness :
  NoDup (observed
           (run [Call (CallRemember "K" {| producer_id := 1; throws := None |}
                         None);
                 Call (CallRemember "K" {| producer_id := 2; throws := None |}
                         None)]
              (initial Http.default_config empty_cache)) ≫= invocation).
Proof.
  exact (proj1 (a_flight_invokes_its_producer_at_most_once _
                  (reachable_step (Call (CallRemember "K" _ None)) _
                     (reachable_step (Call (CallRemember "K" _ None)) _
                        (reachable_initial Http.default_config empty_cache))))).
Defined.

(** ** The lookup [rememberAll] hands back *)

Lemma itemMap_snoc options items item :
  itemMap options (items ++ [item])
  = <[getKey options item := item]> (itemMap options items).
Proof. unfold itemMap. by rewrite foldl_app. Qed.

Lemma itemMap_last options items key :
  itemMap options items !! key
  = last (filter (λ item, getKey options item = key) items).
Proof.
  induction items as [|item items IH] using rev_ind; [apply lookup_empty|].
  rewrite itemMap_snoc, filter_app, last_app, filter_cons, filter_nil.
  destruct (decide (getKey options item = key)) as [<-|Hne].
  - by rewrite lookup_insert_eq.
  - by rewrite lookup_insert_ne.
Qed.

Lemma no_item_with_key options items key :
  (∀ item, item ∈ items → getKey options item ≠ key) →
  filter (λ item, getKey options item = key) items = [].
Proof.
  induction items as [|item items IH]; intros Hkey; [done|].
  rewrite filter_cons_False by (apply Hkey; left).
  apply IH. intros item' Hin. apply Hkey. by right.
Qed.

(** X20.  [getBy(key)] is the last of the items whose key is [key]: an item
    is found under its own key unless a later item has the same key,
    which then shadows it; a key no item has gives [undefined].  When
    the keys are pairwise distinct every item is found under its key. *)
Theorem getBy_finds_the_last_item_with_the_key options items :
  let getBy key := default VUndefined (itemMap options items !! key) in
  RememberAllResult options items
  = VObj [("items", VArr items); ("getBy", VFun getBy)]
  ∧ (∀ key, (∀ item, item ∈ items → getKey options item ≠ key) →
       getBy key = VUndefined)
  ∧ (∀ before item after,
       items = before ++ item :: after →
       (∀ later, later ∈ after → getKey options later ≠ getKey options item) →
       getBy (getKey options item) = item)
  ∧ (∀ before item between later after,
       items = before ++ item :: between ++ later :: after →
       getKey options later = getKey options item →
       (∀ last, last ∈ after → getKey options last ≠ getKey options item) →
       getBy (getKey options item) = later)
  ∧ (NoDup (getKey options <$> items) →
     ∀ item, item ∈ items → getBy (getKey options item) = item).
Proof.
  intros getBy.
  assert (∀ before item after,
            items = before ++ item :: after →
            (∀ later, later ∈ after →
               getKey options later ≠ getKey options item) →
            getBy (getKey options item) = item) as Hlast.
  { intros before item after -> Hafter. unfold getBy.
    rewrite itemMap_last, filter_app, filter_cons_True by done.
    by rewrite (no_item_with_key options after _ Hafter), last_app. }
  split_and!.
  - done.
  - intros key Hkey. unfold getBy. by rewrite itemMap_last, no_item_with_key.
  - exact Hlast.
  - intros before item between later after -> Hsame Hafter.
    rewrite <- Hsame.
    apply (Hlast (before ++ item :: between) later after).
    + by rewrite <- app_assoc.
    + intros last Hin. rewrite Hsame. by apply Hafter.
  - intros Hnodup item Hin.
    apply list_elem_of_split in Hin as (before & after & ->).
    apply (Hlast before item after); [done|].
    intros later Hlater Hsame.
    rewrite fmap_app, fmap_cons in Hnodup.
    apply NoDup_app in Hnodup as (_ & _ & Hnodup).
    apply NoDup_cons in Hnodup as [Hnotin _]. apply Hnotin.
    rewrite <- Hsame. apply list_elem_of_fmap. by exists later.
Qed.

(** ** Collections *)

Module Collection.

(** [getKey(id)] *)
Definition getKey (prefix id : string) : string := prefix +:+ id.

(** A zod schema, as far as the collection uses it: [schema.parse(data)]
    returns the parsed value or throws. *)
Definition Schema := Value → Value + JsError.

(** [validate(data)] *)
Definition validate (schema : option Schema) (data : Value) : Value + JsError :=
  match schema with
  | Some parse => parse data
  | None => inl data
  end.

Fixpoint skip (n : nat) (s : string) : string :=
  match n, s with
  | S n, String _ rest => skip n rest
  | _, _ => s
  end.

(** [s.replace(pattern, '')] for a string pattern: the first occurrence
    is cut out. *)
Fixpoint remove_first (pattern s : string) : string :=
  if String.prefix pattern s then skip (String.length pattern) s
  else match s with
       | EmptyString => EmptyString
       | String a rest => String a (remove_first pattern rest)
       end.

(** The [map] in [scan]: keys lose the prefix, values are validated; the
    first value the schema refuses throws. *)
Fixpoint strip (prefix : string) (schema : option Schema)
    (items : list ScanItem) : list ScanItem + JsError :=
  match items with
  | [] => inl []
  | item :: rest =>
      match validate schema (item_value item) with
      | inl value =>
          match strip prefix schema rest with
          | inl validatedItems =>
              inl ({| item_key := remove_first prefix (item_key item);
                      item_value := value |} :: validatedItems)
          | inr error => inr error
          end
      | inr error => inr error
      end
  end.

(** [scan()], given what [client.scan(prefix)] came back with. *)
Definition scan (prefix : string) (schema : option Schema) (result : Body)
    : list ScanItem + JsError :=
  match body_items result with
  | None | Some [] => inl []
  | Some items => strip prefix schema items
  end.

(** The operations [batchGet(ids)] asks for. *)
Definition batchGet_operations (prefix : string) (ids : list string)
    : list BatchOperation :=
  (λ id, OpGet (getKey prefix id)) <$> ids.

(** The [map] over the results in [batchGet]. *)
Fixpoint batchGet_results (schema : option Schema) (results : list BatchResult)
    : list Value + JsError :=
  match results with
  | [] => inl []
  | result :: rest =>
      let this :=
        if String.eqb (r_op result) "get" then
          match r_value result with
          | VNull | VUndefined => inl VNull
          | value => validate schema value
          end
        else inl VNull in
      match this with
      | inl value =>
          match batchGet_results schema rest with
          | inl values => inl (value :: values)
          | inr error => inr error
          end
      | inr error => inr error
      end
  end.

(** [batchSet(items)] up to its request: every value is validated
    first, then the operations are built. *)
Fixpoint validated (schema : option Schema)
    (items : list (string * Value * option Z))
    : list (string * Value * option Z) + JsError :=
  match items with
  | [] => inl []
  | (id, value, ttl) :: rest =>
      match validate schema value with
      | inl value =>
          match validated schema rest with
          | inl validatedItems => inl ((id, value, ttl) :: validatedItems)
          | inr error => inr error
          end
      | inr error => inr error
      end
  end.

Definition batchSet_operations (prefix : string) (schema : option Schema)
    (items : list (string * Value * option Z)) : list BatchOperation + JsError :=
  match validated schema items with
  | inl validatedItems =>
      inl ((λ '(id, value, ttl), OpSet (getKey prefix id) value ttl)
             <$> validatedItems)
  | inr error => inr error
  end.

End Collection.

Lemma skip_append (pattern rest : string) :
  Collection.skip (String.length pattern) (pattern +:+ rest) = rest.
Proof. induction pattern as [|a pattern IH]; [by destruct rest|done]. Qed.

Lemma remove_first_prefix (pattern rest : string) :
  Collection.remove_first pattern (pattern +:+ rest) = rest.
Proof.
  pose proof (prefix_append pattern rest) as Hprefix.
  destruct (pattern +:+ rest) as [|a s] eqn:Hs; cbn [Collection.remove_first];
    rewrite Hprefix, <- Hs; apply skip_append.
Qed.

Lemma strip_unchecked pre items :
  Collection.strip pre None items
  = inl ((λ item, {| item_key := Collection.remove_first pre (item_key item);
                     item_value := item_value item |}) <$> items).
Proof.
  induction items as [|item items IH]; [done|].
  cbn [Collection.strip Collection.validate]. by rewrite IH.
Qed.

(** X21.  A collection hands out ids, the server sees keys, and the two
    translations undo each other: cutting the prefix from the key of an
    id gives the id back, and every key the server's scan of the prefix
    lists is the key of the id the collection's [scan] reports for it.
    Without a schema [scan] reports every item the server lists, in the
    server's order, values untouched. *)
Theorem collection_scan_gives_ids_back pre c :
  (∀ id, Collection.remove_first pre (Collection.getKey pre id) = id)
  ∧ (∀ item, item ∈ Server.scan pre c →
       Collection.getKey pre (Collection.remove_first pre (item_key item))
       = item_key item)
  ∧ Collection.scan pre None
      {| body_results := None; body_items := Some (Server.scan pre c) |}
    = inl ((λ item,
              {| item_key := Collection.remove_first pre (item_key item);
                 item_value := item_value item |}) <$> Server.scan pre c).
Proof.
  split_and!.
  - intros id. apply remove_first_prefix.
  - intros [key value] Hitem. simpl.
    apply scan_item_spec in Hitem as [Hprefix _].
    apply prefix_spec in Hprefix as [id ->].
    unfold Collection.getKey. by rewrite remove_first_prefix.
  - unfold Collection.scan. cbn [body_items].
    rewrite strip_unchecked. by destruct (Server.scan pre c).
Qed.

(** X22.  [batchGet(ids)] asks for one read per id, in the order of the ids
    and without collapsing repeated ids; the server answers them in that
    order and leaves the cache as it is; and without a schema the call
    hands back, for each id in turn, the value cached under its key, or
    [null] where there is none. *)
Theorem collection_batchGet_answers_in_order pre ids c :
  length (Collection.batchGet_operations pre ids) = length ids
  ∧ ∃ results,
      Server.batch (Collection.batchGet_operations pre ids) c = (c, Some results)
      ∧ Collection.batchGet_results None results
        = inl ((λ id, undefined_to_null
                        (Server.Cachex_get c (Collection.getKey pre id)))
                 <$> ids).
Proof.
  split; [apply length_fmap|].
  induction ids as [|id ids (results & Hbatch & Hresults)].
  - by exists [].
  - exists ({| r_op := "get"; r_key := Collection.getKey pre id;
               r_value := Server.Cachex_get c (Collection.getKey pre id);
               r_success := false |} :: results).
    split.
    + cbn [Collection.batchGet_operations fmap list_fmap Server.batch
           Server.batch_clause].
      fold (Collection.batchGet_operations pre ids). by rewrite Hbatch.
    + cbn [Collection.batchGet_results r_op r_value]. rewrite Hresults.
      rewrite fmap_cons.
      by destruct (Server.Cachex_get c (Collection.getKey pre id)).
Qed.

Lemma validated_unchecked items : Collection.validated None items = inl items.
Proof.
  induction items as [|[[id value] ttl] items IH]; [done|].
  cbn [Collection.validated Collection.validate]. by rewrite IH.
Qed.

Lemma validated_refused schema before id value ttl after error :
  Forall (λ item, ∃ checked, Collection.validate schema item.1.2 = inl checked)
    before →
  Collection.validate schema value = inr error →
  Collection.validated schema (before ++ (id, value, ttl) :: after) = inr error.
Proof.
  intros Hbefore Hvalue.
  induction Hbefore as [|[[id' value'] ttl'] before [checked Hchecked] _ IH].
  - cbn [app Collection.validated]. by rewrite Hvalue.
  - cbn [app Collection.validated]. simpl in Hchecked.
    by rewrite Hchecked, IH.
Qed.

(** X23.  [batchSet] validates every value before it builds or sends
    anything: when the schema refuses a value, the call throws what the
    schema threw for the first such value and there are no operations to
    send, not even for the items before it.  Without a schema the
    operations are one write per item, in order, under the key of its
    id. *)
Theorem collection_batchSet_validates_before_it_sends pre schema items :
  (∀ before id value ttl after error,
     items = before ++ (id, value, ttl) :: after →
     Forall (λ item, ∃ checked,
               Collection.validate schema item.1.2 = inl checked) before →
     Collection.validate schema value = inr error →
     Collection.batchSet_operations pre schema items = inr error)
  ∧ Collection.batchSet_operations pre None items
    = inl ((λ '(id, value, ttl), OpSet (Collection.getKey pre id) value ttl)
             <$> items).
Proof.
  split.
  - intros before id value ttl after error -> Hbefore Hvalue.
    unfold Collection.batchSet_operations.
    by rewrite (validated_refused _ _ _ _ _ _ error Hbefore Hvalue).
  - unfold Collection.batchSet_operations. by rewrite validated_unchecked.
Qed.

(** ** Authentication *)

Module Auth.

(** [buildHeaders(headers)] of the client: the key, when there is one,
    goes out as a bearer token. *)
Definition buildHeaders (apiKey : string) (headers : list (string * string))
    : list (string * string) :=
  if String.eqb apiKey "" then headers
  else headers ++ [("Authorization", "Bearer " +:+ apiKey)].

(** Header names do not depend on case; the plug asks for them in lower
    case. *)
Definition downcase (a : Ascii.ascii) : Ascii.ascii :=
  let n := Ascii.nat_of_ascii a in
  if (65 <=? n)%nat && (n <=? 90)%nat then Ascii.ascii_of_nat (n + 32) else a.

Fixpoint lower (s : string) : string :=
  match s with
  | EmptyString => EmptyString
  | String a rest => String (downcase a) (lower rest)
  end.

(** [get_req_header(conn, name)] *)
Definition get_req_header (headers : list (string * string)) (name : string)
    : list string :=
  (filter (λ header, lower header.1 = name) headers).*2.

(** The server's settings: [LIX_AUTH_ENABLED] and [LIX_API_KEYS]. *)
Record Config := { auth_enabled : bool; api_keys : list string }.

(** [validate_auth(conn)]: [None] lets the request through, [Some]
    halts it with a 401 and that message. *)
Definition validate_auth (config : Config) (headers : list (string * string))
    : option string :=
  match get_req_header headers "authorization" with
  | [value] =>
      if String.prefix "Bearer " value then
        if bool_decide (Collection.skip 7 value ∈ api_keys config) then None
        else Some "Invalid API key"
      else Some "Missing or invalid Authorization header"
  | _ => Some "Missing or invalid Authorization header"
  end.

(** [call(conn, _opts)] *)
Definition call (config : Config) (request_path : string)
    (headers : list (string * string)) : option string :=
  if String.eqb request_path "/health" || negb (auth_enabled config) then None
  else validate_auth config headers.

End Auth.

(** X24.  With authentication on, a request of the client for anything but
    [/health] passes the plug exactly when the client was given a key
    and the server lists it; a client without a key sends no token and
    is refused.  [/health] passes whatever is sent, and so does
    everything while authentication is off. *)
Theorem request_passes_iff_key_is_listed config path apiKey headers :
  Auth.get_req_header headers "authorization" = [] →
  let sent := Auth.buildHeaders apiKey headers in
  (Auth.auth_enabled config = true → path ≠ "/health" →
     (Auth.call config path sent = None
      ↔ apiKey ≠ "" ∧ apiKey ∈ Auth.api_keys config)
     ∧ (apiKey = "" →
        Auth.call config path sent
        = Some "Missing or invalid Authorization header")
     ∧ (apiKey ≠ "" → apiKey ∉ Auth.api_keys config →
        Auth.call config path sent = Some "Invalid API key"))
  ∧ Auth.call config "/health" sent = None
  ∧ (Auth.auth_enabled config = false → Auth.call config path sent = None).
Proof.
  intros Hnone sent.
  assert (apiKey ≠ "" →
          Auth.validate_auth config sent
          = if bool_decide (apiKey ∈ Auth.api_keys config) then None
            else Some "Invalid API key") as Hkey.
  { intros Hne. unfold Auth.validate_auth, sent, Auth.buildHeaders.
    rewrite (proj2 (String.eqb_neq _ _) Hne).
    unfold Auth.get_req_header in *. rewrite filter_app, fmap_app, Hnone.
    rewrite filter_cons_True by done. cbn [filter list_filter fmap list_fmap app snd].
    rewrite prefix_append.
    change 7%nat with (String.length "Bearer ").
    by rewrite skip_append. }
  assert (apiKey = "" →
          Auth.validate_auth config sent
          = Some "Missing or invalid Authorization header") as Hmissing.
  { intros ->. unfold Auth.validate_auth, sent, Auth.buildHeaders.
    cbn [String.eqb]. by rewrite Hnone. }
  split_and!.
  - intros Henabled Hpath. unfold Auth.call.
    rewrite (proj2 (String.eqb_neq _ _) Hpath), Henabled. cbn [orb negb].
    split_and!.
    + destruct (decide (apiKey = "")) as [Hempty|Hne].
      * rewrite Hmissing by done. split; [done|]. by intros [? _].
      * rewrite Hkey by done. destruct (bool_decide _) eqn:Hin.
        -- apply bool_decide_eq_true in Hin. by split.
        -- apply bool_decide_eq_false in Hin. split; [done|]. by intros [_ ?].
    + apply Hmissing.
    + intros Hne Hnotin. rewrite Hkey by done.
      by rewrite bool_decide_eq_false_2.
  - done.
  - intros Hdisabled. unfold Auth.call. rewrite Hdisabled.
    by rewrite orb_true_r.
Qed.

Lemma request_passes_iff_key_is_listed_witness :
  Auth.call {| Auth.auth_enabled := true; Auth.api_keys := ["k1"; "k2"] |}
    "/cache/batch"
    (Auth.buildHeaders "k2" [("Content-Type", "application/json")])
  = None.
Proof.
  refine (proj2 (proj1 (proj1 (request_passes_iff_key_is_listed
            {| Auth.auth_enabled := true; Auth.api_keys := ["k1"; "k2"] |}
            "/cache/batch" "k2" [("Content-Type", "application/json")] eq_refl)
            eq_refl _)) _).
  - done.
  - split; [done|]. right. left.
Defined.
